(** * Distributed MapReduce: coordinator, worker and shared data structures

    A shallow embedding of [src/mapreduce/mapreduce.py],
    [src/mapreduce/coordinator.py] and [src/mapreduce/worker.py], with the
    properties of the task state machine, the partitioning hash, the
    sort/group pipeline, the task wire encoding and the worker's file
    protocol.

    Conventions.
    - Python [int] is [Z]; [str] is [string] (a sequence of bytes, compared
      lexicographically, which for UTF-8 agrees with code-point order).
    - A [dict] whose iteration order matters (the coordinator's task tables)
      is an association list in insertion order; a [dict] used as a record on
      the wire is a [gmap string pyval].
    - The wall clock [time.time()] is an explicit argument of every operation
      that reads it, a rational number of seconds.
    - Code that can raise returns a [result]; the worker's file I/O runs in a
      small state-and-error monad over a model of the shared directory. *)

From Stdlib Require Import ZArith QArith String Ascii List Bool Lia Permutation Sorted.
From stdpp Require Import base option list gmap strings pretty.

Local Open Scope string_scope.
Local Open Scope Z_scope.
Local Open Scope list_scope.

(* ===================================================================== *)
(** * mapreduce.py *)
(* ===================================================================== *)

Module MapReduce.

(** ** Enumerations *)

Inductive TaskType := MAP | REDUCE | WAIT | EXIT.
Inductive TaskStatus := IDLE | IN_PROGRESS | COMPLETED.

Global Instance TaskType_eq_dec : EqDecision TaskType.
Proof. solve_decision. Defined.
Global Instance TaskStatus_eq_dec : EqDecision TaskStatus.
Proof. solve_decision. Defined.

(** [TaskType.value] *)
Definition TaskType_value (t : TaskType) : string :=
  match t with
  | MAP => "map" | REDUCE => "reduce" | WAIT => "wait" | EXIT => "exit"
  end.

(** ** Dynamically typed values carried by wire dictionaries *)

Inductive pyval :=
  | PyInt (z : Z)
  | PyStr (s : string)
  | PyBool (b : bool)
  | PyStrList (l : list string).

(** ** Exceptions *)

(** The exceptions the modelled code can meet.  Those the interpreter raises
    carry the offending value; [AppError msg] is an exception raised by an
    application callback, with [str(e) = msg]. *)
Inductive exn :=
  | KeyError (k : pyval)
  | ValueError (v : pyval)
  | IndexError
  | ZeroDivisionError
  | FileNotFoundError (path : string)
  | PermissionError (path : string)
  | AppError (msg : string).

Inductive result (A : Type) :=
  | Ok (a : A)
  | Raise (e : exn).
Arguments Ok {A} a.
Arguments Raise {A} e.

(** [TaskType(v)]: look an enumeration member up by value; anything that is
    not a member's value raises [ValueError]. *)
Definition TaskType_of_value (v : pyval) : result TaskType :=
  match v with
  | PyStr s =>
      if String.eqb s "map" then Ok MAP
      else if String.eqb s "reduce" then Ok REDUCE
      else if String.eqb s "wait" then Ok WAIT
      else if String.eqb s "exit" then Ok EXIT
      else Raise (ValueError v)
  | _ => Raise (ValueError v)
  end.

(** ** KeyValue *)

Record KeyValue := mkKeyValue { key : string; value : string }.

(** [KeyValue.to_dict] and [KeyValue.from_dict], on [Dict[str, str]]. *)
Definition KeyValue_to_dict (kv : KeyValue) : gmap string string :=
  <["key" := key kv]> (<["value" := value kv]> ∅).

Definition KeyValue_from_dict (data : gmap string string) : result KeyValue :=
  match data !! "key" with
  | None => Raise (KeyError (PyStr "key"))
  | Some k =>
      match data !! "value" with
      | None => Raise (KeyError (PyStr "value"))
      | Some v => Ok (mkKeyValue k v)
      end
  end.

(** [str(e)] of an application's exception; the message texts of the
    interpreter's own errors are not modelled. *)
Definition exn_str (e : exn) : option string :=
  match e with
  | AppError msg => Some msg
  | _ => None
  end.

(** ** Task *)

Record Task := mkTask {
  task_id : Z;
  task_type : TaskType;
  input_files : list string;
  output_file : string;
  n_reduce : Z;
  map_task_id : Z;
  reduce_task_id : Z
}.

Definition Task_to_dict (t : Task) : gmap string pyval :=
  <["task_id" := PyInt (task_id t)]>
  (<["task_type" := PyStr (TaskType_value (task_type t))]>
  (<["input_files" := PyStrList (input_files t)]>
  (<["output_file" := PyStr (output_file t)]>
  (<["n_reduce" := PyInt (n_reduce t)]>
  (<["map_task_id" := PyInt (map_task_id t)]>
  (<["reduce_task_id" := PyInt (reduce_task_id t)]> ∅)))))).

(** [data[k]]: a missing key raises [KeyError]. *)
Definition dict_getitem (data : gmap string pyval) (k : string) : result pyval :=
  match data !! k with
  | Some v => Ok v
  | None => Raise (KeyError (PyStr k))
  end.

(** [data.get(k, d)] *)
Definition dict_get (data : gmap string pyval) (k : string) (d : pyval) : pyval :=
  default d (data !! k).

(** [Task.from_dict].  Python stores whatever values the dictionary holds;
    the record [Task] has the field types of the dataclass annotations, so
    a value of another type has no image in the model: the outer [option] is
    [None] exactly there. *)
Definition Task_from_dict (data : gmap string pyval) : option (result Task) :=
  match dict_getitem data "task_id" with
  | Raise e => Some (Raise e)
  | Ok v_id =>
  match dict_getitem data "task_type" with
  | Raise e => Some (Raise e)
  | Ok v_ty =>
  match TaskType_of_value v_ty with
  | Raise e => Some (Raise e)
  | Ok ty =>
  match dict_getitem data "input_files" with
  | Raise e => Some (Raise e)
  | Ok v_in =>
  match dict_getitem data "output_file" with
  | Raise e => Some (Raise e)
  | Ok v_out =>
  match dict_getitem data "n_reduce" with
  | Raise e => Some (Raise e)
  | Ok v_n =>
  match v_id, v_in, v_out, v_n,
        dict_get data "map_task_id" (PyInt (-1)),
        dict_get data "reduce_task_id" (PyInt (-1)) with
  | PyInt i, PyStrList fs, PyStr o, PyInt n, PyInt m, PyInt r =>
      Some (Ok (mkTask i ty fs o n m r))
  | _, _, _, _, _, _ => None
  end end end end end end end.

(** ** Partitioning hash *)

(** [ihash]: Python's built-in [hash] is part of the interpreter, keyed per
    process; it is the parameter [hash]. *)
Definition ihash (hash : string → Z) (key : string) : Z :=
  hash key `mod` (2 ^ 31 - 1).

(** The hash the specification names, for comparison with [ihash]: 64-bit
    FNV-1a over the key's bytes, then the low 31 bits. *)
Definition fnv_offset_basis : Z := 14695981039346656037.
Definition fnv_prime : Z := 1099511628211.

Fixpoint fnv1a_64_from (h : Z) (s : string) : Z :=
  match s with
  | EmptyString => h
  | String c s' =>
      fnv1a_64_from
        ((Z.lxor h (Z.of_N (N_of_ascii c)) * fnv_prime) `mod` 2 ^ 64) s'
  end.

Definition fnv1a_64 (s : string) : Z := fnv1a_64_from fnv_offset_basis s.

Definition ihash_fnv1a (key : string) : Z := Z.land (fnv1a_64 key) (2 ^ 31 - 1).

(** ** File names *)

Definition intermediate_filename (map_task_id reduce_task_id : Z) : string :=
  "mr-" +:+ pretty map_task_id +:+ "-" +:+ pretty reduce_task_id.

Definition output_filename (reduce_task_id : Z) : string :=
  "mr-out-" +:+ pretty reduce_task_id.

(** ** Sorting and grouping *)

(** Python's [sorted(xs, key=f)] is a stable sort by [f]; the result of a
    stable sort is determined by the input, and here it is computed by
    insertion from the right, each element going in front of the first
    element whose key is not smaller. *)
Fixpoint sorted_insert (x : KeyValue) (l : list KeyValue) : list KeyValue :=
  match l with
  | [] => [x]
  | y :: l' =>
      if String.leb (key x) (key y) then x :: y :: l'
      else y :: sorted_insert x l'
  end.

Definition sort_key_values (key_values : list KeyValue) : list KeyValue :=
  foldr sorted_insert [] key_values.

(** The loop of [group_by_key] over [sorted_key_values[1:]], with the three
    variables it updates. *)
Fixpoint group_by_key_loop (rest : list KeyValue)
    (groups : list (string * list string))
    (current_key : string) (current_values : list string)
    : list (string * list string) :=
  match rest with
  | [] => groups ++ [(current_key, current_values)]
  | kv :: rest' =>
      if String.eqb (key kv) current_key
      then group_by_key_loop rest' groups current_key
             (current_values ++ [value kv])
      else group_by_key_loop rest' (groups ++ [(current_key, current_values)])
             (key kv) [value kv]
  end.

Definition group_by_key (sorted_key_values : list KeyValue)
    : list (string * list string) :=
  match sorted_key_values with
  | [] => []
  | kv0 :: rest => group_by_key_loop rest [] (key kv0) [value kv0]
  end.

End MapReduce.

(* ===================================================================== *)
(** * coordinator.py *)
(* ===================================================================== *)

Module Coordinator.
Import MapReduce.

(** ** Insertion-ordered dictionaries keyed by task id

    [Dict[int, TaskInfo]] is iterated by the coordinator, so the model keeps
    Python's insertion order: a list of (key, value) entries. *)

Section OrderedDict.
Context {V : Type}.

(** [d[k]] / [k in d] *)
Fixpoint od_lookup (k : Z) (d : list (Z * V)) : option V :=
  match d with
  | [] => None
  | (k', v) :: d' => if decide (k' = k) then Some v else od_lookup k d'
  end.

(** Mutation of the object stored under [k], in place. *)
Fixpoint od_alter (f : V → V) (k : Z) (d : list (Z * V)) : list (Z * V) :=
  match d with
  | [] => []
  | (k', v) :: d' =>
      if decide (k' = k) then (k', f v) :: d' else (k', v) :: od_alter f k d'
  end.

(** [d[k] = v]: replaces the value of an existing key where it stands,
    appends a new key. *)
Definition od_setitem (k : Z) (v : V) (d : list (Z * V)) : list (Z * V) :=
  match od_lookup k d with
  | Some _ => od_alter (λ _, v) k d
  | None => d ++ [(k, v)]
  end.

(** [d.values()] *)
Definition od_values (d : list (Z * V)) : list V := d.*2.

End OrderedDict.

(** ** TaskInfo *)

Record TaskInfo := mkTaskInfo {
  task : Task;
  status : TaskStatus;
  worker_id : option string;
  start_time : option Q;
  completion_time : option Q
}.

(** [TaskInfo(task=task)] with the dataclass defaults. *)
Definition new_TaskInfo (t : Task) : TaskInfo :=
  mkTaskInfo t IDLE None None None.

(** ** Coordinator state (the fields guarded by [self.lock]) *)

Record Coordinator := mkCoordinator {
  files : list string;
  n_reduce : Z;
  map_tasks : list (Z * TaskInfo);
  reduce_tasks : list (Z * TaskInfo);
  next_task_id : Z;
  active_workers : gset string;
  map_phase_complete : bool;
  all_tasks_complete : bool
}.

Definition set_map_tasks (d : list (Z * TaskInfo)) (c : Coordinator) :=
  mkCoordinator (files c) (n_reduce c) d (reduce_tasks c) (next_task_id c)
    (active_workers c) (map_phase_complete c) (all_tasks_complete c).
Definition set_reduce_tasks (d : list (Z * TaskInfo)) (c : Coordinator) :=
  mkCoordinator (files c) (n_reduce c) (map_tasks c) d (next_task_id c)
    (active_workers c) (map_phase_complete c) (all_tasks_complete c).
Definition set_next_task_id (n : Z) (c : Coordinator) :=
  mkCoordinator (files c) (n_reduce c) (map_tasks c) (reduce_tasks c) n
    (active_workers c) (map_phase_complete c) (all_tasks_complete c).
Definition set_active_workers (s : gset string) (c : Coordinator) :=
  mkCoordinator (files c) (n_reduce c) (map_tasks c) (reduce_tasks c)
    (next_task_id c) s (map_phase_complete c) (all_tasks_complete c).
Definition set_map_phase_complete (b : bool) (c : Coordinator) :=
  mkCoordinator (files c) (n_reduce c) (map_tasks c) (reduce_tasks c)
    (next_task_id c) (active_workers c) b (all_tasks_complete c).
Definition set_all_tasks_complete (b : bool) (c : Coordinator) :=
  mkCoordinator (files c) (n_reduce c) (map_tasks c) (reduce_tasks c)
    (next_task_id c) (active_workers c) (map_phase_complete c) b.

(** ** Construction *)

(** [enumerate(xs)] *)
Definition enumerate {A} (xs : list A) : list (Z * A) :=
  zip (seqZ 0 (Z.of_nat (length xs))) xs.

Definition _create_map_tasks (c : Coordinator) : Coordinator :=
  foldl (λ c '(i, filename),
    let t := mkTask (next_task_id c) MAP [filename] "" (n_reduce c) i (-1) in
    set_next_task_id (next_task_id c + 1)
      (set_map_tasks (od_setitem (next_task_id c) (new_TaskInfo t) (map_tasks c)) c))
    c (enumerate (files c)).

Definition _create_reduce_tasks (c : Coordinator) : Coordinator :=
  foldl (λ c i,
    let input_files :=
      (λ map_id, "mr-" +:+ pretty map_id +:+ "-" +:+ pretty i)
        <$> seqZ 0 (Z.of_nat (length (files c))) in
    let t := mkTask (next_task_id c) REDUCE input_files
               ("mr-out-" +:+ pretty i) (n_reduce c) (-1) i in
    set_next_task_id (next_task_id c + 1)
      (set_reduce_tasks
         (od_setitem (next_task_id c) (new_TaskInfo t) (reduce_tasks c)) c))
    c (seqZ 0 (n_reduce c)).

(** [Coordinator.__init__] *)
Definition init (files : list string) (n_reduce : Z) : Coordinator :=
  _create_reduce_tasks
    (_create_map_tasks
       (mkCoordinator files n_reduce [] [] 0 ∅ false false)).

(** [done] *)
Definition done (c : Coordinator) : bool := all_tasks_complete c.

(** ** Task assignment *)

Fixpoint first_idle (infos : list TaskInfo) : option Task :=
  match infos with
  | [] => None
  | task_info :: rest =>
      if decide (status task_info = IDLE) then Some (task task_info)
      else first_idle rest
  end.

Definition _get_available_task (c : Coordinator) : option Task :=
  if negb (map_phase_complete c) then first_idle (od_values (map_tasks c))
  else first_idle (od_values (reduce_tasks c)).

(** The three assignments of [_handle_task_request] to the chosen
    [task_info]. *)
Definition assign (worker : string) (now : Q) (ti : TaskInfo) : TaskInfo :=
  mkTaskInfo (task ti) IN_PROGRESS (Some worker) (Some now) (completion_time ti).

Definition control_task (ty : TaskType) (c : Coordinator) : Task :=
  mkTask (-1) ty [] "" (n_reduce c) (-1) (-1).

(** [_handle_task_request]: the new state and the handler's reply, the task's
    dictionary or the exception the RPC server turns into an error reply. *)
Definition _handle_task_request (worker : string) (now : Q) (c : Coordinator)
    : Coordinator * result (gmap string pyval) :=
  let c := set_active_workers ({[worker]} ∪ active_workers c) c in
  match _get_available_task c with
  | None =>
      if all_tasks_complete c
      then (c, Ok (Task_to_dict (control_task EXIT c)))
      else (c, Ok (Task_to_dict (control_task WAIT c)))
  | Some t =>
      if decide (task_type t = MAP) then
        match od_lookup (task_id t) (map_tasks c) with
        | None => (c, Raise (KeyError (PyInt (task_id t))))
        | Some _ =>
            (set_map_tasks (od_alter (assign worker now) (task_id t) (map_tasks c)) c,
             Ok (Task_to_dict t))
        end
      else
        match od_lookup (task_id t) (reduce_tasks c) with
        | None => (c, Raise (KeyError (PyInt (task_id t))))
        | Some _ =>
            (set_reduce_tasks
               (od_alter (assign worker now) (task_id t) (reduce_tasks c)) c,
             Ok (Task_to_dict t))
        end
  end.

(** ** Phase completion *)

Definition all_completed (infos : list TaskInfo) : bool :=
  forallb (λ task_info, bool_decide (status task_info = COMPLETED)) infos.

Definition _check_phase_completion (c : Coordinator) : Coordinator :=
  let c :=
    if negb (map_phase_complete c) then
      if all_completed (od_values (map_tasks c))
      then set_map_phase_complete true c else c
    else c in
  if map_phase_complete c then
    if all_completed (od_values (reduce_tasks c))
    then set_all_tasks_complete true c else c
  else c.

(** ** Completion reports *)

Definition mark_completed (now : Q) (ti : TaskInfo) : TaskInfo :=
  mkTaskInfo (task ti) COMPLETED (worker_id ti) (start_time ti) (Some now).

Definition reset (ti : TaskInfo) : TaskInfo :=
  mkTaskInfo (task ti) IDLE None None (completion_time ti).

(** The lookup at the head of [_handle_task_completion]: the map table
    first, then the reduce table. *)
Definition find_task (task_id : Z) (c : Coordinator) : option TaskInfo :=
  match od_lookup task_id (map_tasks c) with
  | Some ti => Some ti
  | None => od_lookup task_id (reduce_tasks c)
  end.

(** Mutation of the [TaskInfo] object [find_task] returns. *)
Definition update_task (f : TaskInfo → TaskInfo) (task_id : Z) (c : Coordinator)
    : Coordinator :=
  match od_lookup task_id (map_tasks c) with
  | Some _ => set_map_tasks (od_alter f task_id (map_tasks c)) c
  | None => set_reduce_tasks (od_alter f task_id (reduce_tasks c)) c
  end.

Definition ack (b : bool) : gmap string pyval := <["acknowledged" := PyBool b]> ∅.

Definition _handle_task_completion (worker : string) (task_id : Z)
    (success : bool) (error_message : string) (now : Q) (c : Coordinator)
    : Coordinator * gmap string pyval :=
  match find_task task_id c with
  | None => (c, <["error" := PyStr "Task not found"]> (ack false))
  | Some _ =>
      if success then
        (_check_phase_completion (update_task (mark_completed now) task_id c),
         ack true)
      else
        (update_task reset task_id c, ack true)
  end.

(** ** Monitor *)

Definition timed_out (now : Q) (ti : TaskInfo) : bool :=
  bool_decide (status ti = IN_PROGRESS) &&
  match start_time ti with
  | Some t0 => negb (Qle_bool (now - t0)%Q (10 # 1))
  | None => false
  end.

Definition expire (now : Q) (ti : TaskInfo) : TaskInfo :=
  if timed_out now ti then reset ti else ti.

(** One pass of the [while True] loop of [_monitor_tasks], after the sleep:
    the state it leaves and whether the loop goes on. *)
Definition _monitor_tasks_pass (now : Q) (c : Coordinator) : Coordinator * bool :=
  if all_tasks_complete c then (c, false)
  else if negb (map_phase_complete c)
  then (set_map_tasks (prod_map id (expire now) <$> map_tasks c) c, true)
  else (set_reduce_tasks (prod_map id (expire now) <$> reduce_tasks c) c, true).

(** ** Operations under the lock

    Handlers and the monitor hold [self.lock] for their whole body, so a run
    of the coordinator is a sequence of these operations. *)

Inductive op :=
  | RequestTask (worker : string) (now : Q)
  | CompleteTask (worker : string) (task_id : Z) (success : bool)
      (error_message : string) (now : Q)
  | MonitorPass (now : Q).

Definition step (c : Coordinator) (o : op) : Coordinator :=
  match o with
  | RequestTask w now => (_handle_task_request w now c).1
  | CompleteTask w tid ok msg now => (_handle_task_completion w tid ok msg now c).1
  | MonitorPass now => (_monitor_tasks_pass now c).1
  end.

Definition run (c : Coordinator) (ops : list op) : Coordinator := foldl step c ops.

(** States a coordinator can be in: built by [__init__], then any operations. *)
Definition reachable (c : Coordinator) : Prop :=
  ∃ files n_reduce ops, c = run (init files n_reduce) ops.

End Coordinator.

(* ===================================================================== *)
(** * worker.py *)
(* ===================================================================== *)

Module Worker.
Import MapReduce.

(** ** The shared directory

    [fs] maps a path to the file's contents.  [denied] are the paths the
    worker cannot open for writing.  [log] records, in order, every file
    opened for writing and every rename. *)

Inductive event :=
  | OpenW (path : string)
  | Rename (src dst : string).

Record World := mkWorld {
  fs : gmap string string;
  denied : gset string;
  log : list event
}.

(** Computations that read and change the directory and may raise. *)
Definition M (A : Type) : Type := World → World * result A.

Global Instance M_ret : MRet M := λ A a w, (w, Ok a).
Global Instance M_bind : MBind M := λ A B f m w,
  match m w with
  | (w', Ok a) => f a w'
  | (w', Raise e) => (w', Raise e)
  end.

Definition lift {A} (r : result A) : M A := λ w, (w, r).

(** [try: m except Exception as e: h e] *)
Definition try_except {A} (m : M A) (h : exn → M A) : M A := λ w,
  match m w with
  | (w', Ok a) => (w', Ok a)
  | (w', Raise e) => h e w'
  end.

(** [for x in xs: body x] *)
Fixpoint for_each {A} (xs : list A) (body : A → M unit) : M unit :=
  match xs with
  | [] => mret ()
  | x :: xs' => body x;; for_each xs' body
  end.

(** [for x in xs: acc = body acc x] *)
Fixpoint for_fold {A B} (xs : list A) (acc : B) (body : B → A → M B) : M B :=
  match xs with
  | [] => mret acc
  | x :: xs' => acc' ← body acc x; for_fold xs' acc' body
  end.

(** [open(path, "r")] and [f.read()] *)
Definition open_read (path : string) : M string := λ w,
  match fs w !! path with
  | Some contents => (w, Ok contents)
  | None => (w, Raise (FileNotFoundError path))
  end.

(** [open(path, "w")]: creates the file or truncates it. *)
Definition open_write (path : string) : M unit := λ w,
  if decide (path ∈ denied w) then (w, Raise (PermissionError path))
  else (mkWorld (<[path := ""]> (fs w)) (denied w) (log w ++ [OpenW path]), Ok ()).

(** [f.write(data)] on a file opened for writing under [path] *)
Definition file_write (path data : string) : M unit := λ w,
  (mkWorld (alter (λ old, old +:+ data) path (fs w)) (denied w) (log w), Ok ()).

(** [os.rename(src, dst)] *)
Definition os_rename (src dst : string) : M unit := λ w,
  match fs w !! src with
  | Some contents =>
      (mkWorld (<[dst := contents]> (delete src (fs w))) (denied w)
         (log w ++ [Rename src dst]), Ok ())
  | None => (w, Raise (FileNotFoundError src))
  end.

(** [os.path.exists(path)] *)
Definition os_path_exists (path : string) : M bool := λ w,
  (w, Ok (bool_decide (is_Some (fs w !! path)))).

(** ** Lists and integers as Python has them *)

(** [xs[i]], negative indices counting from the end. *)
Definition py_index {A} (xs : list A) (i : Z) : result A :=
  let n := Z.of_nat (length xs) in
  let j := if decide (i < 0) then n + i else i in
  if decide (0 ≤ j < n) then
    match xs !! Z.to_nat j with
    | Some x => Ok x
    | None => Raise IndexError
    end
  else Raise IndexError.

(** [xss[i].append(x)] *)
Definition py_append_at {A} (xss : list (list A)) (i : Z) (x : A)
    : result (list (list A)) :=
  let n := Z.of_nat (length xss) in
  let j := if decide (i < 0) then n + i else i in
  if decide (0 ≤ j < n) then Ok (alter (λ xs, xs ++ [x]) (Z.to_nat j) xss)
  else Raise IndexError.

(** [a % b] *)
Definition py_mod (a b : Z) : result Z :=
  if decide (b = 0) then Raise ZeroDivisionError else Ok (a `mod` b).

Definition nl : string := String (ascii_of_nat 10) EmptyString.

(** ** What the interpreter and the application supply *)

Record Runtime := mkRuntime {
  (** built-in [hash] on [str] *)
  hash : string → Z;
  (** [json.dumps] / [json.loads] on objects with string members *)
  json_dumps : gmap string string → string;
  json_loads : string → result (gmap string string);
  (** iteration over the lines of a text file *)
  readlines : string → list string;
  (** [str.strip] *)
  strip : string → string
}.

(** [MapReduceApp]: the two callbacks, which may raise. *)
Record MapReduceApp := mkApp {
  map_func : string → string → result (list KeyValue);
  reduce_func : string → list string → result string
}.

Record Worker := mkWorker {
  worker_id : string;
  map_reduce_app : MapReduceApp;
  rpc_client : option (string * Z)
}.

(** The calls a worker places. *)
Inductive rpc_call :=
  | request_task (worker_id : string)
  | complete_task (worker_id : string) (task_id : Z) (success : bool)
      (error_message : string).

Section WithRuntime.
Context (rt : Runtime).

(** ** Intermediate files (mapreduce.py) *)

Definition read_key_values_from_file (filename : string) : M (list KeyValue) :=
  try_except
    (contents ← open_read filename;
     for_fold (readlines rt contents) [] (λ kv_list line,
       let line := strip rt line in
       if decide (line = "") then mret kv_list
       else
         data ← lift (json_loads rt line);
         kv ← lift (KeyValue_from_dict data);
         mret (kv_list ++ [kv])))
    (λ _, mret []).

Definition write_key_values_to_file (filename : string)
    (key_values : list KeyValue) : M unit :=
  open_write filename;;
  for_each key_values (λ kv,
    file_write filename (json_dumps rt (KeyValue_to_dict kv));;
    file_write filename nl).

(** ** Map *)

(** The body of the partitioning loop of [_execute_map_task]. *)
Definition partition_step (task : Task) (intermediate_files : list (list KeyValue))
    (kv : KeyValue) : M (list (list KeyValue)) :=
  reduce_id ← lift (py_mod (ihash (hash rt) (key kv)) (n_reduce task));
  lift (py_append_at intermediate_files reduce_id kv).

(** The body of the loop that writes the intermediate files. *)
Definition write_intermediate_file (task : Task)
    (intermediate_files : list (list KeyValue)) (reduce_id : Z) : M unit :=
  let filename := intermediate_filename (map_task_id task) reduce_id in
  let temp_file := filename +:+ ".tmp" in
  bucket ← lift (py_index intermediate_files reduce_id);
  write_key_values_to_file temp_file bucket;;
  os_rename temp_file filename.

(** The [try] block of [_execute_map_task]. *)
Definition _execute_map_task_body (self : Worker) (task : Task) : M unit :=
  input_file ← lift (py_index (input_files task) 0);
  contents ← open_read input_file;
  key_values ← lift (map_func (map_reduce_app self) input_file contents);
  let intermediate_files : list (list KeyValue) :=
    (λ _, []) <$> seqZ 0 (n_reduce task) in
  intermediate_files ←
    for_fold key_values intermediate_files (partition_step task);
  for_each (seqZ 0 (n_reduce task))
    (write_intermediate_file task intermediate_files).

(** [try: ...; return True  except Exception: return False] *)
Definition returns_true (m : M unit) : World → World * bool := λ w,
  match m w with
  | (w', Ok _) => (w', true)
  | (w', Raise _) => (w', false)
  end.

Definition _execute_map_task (self : Worker) (task : Task)
    : World → World * bool :=
  returns_true (_execute_map_task_body self task).

(** ** Reduce *)

Definition read_all_key_values (task : Task) : M (list KeyValue) :=
  for_fold (input_files task) [] (λ all_key_values input_file,
    b ← os_path_exists input_file;
    if b : bool then
      kv_list ← read_key_values_from_file input_file;
      mret (all_key_values ++ kv_list)
    else mret all_key_values).

(** The [try] block of [_execute_reduce_task]. *)
Definition _execute_reduce_task_body (self : Worker) (task : Task) : M unit :=
  all_key_values ← read_all_key_values task;
  match all_key_values with
  | [] => open_write (output_file task)
  | _ :: _ =>
      let sorted_kv := sort_key_values all_key_values in
      let grouped := group_by_key sorted_kv in
      let temp_output := output_file task +:+ ".tmp" in
      open_write temp_output;;
      for_each grouped (λ '(key, values),
        result ← lift (reduce_func (map_reduce_app self) key values);
        file_write temp_output (key +:+ " " +:+ result +:+ nl));;
      os_rename temp_output (output_file task)
  end.

Definition _execute_reduce_task (self : Worker) (task : Task)
    : World → World * bool :=
  returns_true (_execute_reduce_task_body self task).

(** ** The worker loop *)

Definition _execute_task (self : Worker) (task : Task) : World → World * bool :=
  match task_type task with
  | MAP => _execute_map_task self task
  | REDUCE => _execute_reduce_task self task
  | _ => λ w, (w, false)
  end.

(** [_report_completion]: the call placed, if the worker has a client.
    [error_message] is an optional argument whose default is the empty
    string. *)
Definition _report_completion (self : Worker) (task_id : Z) (success : bool)
    (error_message : option string) : option rpc_call :=
  match rpc_client self with
  | None => None
  | Some _ =>
      Some (complete_task (worker_id self) task_id success
              (default "" error_message))
  end.

Inductive loop_action :=
  | Break
  | SleepAndContinue
  | Reported (call : option rpc_call).

(** One turn of the [while True] loop of [run], from the decoded reply of
    [_request_task] on. *)
Definition run_turn (self : Worker) (reply : option Task)
    : World → World * loop_action := λ w,
  match reply with
  | None => (w, Break)
  | Some task =>
      match task_type task with
      | EXIT => (w, Break)
      | WAIT => (w, SleepAndContinue)
      | _ =>
          let '(w', success) := _execute_task self task w in
          (w', Reported (_report_completion self (task_id task) success None))
      end
  end.

End WithRuntime.

End Worker.

(* ===================================================================== *)
(** * Notions used in the statements *)
(* ===================================================================== *)

Module Order.
Import MapReduce.

(** The order of [str] keys. *)
Definition key_le (a b : string) : Prop := String.leb a b = true.
Definition key_lt (a b : string) : Prop := String.compare a b = Lt.
Definition kv_le (x y : KeyValue) : Prop := key_le (key x) (key y).

(** The longest prefix of [l] whose keys are [k], and what follows it. *)
Fixpoint run_of (k : string) (l : list KeyValue) : list KeyValue :=
  match l with
  | [] => []
  | kv :: l' => if String.eqb (key kv) k then kv :: run_of k l' else []
  end.

Fixpoint after_run (k : string) (l : list KeyValue) : list KeyValue :=
  match l with
  | [] => []
  | kv :: l' => if String.eqb (key kv) k then after_run k l' else l
  end.

(** The pairs of [kvs] with key [k], in the order of [kvs]. *)
Definition with_key (k : string) (kvs : list KeyValue) : list KeyValue :=
  filter (λ kv, key kv = k) kvs.

End Order.

Module Invariant.
Import MapReduce Coordinator.

(** A table entry is filed under its task's id and holds a task of the
    table's kind. *)
Definition entry_ok (ty : TaskType) (e : Z * TaskInfo) : Prop :=
  task_id (task e.2) = e.1 ∧ task_type (task e.2) = ty.

(** What [__init__] establishes and every operation keeps. *)
Record wf (c : Coordinator) : Prop := mk_wf {
  wf_map_entries : Forall (entry_ok MAP) (map_tasks c);
  wf_reduce_entries : Forall (entry_ok REDUCE) (reduce_tasks c);
  wf_map_keys : NoDup (map_tasks c).*1;
  wf_reduce_keys : NoDup (reduce_tasks c).*1;
  wf_flags : all_tasks_complete c = true → map_phase_complete c = true
}.

(** Construction: ids are handed out in increasing order, so every key is
    new when it is stored. *)
Definition building (c : Coordinator) : Prop :=
  wf c
  ∧ Forall (λ k : Z, (k < next_task_id c)%Z) (map_tasks c).*1
  ∧ Forall (λ k : Z, (k < next_task_id c)%Z) (reduce_tasks c).*1.

(** A [CompleteTask] call with [success=false]. *)
Definition failure_report (o : op) : bool :=
  match o with
  | CompleteTask _ _ success _ _ => negb success
  | _ => false
  end.

End Invariant.

Module FileProtocol.
Import MapReduce Worker.

(** The text [write_key_values_to_file] writes: one JSON object and a
    newline per pair. *)
Definition ndjson (rt : Runtime) (kvs : list KeyValue) : string :=
  foldr (λ kv rest, json_dumps rt (KeyValue_to_dict kv) +:+ nl +:+ rest) "" kvs.

(** Bucket [j] of [R]: the pairs whose key hashes to [j], in emission order. *)
Definition bucket (rt : Runtime) (R j : Z) (kvs : list KeyValue) : list KeyValue :=
  filter (λ kv, ihash (hash rt) (key kv) `mod` R = j) kvs.

Definition temp_name (path : string) : string := path +:+ ".tmp".

(** Writing one bucket file: the temporary file is opened for writing, then
    renamed onto the final name. *)
Definition bucket_events (m j : Z) : list event :=
  [OpenW (temp_name (intermediate_filename m j));
   Rename (temp_name (intermediate_filename m j)) (intermediate_filename m j)].

(** The sequence the specification names for a reduce task without input,
    for comparison with what [_execute_reduce_task] does: create the
    temporary file, rename it onto [out]. *)
Definition create_and_rename (out : string) : M unit :=
  open_write (temp_name out);; os_rename (temp_name out) out.

(** No character of [s] is a full stop. *)
Fixpoint dotless (s : string) : bool :=
  match s with
  | EmptyString => true
  | String c s' => negb (Ascii.eqb c ".") && dotless s'
  end.

(** ** Instances for the examples *)

Definition quoted (s : string) : string :=
  String (ascii_of_nat 34) (s +:+ String (ascii_of_nat 34) "").

(** A runtime to run the examples with.  Its JSON encoder is right for
    strings without characters to escape; its reader is right for empty
    files, the only ones an example reads back. *)
Definition example_rt : Runtime := {|
  hash := λ s, Z.of_nat (String.length s);
  json_dumps := λ d,
    "{" +:+ quoted "key" +:+ ": " +:+ quoted (default "" (d !! "key"))
    +:+ ", " +:+ quoted "value" +:+ ": " +:+ quoted (default "" (d !! "value"))
    +:+ "}";
  json_loads := λ line, Raise (ValueError (PyStr line));
  readlines := λ contents, if decide (contents = "") then [] else [contents];
  strip := id
|}.

(** A word count in the manner of [apps/word_count.py]. *)
Definition word_count : MapReduceApp := {|
  map_func := λ _ contents,
    Ok ((λ word, mkKeyValue word "1") <$> String.words contents);
  reduce_func := λ _ values, Ok (pretty (length values))
|}.

(** An application whose callbacks raise [Exception("boom")]. *)
Definition failing_app : MapReduceApp := {|
  map_func := λ _ _, Raise (AppError "boom");
  reduce_func := λ _ _, Raise (AppError "boom")
|}.

End FileProtocol.

Module Coverage.
Import MapReduce Coordinator.

(** The pairs a list of groups stands for: every value of a group, under
    the group's key. *)
Definition expand_groups (groups : list (string * list string)) : list KeyValue :=
  groups ≫= λ g, mkKeyValue g.1 <$> g.2.

(** No character of [s] is [c]. *)
Fixpoint lacks (c : ascii) (s : string) : bool :=
  match s with
  | EmptyString => true
  | String c' s' => negb (Ascii.eqb c' c) && lacks c s'
  end.

(** ** The coordinator's inventory *)

(** The tables [__init__] builds: one MAP task per input file, ids from 0;
    then one REDUCE task per partition, ids following on, reading the
    intermediate files of its partition from every map task. *)
Definition initial_map_tasks (files : list string) (n_reduce : Z)
    : list (Z * TaskInfo) :=
  (λ e, (e.1, new_TaskInfo (mkTask e.1 MAP [e.2] "" n_reduce e.1 (-1))))
    <$> enumerate files.

Definition initial_reduce_tasks (files : list string) (n_reduce : Z)
    : list (Z * TaskInfo) :=
  let M := Z.of_nat (length files) in
  (λ j, (M + j,
         new_TaskInfo
           (mkTask (M + j) REDUCE ((λ i, intermediate_filename i j) <$> seqZ 0 M)
              (output_filename j) n_reduce (-1) j)))
    <$> seqZ 0 n_reduce.

(** The ids and tasks of a table, without the bookkeeping. *)
Definition inventory (d : list (Z * TaskInfo)) : list (Z * Task) :=
  prod_map id task <$> d.

(** The table [_get_available_task] and the monitor look at. *)
Definition phase_table (c : Coordinator) : list (Z * TaskInfo) :=
  if map_phase_complete c then reduce_tasks c else map_tasks c.

(** A lease is recorded exactly while a task is in progress, as far as the
    code keeps it: an idle task has neither worker nor start time, a task in
    progress has both. *)
Definition lease_ok (ti : TaskInfo) : Prop :=
  match status ti with
  | IDLE => worker_id ti = None ∧ start_time ti = None
  | IN_PROGRESS => is_Some (worker_id ti) ∧ is_Some (start_time ti)
  | COMPLETED => True
  end.

Definition leases_ok (c : Coordinator) : Prop :=
  Forall (λ e, lease_ok e.2) (map_tasks c)
  ∧ Forall (λ e, lease_ok e.2) (reduce_tasks c).

(** Each phase flag that is set is backed by its table: every task there is
    COMPLETED. *)
Definition completed_flags (c : Coordinator) : Prop :=
  (map_phase_complete c = true → all_completed (od_values (map_tasks c)) = true)
  ∧ (all_tasks_complete c = true →
     all_completed (od_values (reduce_tasks c)) = true).

(** The workers that placed the [RequestTask] calls of a run. *)
Definition requesters (ops : list op) : list string :=
  omap (λ o, match o with RequestTask w _ => Some w | _ => None end) ops.

(** A [CompleteTask] call. *)
Definition is_report (o : op) : bool :=
  match o with
  | CompleteTask _ _ _ _ _ => true
  | _ => false
  end.

End Coverage.
Module WorkerCoverage.
Import MapReduce Worker FileProtocol.

(** What one line of an intermediate file decodes to:
    [KeyValue.from_dict(json.loads(line))]. *)
Definition decode_line (rt : Runtime) (line : string) : result KeyValue :=
  match json_loads rt line with
  | Ok data => KeyValue_from_dict data
  | Raise e => Raise e
  end.

(** The lines of a file after [strip], without the empty ones. *)
Definition nonblank_lines (rt : Runtime) (contents : string) : list string :=
  filter (λ line, line ≠ "") (strip rt <$> readlines rt contents).

(** The pairs [read_key_values_from_file] returns for a path. *)
Definition file_pairs (rt : Runtime) (w : World) (path : string) : list KeyValue :=
  match (read_key_values_from_file rt path w).2 with
  | Ok kvs => kvs
  | Raise _ => []
  end.

(** The buckets of a map task, in the order of their files. *)
Definition buckets (rt : Runtime) (R : Z) (kvs : list KeyValue)
    : list (list KeyValue) :=
  (λ j, bucket rt R j kvs) <$> seqZ 0 R.

(** The line of the output file for one group, [f"{key} {result}\n"]. *)
Definition reduce_line (app : MapReduceApp) (g : string * list string)
    : result string :=
  match reduce_func app g.1 g.2 with
  | Ok r => Ok (g.1 +:+ " " +:+ r +:+ nl)
  | Raise e => Raise e
  end.

Definition text (lines : list string) : string := foldr String.append "" lines.

(** What the loop over the groups has written when it ends, and how it
    ends: at the first group whose reduction raises, or after the last. *)
Fixpoint written_lines (app : MapReduceApp) (groups : list (string * list string))
    : string * result unit :=
  match groups with
  | [] => ("", Ok ())
  | g :: groups' =>
      match reduce_line app g with
      | Ok line =>
          let r := written_lines app groups' in (line +:+ r.1, r.2)
      | Raise e => ("", Raise e)
      end
  end.

(** ** The bodies of the loops, for the lemmas about them *)

(** The loop of [read_key_values_from_file]. *)
#[warning="-notation-for-abbreviation"]
Notation read_body rt := (λ (kv_list : list KeyValue) (line : string),
  if decide (strip rt line = "") then mret kv_list
  else
    data ← lift (json_loads rt (strip rt line));
    kv ← lift (KeyValue_from_dict data);
    mret (kv_list ++ [kv])).

(** The loop over the input files of [_execute_reduce_task]. *)
#[warning="-notation-for-abbreviation"]
Notation read_all_body rt :=
  (λ (all_key_values : list KeyValue) (input_file : string),
    b ← os_path_exists input_file;
    if b : bool then
      kv_list ← read_key_values_from_file rt input_file;
      mret (all_key_values ++ kv_list)
    else mret all_key_values).

(** The loop over the groups of [_execute_reduce_task]. *)
#[warning="-notation-for-abbreviation"]
Notation reduce_body self temp_output :=
  (λ '(key, values),
     result ← lift (reduce_func (map_reduce_app self) key values);
     file_write temp_output (key +:+ " " +:+ result +:+ nl)).

(** ** A runtime that reads back what it writes

    For the examples: files are split after each newline, [strip] drops
    white space at both ends, and the JSON reader understands the objects
    the encoder of [example_rt] produces for strings without quotes or
    escapes. *)

Fixpoint split_lines (cur s : string) : list string :=
  match s with
  | EmptyString => if decide (cur = "") then [] else [String.rev cur]
  | String c s' =>
      if Ascii.eqb c (ascii_of_nat 10)
      then String.rev (String c cur) :: split_lines "" s'
      else split_lines (String c cur) s'
  end.

Fixpoint drop_space (s : string) : string :=
  match s with
  | EmptyString => ""
  | String c s' => if Ascii.is_space c then drop_space s' else s
  end.

Definition strip_space (s : string) : string :=
  String.rev (drop_space (String.rev (drop_space s))).

Fixpoint split_on (c : ascii) (cur s : string) : list string :=
  match s with
  | EmptyString => [String.rev cur]
  | String c' s' =>
      if Ascii.eqb c' c then String.rev cur :: split_on c "" s'
      else split_on c (String c' cur) s'
  end.

Definition loads_object (line : string) : result (gmap string string) :=
  match split_on (ascii_of_nat 34) "" line with
  | [a; k1; b; k; c; k2; d; v; e] =>
      if decide ([a; k1; b; c; k2; d; e]
                 = ["{"; "key"; ": "; ", "; "value"; ": "; "}"])
      then Ok (<["key" := k]> (<["value" := v]> ∅))
      else Raise (ValueError (PyStr line))
  | _ => Raise (ValueError (PyStr line))
  end.

Definition line_rt : Runtime := {|
  hash := hash example_rt;
  json_dumps := json_dumps example_rt;
  json_loads := loads_object;
  readlines := split_lines "";
  strip := strip_space
|}.

End WorkerCoverage.

(* ===================================================================== *)
(** * Properties of mapreduce.py *)
(* ===================================================================== *)

Module MapReduceProofs.
Import MapReduce Order.

(** ** The order on keys *)

Lemma ascii_compare_refl (c : ascii) : Ascii.compare c c = Eq.
Proof. unfold Ascii.compare. apply N.compare_refl. Qed.

Lemma ascii_compare_lt_trans (a b c : ascii) :
  Ascii.compare a b = Lt → Ascii.compare b c = Lt → Ascii.compare a c = Lt.
Proof. unfold Ascii.compare. rewrite !N.compare_lt_iff. lia. Qed.

Lemma string_compare_refl (s : string) : String.compare s s = Eq.
Proof. induction s as [|c s IH]; simpl; [done|]. by rewrite ascii_compare_refl. Qed.

Lemma key_lt_trans (a b c : string) : key_lt a b → key_lt b c → key_lt a c.
Proof.
  unfold key_lt. revert b c.
  induction a as [|x a IH]; intros [|y b] [|z c]; simpl; try done.
  destruct (Ascii.compare x y) eqn:Hxy; try done;
    destruct (Ascii.compare y z) eqn:Hyz; try done.
  - apply Ascii.compare_eq_iff in Hxy, Hyz. subst.
    rewrite ascii_compare_refl. apply IH.
  - apply Ascii.compare_eq_iff in Hxy. subst. by rewrite Hyz.
  - apply Ascii.compare_eq_iff in Hyz. subst. by rewrite Hxy.
  - by rewrite (ascii_compare_lt_trans _ _ _ Hxy Hyz).
Qed.

Lemma key_le_cases (a b : string) : key_le a b ↔ key_lt a b ∨ a = b.
Proof.
  unfold key_le, key_lt, String.leb. split.
  - destruct (String.compare a b) eqn:H; try done; [|by left].
    right. by apply String.compare_eq_iff.
  - intros [->| ->]; [done|]. by rewrite string_compare_refl.
Qed.

Lemma key_le_refl (a : string) : key_le a a.
Proof. apply key_le_cases. by right. Qed.

Lemma key_lt_irrefl (a : string) : ¬ key_lt a a.
Proof. unfold key_lt. by rewrite string_compare_refl. Qed.

Lemma key_le_trans (a b c : string) : key_le a b → key_le b c → key_le a c.
Proof.
  rewrite !key_le_cases. intros [?| ->] [?| ->]; eauto using key_lt_trans.
Qed.

Lemma key_lt_le_trans (a b c : string) : key_lt a b → key_le b c → key_lt a c.
Proof. rewrite key_le_cases. intros ? [?| <-]; eauto using key_lt_trans. Qed.

Lemma not_key_le_lt (a b : string) : String.leb a b = false → key_lt b a.
Proof.
  unfold String.leb, key_lt. rewrite (String.compare_antisym b a).
  by destruct (String.compare a b).
Qed.

(** ** The stable sort *)

Lemma sorted_insert_perm (x : KeyValue) (l : list KeyValue) :
  sorted_insert x l ≡ₚ x :: l.
Proof.
  induction l as [|y l IH]; simpl; [done|].
  destruct (String.leb _ _); [done|]. rewrite IH. apply Permutation_swap.
Qed.

Lemma sort_key_values_perm (kvs : list KeyValue) : sort_key_values kvs ≡ₚ kvs.
Proof.
  induction kvs as [|x l IH]; simpl; [done|].
  by rewrite sorted_insert_perm, IH.
Qed.

Lemma sorted_insert_sorted (x : KeyValue) (l : list KeyValue) :
  StronglySorted kv_le l → StronglySorted kv_le (sorted_insert x l).
Proof.
  induction 1 as [|y l Hl IH Hy]; simpl.
  - repeat constructor.
  - destruct (String.leb (key x) (key y)) eqn:Hxy.
    + constructor; [by constructor|]. constructor; [done|].
      eapply Forall_impl; [exact Hy|]. intros z Hz.
      by apply (key_le_trans _ (key y)).
    + constructor; [done|]. rewrite sorted_insert_perm. constructor; [|done].
      apply key_le_cases. left. by apply not_key_le_lt.
Qed.

Lemma sort_key_values_sorted (kvs : list KeyValue) :
  StronglySorted kv_le (sort_key_values kvs).
Proof.
  induction kvs as [|x l IH]; simpl; [constructor|].
  by apply sorted_insert_sorted.
Qed.

Lemma with_key_sorted_insert (k : string) (x : KeyValue) (l : list KeyValue) :
  with_key k (sorted_insert x l) = with_key k (x :: l).
Proof.
  unfold with_key. induction l as [|y l IH]; simpl; [done|].
  destruct (String.leb (key x) (key y)) eqn:Hxy; [done|].
  rewrite filter_cons, IH, !filter_cons.
  destruct (decide (key y = k)) as [Hy|Hy]; [|done].
  destruct (decide (key x = k)) as [Hx|Hx]; [|done].
  exfalso. rewrite Hx, Hy in Hxy. 
  pose proof (key_le_refl k) as Hk. unfold key_le in Hk. congruence.
Qed.

Lemma sort_key_values_stable (k : string) (kvs : list KeyValue) :
  with_key k (sort_key_values kvs) = with_key k kvs.
Proof.
  induction kvs as [|x l IH]; simpl; [done|].
  rewrite with_key_sorted_insert. unfold with_key in *.
  by rewrite !filter_cons, IH.
Qed.

(** ** Grouping *)

Lemma run_after_run (k : string) (l : list KeyValue) :
  l = run_of k l ++ after_run k l.
Proof.
  induction l as [|kv l IH]; simpl; [done|].
  destruct (String.eqb _ _); simpl; [by f_equal|done].
Qed.

Lemma run_of_keys (k : string) (l : list KeyValue) :
  Forall (λ kv, key kv = k) (run_of k l).
Proof.
  induction l as [|kv l IH]; simpl; [constructor|].
  destruct (String.eqb_spec (key kv) k); by constructor.
Qed.

Lemma after_run_length (k : string) (l : list KeyValue) :
  (length (after_run k l) ≤ length l)%nat.
Proof.
  induction l as [|kv l IH]; simpl; [done|].
  destruct (String.eqb _ _); simpl; lia.
Qed.

Lemma after_run_head (k : string) (l : list KeyValue) :
  match after_run k l with
  | [] => True
  | kv :: _ => key kv ≠ k
  end.
Proof.
  induction l as [|kv l IH]; simpl; [done|].
  by destruct (String.eqb_spec (key kv) k).
Qed.

Lemma group_by_key_loop_groups rest groups ck cv :
  group_by_key_loop rest groups ck cv
  = groups ++ group_by_key_loop rest [] ck cv.
Proof.
  revert groups ck cv.
  induction rest as [|kv rest IH]; intros groups ck cv; simpl; [done|].
  destruct (String.eqb _ _); [apply IH|].
  rewrite (IH (groups ++ _)), (IH [_]). by rewrite <-app_assoc.
Qed.

(** The loop closes the current group with the run of its key and starts
    over on what follows. *)
Lemma group_by_key_loop_run rest ck cv :
  group_by_key_loop rest [] ck cv
  = (ck, cv ++ (value <$> run_of ck rest)) :: group_by_key (after_run ck rest).
Proof.
  revert cv. induction rest as [|kv rest IH]; intros cv; simpl.
  - by rewrite app_nil_r.
  - destruct (String.eqb _ _).
    + rewrite IH. simpl. by rewrite <-app_assoc.
    + rewrite group_by_key_loop_groups. simpl. by rewrite app_nil_r.
Qed.

Lemma group_by_key_cons kv rest :
  group_by_key (kv :: rest)
  = (key kv, value kv :: (value <$> run_of (key kv) rest))
      :: group_by_key (after_run (key kv) rest).
Proof. simpl. by rewrite group_by_key_loop_run. Qed.

Lemma with_key_app k l1 l2 : with_key k (l1 ++ l2) = with_key k l1 ++ with_key k l2.
Proof. apply filter_app. Qed.

Lemma with_key_all k l : Forall (λ kv, key kv = k) l → with_key k l = l.
Proof.
  unfold with_key. induction 1 as [|x l Hx Hl IH]; [done|].
  rewrite filter_cons, IH. by destruct (decide _).
Qed.

Lemma with_key_none k l : Forall (λ kv, key kv ≠ k) l → with_key k l = [].
Proof.
  unfold with_key. induction 1 as [|x l Hx Hl IH]; [done|].
  rewrite filter_cons, IH. by destruct (decide _).
Qed.

(** A list sorted by key is determined by its pairs of each key, in order:
    two stable sorts of the same list agree. *)
Lemma sorted_by_key_unique (l1 l2 : list KeyValue) :
  StronglySorted kv_le l1 → StronglySorted kv_le l2 →
  (∀ k, with_key k l1 = with_key k l2) → l1 = l2.
Proof.
  assert (∀ x l y, StronglySorted kv_le (y :: l) → key_lt (key x) (key y) →
            with_key (key x) (y :: l) = []) as Habove.
  { intros x l y [Hl Hy]%StronglySorted_inv Hlt.
    apply with_key_none. constructor.
    - intros Heq. rewrite Heq in Hlt. by apply key_lt_irrefl in Hlt.
    - eapply Forall_impl; [exact Hy|]. intros z Hz Heq. simpl in *.
      assert (key_lt (key x) (key z)) as Hxz by by eapply key_lt_le_trans.
      rewrite Heq in Hxz. by apply key_lt_irrefl in Hxz. }
  assert (∀ x l, with_key (key x) (x :: l) = x :: with_key (key x) l) as Hhead.
  { intros x l. unfold with_key. rewrite filter_cons. by rewrite decide_True. }
  intros Hs1. revert l2. induction Hs1 as [|x l1 Hl1 IH Hx]; intros l2 Hs2 Heq.
  - destruct l2 as [|y l2]; [done|]. specialize (Heq (key y)).
    by rewrite Hhead in Heq.
  - destruct l2 as [|y l2].
    { specialize (Heq (key x)). by rewrite Hhead in Heq. }
    assert (key x = key y) as Hk.
    { destruct (String.leb (key x) (key y)) eqn:Hle.
      - apply key_le_cases in Hle as [Hlt|Hxy]; [|done].
        specialize (Heq (key x)). rewrite Hhead, Habove in Heq; done.
      - apply not_key_le_lt in Hle. specialize (Heq (key y)).
        rewrite (Hhead y), Habove in Heq; [done|by constructor|done]. }
    pose proof (Heq (key x)) as Hx0. rewrite Hhead, Hk, Hhead in Hx0.
    injection Hx0 as -> Htail. f_equal.
    apply IH; [by apply StronglySorted_inv in Hs2 as [? _]|].
    intros k. destruct (decide (key y = k)) as [<-|Hne]; [done|].
    specialize (Heq k). unfold with_key in *.
    by rewrite !filter_cons, !decide_False in Heq.
Qed.

Lemma sort_key_values_unique (kvs sorted : list KeyValue) :
  StronglySorted kv_le sorted → (∀ k, with_key k sorted = with_key k kvs) →
  sorted = sort_key_values kvs.
Proof.
  intros Hs Hst. apply sorted_by_key_unique; [done|apply sort_key_values_sorted|].
  intros k. by rewrite sort_key_values_stable.
Qed.

(** In a sorted list, everything after the run of the head's key has a
    strictly larger key. *)
Lemma after_run_above kv rest :
  StronglySorted kv_le (kv :: rest) →
  Forall (λ x, key_lt (key kv) (key x)) (after_run (key kv) rest).
Proof.
  intros Hs. apply StronglySorted_inv in Hs as [Hrest Hle].
  pose proof (after_run_head (key kv) rest) as Hhd.
  assert (Forall (kv_le kv) (after_run (key kv) rest)) as Hle'.
  { rewrite (run_after_run (key kv) rest) in Hle.
    by apply Forall_app in Hle as [_ ?]. }
  assert (StronglySorted kv_le (after_run (key kv) rest)) as Hs'.
  { rewrite (run_after_run (key kv) rest) in Hrest.
    clear -Hrest. induction (run_of (key kv) rest) as [|x l IH]; [done|].
    apply IH. simpl in Hrest. by apply StronglySorted_inv in Hrest as [? _]. }
  destruct (after_run (key kv) rest) as [|y l]; [constructor|].
  apply Forall_cons in Hle' as [Hy _].
  assert (key_lt (key kv) (key y)) as Hlt.
  { apply key_le_cases in Hy as [?|Heq]; [done|]. by destruct Hhd. }
  constructor; [done|].
  apply StronglySorted_inv in Hs' as [_ Hl].
  eapply Forall_impl; [exact Hl|]. intros z Hz.
  by apply (key_lt_le_trans _ (key y)).
Qed.

Lemma after_run_sorted k rest :
  StronglySorted kv_le rest → StronglySorted kv_le (after_run k rest).
Proof.
  intros Hrest. rewrite (run_after_run k rest) in Hrest.
  induction (run_of k rest) as [|x l IH]; [done|].
  apply IH. simpl in Hrest. by apply StronglySorted_inv in Hrest as [? _].
Qed.

(** What [group_by_key] makes of a sorted list. *)
Lemma group_by_key_sorted (l : list KeyValue) :
  StronglySorted kv_le l →
  StronglySorted key_lt (group_by_key l).*1
  ∧ (∀ k, k ∈ (group_by_key l).*1 ↔ k ∈ key <$> l)
  ∧ (∀ k vs, (k, vs) ∈ group_by_key l → vs = value <$> with_key k l).
Proof.
  remember (length l) as n eqn:Hn. revert l Hn.
  induction (lt_wf n) as [n _ IH]; intros l -> Hs.
  destruct l as [|kv rest].
  { simpl. split; [constructor|]. split; [done|]. intros k vs H. inversion H. }
  rewrite group_by_key_cons.
  pose proof (after_run_above kv rest Hs) as Habove.
  pose proof (StronglySorted_inv Hs) as [Hrest _].
  destruct (IH (length (after_run (key kv) rest))) with (l := after_run (key kv) rest)
    as (IH1 & IH2 & IH3).
  { simpl. pose proof (after_run_length (key kv) rest). lia. }
  { done. }
  { by apply after_run_sorted. }
  assert (with_key (key kv) (kv :: rest) = kv :: run_of (key kv) rest) as Hhead.
  { rewrite (run_after_run (key kv) rest) at 1.
    change (kv :: ?a ++ ?b) with ((kv :: a) ++ b).
    rewrite with_key_app, with_key_all, with_key_none, app_nil_r; [done|..].
    - eapply Forall_impl; [exact Habove|]. intros x Hx Heq. simpl in Hx.
      rewrite Heq in Hx. by apply key_lt_irrefl in Hx.
    - constructor; [done|apply run_of_keys]. }
  assert (∀ k, k ∈ (group_by_key (after_run (key kv) rest)).*1 →
            key_lt (key kv) k) as Hkeys.
  { intros k Hk. apply IH2 in Hk. apply list_elem_of_fmap in Hk as (x & -> & Hx).
    by eapply Forall_forall in Habove. }
  split; [|split].
  - simpl. constructor; [done|]. apply Forall_forall. intros k Hk. by apply Hkeys.
  - intros k. rewrite !fmap_cons, !elem_of_cons, IH2. simpl.
    rewrite (run_after_run (key kv) rest) at 2.
    rewrite fmap_app, elem_of_app.
    split; [tauto|]. intros [?|[Hk|?]]; [tauto| |tauto].
    left. apply list_elem_of_fmap in Hk as (x & -> & Hx).
    by eapply Forall_forall in Hx; [|apply run_of_keys].
  - intros k vs Hin. apply elem_of_cons in Hin as [[= -> ->]|Hin].
    + by rewrite Hhead.
    + rewrite (IH3 _ _ Hin). f_equal.
      assert (key_lt (key kv) k) as Hlt.
      { apply Hkeys. apply list_elem_of_fmap. by exists (k, vs). }
      rewrite (run_after_run (key kv) rest) at 2.
      change (kv :: ?a ++ ?b) with ((kv :: a) ++ b).
      rewrite with_key_app, (with_key_none k (kv :: _)); [done|].
      assert (key kv ≠ k) as Hne.
      { intros Heq. rewrite Heq in Hlt. by apply key_lt_irrefl in Hlt. }
      constructor; [done|].
      eapply Forall_impl; [apply run_of_keys|]. intros x Hx. simpl in Hx. congruence.
Qed.

Lemma key_lt_sorted_NoDup (ks : list string) :
  StronglySorted key_lt ks → NoDup ks.
Proof.
  induction 1 as [|k ks Hs IH Hk]; constructor; [|done].
  intros Hin. eapply Forall_forall in Hk; [|exact Hin].
  by apply key_lt_irrefl in Hk.
Qed.

(** C9. For every list [kvs] of key/value pairs,
    [group_by_key (sort_key_values kvs)] has exactly one group per distinct
    key of [kvs] (the group keys are duplicate-free and are the keys of
    [kvs]); the values of the group of [k] are the values of the pairs of
    [kvs] with key [k], in their order in [kvs], so their number is the
    multiplicity of [k]; the group keys are strictly ascending; and the sort
    is a stable sort: a permutation of [kvs], ascending by key, which keeps
    the relative order of pairs with equal keys. *)
Theorem group_by_key_sort_key_values (kvs : list KeyValue) :
  let sorted_kv := sort_key_values kvs in
  let groups := group_by_key sorted_kv in
  (sorted_kv ≡ₚ kvs
   ∧ StronglySorted kv_le sorted_kv
   ∧ ∀ k, with_key k sorted_kv = with_key k kvs)
  ∧ NoDup groups.*1
  ∧ (∀ k, k ∈ groups.*1 ↔ k ∈ key <$> kvs)
  ∧ (∀ k vs, (k, vs) ∈ groups →
       vs = value <$> with_key k kvs ∧ length vs = length (with_key k kvs))
  ∧ StronglySorted key_lt groups.*1.
Proof.
  intros sorted_kv groups.
  pose proof (sort_key_values_sorted kvs) as Hs.
  destruct (group_by_key_sorted _ Hs) as (H1 & H2 & H3).
  split; [|split; [|split; [|split]]].
  - split; [apply sort_key_values_perm|]. split; [done|].
    intros k. apply sort_key_values_stable.
  - by apply key_lt_sorted_NoDup.
  - intros k. unfold groups, sorted_kv. rewrite H2.
    by rewrite (sort_key_values_perm kvs).
  - intros k vs Hin. apply H3 in Hin. rewrite sort_key_values_stable in Hin.
    split; [done|]. by rewrite Hin, length_fmap.
  - done.
Qed.

(** ** The wire encoding of tasks *)

Lemma TaskType_value_roundtrip (ty : TaskType) :
  TaskType_of_value (PyStr (TaskType_value ty)) = Ok ty.
Proof. by destruct ty. Qed.

(** C10. For every task [t], of any kind and with any field values,
    [Task.from_dict(t.to_dict())] returns [t]. *)
Theorem Task_from_dict_to_dict (t : Task) :
  Task_from_dict (Task_to_dict t) = Some (Ok t).
Proof.
  destruct t as [i ty fs o n m r].
  unfold Task_from_dict, Task_to_dict, dict_getitem, dict_get; simpl.
  repeat (rewrite ?lookup_insert_eq; rewrite ?lookup_insert_ne by done).
  simpl. by destruct ty.
Qed.

(** ** The partitioning hash *)

(** C3, as the code has it.  For every key, [ihash key] is the interpreter's
    built-in hash of the key reduced modulo [2^31 - 1]: an integer from 0 to
    [2^31 - 2], and the same in two processes whenever their built-in hashes
    agree on the key. *)
Theorem ihash_builtin_hash_mod (hash : string → Z) (k : string) :
  ihash hash k = hash k `mod` (2 ^ 31 - 1)
  ∧ 0 ≤ ihash hash k < 2 ^ 31 - 1
  ∧ ∀ hash' : string → Z, hash' k = hash k → ihash hash' k = ihash hash k.
Proof.
  unfold ihash. split; [done|]. split; [apply Z.mod_pos_bound; lia|].
  by intros hash' ->.
Qed.

Lemma ihash_builtin_hash_mod_witness :
  ihash fnv1a_64 "a" = 12638187200555641996 `mod` (2 ^ 31 - 1)
  ∧ 0 ≤ ihash fnv1a_64 "a" < 2 ^ 31 - 1
  ∧ ihash (λ k, fnv1a_64 (k +:+ "")) "a" = ihash fnv1a_64 "a".
Proof.
  destruct (ihash_builtin_hash_mod fnv1a_64 "a") as (H1 & H2 & H3).
  split; [exact H1|]. split; [exact H2|].
  apply (H3 (λ k, fnv1a_64 (k +:+ ""))). reflexivity.
Defined.

(** C3 as stated fails.  The low 31 bits of the FNV-1a hash of ["bhdaxez"]
    are all ones, a value no remainder modulo [2^31 - 1] takes: whatever the
    built-in hash is, [ihash] is not the low 31 bits of FNV-1a. *)
Lemma ihash_is_not_fnv1a :
  ihash_fnv1a "bhdaxez" = 2 ^ 31 - 1
  ∧ ¬ ∃ hash : string → Z, ∀ k, ihash hash k = ihash_fnv1a k.
Proof.
  assert (ihash_fnv1a "bhdaxez" = 2 ^ 31 - 1) as Hv by (by vm_compute).
  split; [done|]. intros [hash H]. specialize (H "bhdaxez").
  pose proof (Z.mod_pos_bound (hash "bhdaxez") (2 ^ 31 - 1)) as Hb.
  unfold ihash in H. lia.
Qed.

End MapReduceProofs.

(* ===================================================================== *)
(** * Properties of coordinator.py *)
(* ===================================================================== *)

Module CoordinatorProofs.
Import MapReduce Coordinator Invariant.

(** ** Ordered dictionaries *)

Section OrderedDictFacts.
Context {V : Type}.
Implicit Types (d : list (Z * V)) (k : Z) (v : V) (f : V → V).

Lemma od_alter_keys f k d : (od_alter f k d).*1 = d.*1.
Proof.
  induction d as [|[k' v] d IH]; csimpl; [done|].
  destruct (decide (k' = k)); csimpl; by rewrite ?IH.
Qed.

Lemma od_lookup_alter f k k' d :
  od_lookup k' (od_alter f k d)
  = if decide (k = k') then f <$> od_lookup k' d else od_lookup k' d.
Proof.
  induction d as [|[k0 v] d IH]; simpl; [by case_decide|].
  repeat (case_decide; simplify_eq/=); try done; by rewrite IH, ?decide_True, ?decide_False.
Qed.

Lemma od_lookup_elem_of k v d : od_lookup k d = Some v → (k, v) ∈ d.
Proof.
  induction d as [|[k0 v0] d IH]; simpl; [done|].
  destruct (decide (k0 = k)) as [->|?].
  - intros [= ->]. apply elem_of_cons. by left.
  - intros H. apply elem_of_cons. right. by apply IH.
Qed.

Lemma od_lookup_NoDup k v d : NoDup d.*1 → (k, v) ∈ d → od_lookup k d = Some v.
Proof.
  induction d as [|[k0 v0] d IH]; simpl; [by intros _ ?%not_elem_of_nil|].
  rewrite NoDup_cons. intros [Hk0 Hd] [[= -> ->]|Hin]%elem_of_cons.
  - by destruct (decide _).
  - destruct (decide (k0 = k)) as [->|?]; [|by apply IH].
    destruct Hk0. apply list_elem_of_fmap. by exists (k, v).
Qed.

Lemma od_lookup_fresh k d : k ∉ d.*1 → od_lookup k d = None.
Proof.
  intros Hk. destruct (od_lookup k d) as [v|] eqn:H; [|done].
  destruct Hk. apply od_lookup_elem_of in H.
  apply list_elem_of_fmap. by exists (k, v).
Qed.

Lemma od_alter_Forall (P : Z * V → Prop) f k d :
  (∀ k v, P (k, v) → P (k, f v)) → Forall P d → Forall P (od_alter f k d).
Proof.
  intros Hf. induction 1 as [|[k0 v0] d H0 Hd IH]; simpl; [constructor|].
  destruct (decide (k0 = k)); constructor; auto.
Qed.

Lemma od_lookup_fmap (g : V → V) k d :
  od_lookup k (prod_map id g <$> d) = g <$> od_lookup k d.
Proof.
  induction d as [|[k0 v0] d IH]; simpl; [done|].
  by destruct (decide (k0 = k)).
Qed.

Lemma od_fmap_keys (g : V → V) d : (prod_map id g <$> d).*1 = d.*1.
Proof. induction d as [|[k0 v0] d IH]; csimpl; by rewrite ?IH. Qed.

End OrderedDictFacts.

(** ** Lookup of a task after an update *)

Lemma find_task_update_task f tid tid' c :
  find_task tid (update_task f tid' c)
  = if decide (tid' = tid) then f <$> find_task tid c else find_task tid c.
Proof.
  unfold find_task, update_task.
  destruct (od_lookup tid' (map_tasks c)) as [ti'|] eqn:Hm'; simpl.
  - rewrite od_lookup_alter.
    destruct (decide (tid' = tid)) as [->|?]; [|done]. by rewrite Hm'.
  - rewrite od_lookup_alter.
    destruct (decide (tid' = tid)) as [->|?]; [|done]. by rewrite Hm'.
Qed.

Lemma check_phase_completion_tables c :
  map_tasks (_check_phase_completion c) = map_tasks c
  ∧ reduce_tasks (_check_phase_completion c) = reduce_tasks c.
Proof.
  unfold _check_phase_completion.
  repeat (destruct (negb _) || destruct (all_completed _)
          || destruct (map_phase_complete _); simpl); done.
Qed.

Lemma find_task_check_phase_completion tid c :
  find_task tid (_check_phase_completion c) = find_task tid c.
Proof.
  unfold find_task. by destruct (check_phase_completion_tables c) as [-> ->].
Qed.

(** C1, as the code has it.  A [CompleteTask] call with [success=true] on a
    known task id marks the task COMPLETED and sets its completion time to
    the time of the call, whatever the task's status and whoever holds its
    lease; the recorded worker, start time and task are kept, every other
    task is untouched, and the reply is [acknowledged=true]. *)
Theorem complete_task_success (worker : string) (tid : Z) (msg : string)
    (now : Q) (c : Coordinator) (ti : TaskInfo) :
  find_task tid c = Some ti →
  let c' := (_handle_task_completion worker tid true msg now c).1 in
  (_handle_task_completion worker tid true msg now c).2 = ack true
  ∧ find_task tid c'
    = Some (mkTaskInfo (task ti) COMPLETED (worker_id ti) (start_time ti) (Some now))
  ∧ ∀ tid', tid' ≠ tid → find_task tid' c' = find_task tid' c.
Proof.
  intros Hti. unfold _handle_task_completion. rewrite Hti. simpl.
  split; [done|]. split.
  - rewrite find_task_check_phase_completion, find_task_update_task.
    rewrite decide_True by done. by rewrite Hti.
  - intros tid' Hne.
    rewrite find_task_check_phase_completion, find_task_update_task.
    by rewrite decide_False by done.
Qed.

(** ** The invariant *)

Lemma entry_ok_preserved ty (f : TaskInfo → TaskInfo) :
  (∀ ti, task (f ti) = task ti) →
  ∀ k ti, entry_ok ty (k, ti) → entry_ok ty (k, f ti).
Proof. intros Hf k ti. unfold entry_ok. simpl. by rewrite Hf. Qed.

Lemma task_assign w now ti : task (assign w now ti) = task ti.
Proof. done. Qed.
Lemma task_mark_completed now ti : task (mark_completed now ti) = task ti.
Proof. done. Qed.
Lemma task_reset ti : task (reset ti) = task ti.
Proof. done. Qed.
Lemma task_expire now ti : task (expire now ti) = task ti.
Proof. unfold expire. by destruct (timed_out now ti). Qed.

Lemma wf_alter_map f k c :
  (∀ ti, task (f ti) = task ti) →
  wf c → wf (set_map_tasks (od_alter f k (map_tasks c)) c).
Proof.
  intros Hf [H1 H2 H3 H4 H5]. split; simpl; try done.
  - apply od_alter_Forall; [|done]. by apply entry_ok_preserved.
  - by rewrite od_alter_keys.
Qed.

Lemma wf_alter_reduce f k c :
  (∀ ti, task (f ti) = task ti) →
  wf c → wf (set_reduce_tasks (od_alter f k (reduce_tasks c)) c).
Proof.
  intros Hf [H1 H2 H3 H4 H5]. split; simpl; try done.
  - apply od_alter_Forall; [|done]. by apply entry_ok_preserved.
  - by rewrite od_alter_keys.
Qed.

Lemma wf_update_task f tid c :
  (∀ ti, task (f ti) = task ti) → wf c → wf (update_task f tid c).
Proof.
  intros Hf Hc. unfold update_task.
  destruct (od_lookup tid (map_tasks c));
    [by apply wf_alter_map|by apply wf_alter_reduce].
Qed.

Lemma wf_set_active_workers s c : wf c → wf (set_active_workers s c).
Proof. by intros []. Qed.

Lemma wf_check_phase_completion c : wf c → wf (_check_phase_completion c).
Proof.
  intros [H1 H2 H3 H4 H5]. unfold _check_phase_completion.
  destruct (map_phase_complete c) eqn:Hm; simpl.
  - rewrite Hm. destruct (all_completed (od_values (reduce_tasks c)));
      split; simpl; auto.
  - destruct (all_completed (od_values (map_tasks c))); simpl.
    + destruct (all_completed (od_values (reduce_tasks c)));
        split; simpl; auto.
    + rewrite Hm. split; simpl; auto. intros H. apply H5 in H. congruence.
Qed.

Lemma Forall_fmap_entries ty (g : TaskInfo → TaskInfo) d :
  (∀ ti, task (g ti) = task ti) →
  Forall (entry_ok ty) d → Forall (entry_ok ty) (prod_map id g <$> d).
Proof.
  intros Hg Hd. apply Forall_fmap. eapply Forall_impl; [exact Hd|].
  intros [k ti] H. by apply (entry_ok_preserved ty g Hg).
Qed.

Lemma wf_monitor_pass now c : wf c → wf (_monitor_tasks_pass now c).1.
Proof.
  intros Hc. pose proof Hc as [H1 H2 H3 H4 H5]. unfold _monitor_tasks_pass.
  destruct (all_tasks_complete c) eqn:Ha; [done|].
  destruct (map_phase_complete c) eqn:Hm; simpl;
    (split; simpl; rewrite ?od_fmap_keys, ?Ha, ?Hm;
     auto using Forall_fmap_entries, task_expire).
Qed.

Lemma wf_handle_task_request w now c : wf c → wf (_handle_task_request w now c).1.
Proof.
  intros Hc%(wf_set_active_workers ({[w]} ∪ active_workers c)).
  unfold _handle_task_request.
  revert Hc. generalize (set_active_workers ({[w]} ∪ active_workers c) c).
  intros c1 Hc1.
  destruct (_get_available_task c1) as [t|].
  - destruct (decide (task_type t = MAP)).
    + destruct (od_lookup _ (map_tasks c1)); simpl; [|done].
      by apply wf_alter_map.
    + destruct (od_lookup _ (reduce_tasks c1)); simpl; [|done].
      by apply wf_alter_reduce.
  - by destruct (all_tasks_complete c1).
Qed.

Lemma wf_handle_task_completion w tid ok msg now c :
  wf c → wf (_handle_task_completion w tid ok msg now c).1.
Proof.
  intros Hc. unfold _handle_task_completion.
  destruct (find_task tid c); [|done]. destruct ok; simpl.
  - by apply wf_check_phase_completion, wf_update_task.
  - by apply wf_update_task.
Qed.

Lemma wf_step c o : wf c → wf (step c o).
Proof.
  destruct o; simpl;
    auto using wf_handle_task_request, wf_handle_task_completion, wf_monitor_pass.
Qed.

Lemma wf_run c ops : wf c → wf (run c ops).
Proof.
  revert c. induction ops as [|o ops IH]; intros c Hc; [done|].
  simpl. by apply IH, wf_step.
Qed.

Lemma od_setitem_fresh {V} (n k : Z) (v : V) (d : list (Z * V)) :
  Forall (λ k' : Z, (k' < n)%Z) d.*1 → n ≤ k → od_setitem k v d = d ++ [(k, v)].
Proof.
  intros Hd Hn. unfold od_setitem. rewrite od_lookup_fresh; [done|].
  intros Hk. eapply Forall_forall in Hd; [|exact Hk]. simpl in Hd. lia.
Qed.

Lemma NoDup_snoc_fresh (n : Z) (ks : list Z) :
  Forall (λ k' : Z, (k' < n)%Z) ks → NoDup ks → NoDup (ks ++ [n]).
Proof.
  intros Hks Hnd. apply NoDup_app. split; [done|].
  split; [|apply NoDup_singleton].
  intros k Hk ->%list_elem_of_singleton.
  eapply Forall_forall in Hks; [|exact Hk]. simpl in Hks. lia.
Qed.

Lemma Forall_lt_succ (n : Z) (ks : list Z) :
  Forall (λ k' : Z, (k' < n)%Z) ks → Forall (λ k' : Z, (k' < n + 1)%Z) ks.
Proof. intros H. eapply Forall_impl; [exact H|]. intros; simpl in *; lia. Qed.

Lemma building_create_map_tasks c :
  building c → building (_create_map_tasks c).
Proof.
  unfold _create_map_tasks.
  generalize (enumerate (files c)). intros l. revert c.
  induction l as [|[i filename] l IH]; intros c Hc; [done|].
  simpl. apply IH. clear IH.
  destruct Hc as ([H1 H2 H3 H4 H5] & Hm & Hr).
  rewrite (od_setitem_fresh (next_task_id c)) by (done || lia).
  split; [split|split]; simpl; try done.
  - apply Forall_app. split; [done|]. by repeat constructor.
  - rewrite fmap_app. by apply NoDup_snoc_fresh.
  - rewrite fmap_app. apply Forall_app. split; [by apply Forall_lt_succ|].
    repeat constructor. simpl. lia.
  - by apply Forall_lt_succ.
Qed.

Lemma building_create_reduce_tasks c :
  building c → building (_create_reduce_tasks c).
Proof.
  unfold _create_reduce_tasks.
  generalize (seqZ 0 (n_reduce c)). intros l. revert c.
  induction l as [|i l IH]; intros c Hc; [done|].
  simpl. apply IH. clear IH.
  destruct Hc as ([H1 H2 H3 H4 H5] & Hm & Hr).
  rewrite (od_setitem_fresh (next_task_id c)) by (done || lia).
  split; [split|split]; simpl; try done.
  - apply Forall_app. split; [done|]. by repeat constructor.
  - rewrite fmap_app. by apply NoDup_snoc_fresh.
  - by apply Forall_lt_succ.
  - rewrite fmap_app. apply Forall_app. split; [by apply Forall_lt_succ|].
    repeat constructor. simpl. lia.
Qed.

Lemma wf_init files n : wf (init files n).
Proof.
  unfold init.
  apply building_create_reduce_tasks, building_create_map_tasks.
  split; [split|split]; simpl; try done; constructor.
Qed.

Lemma wf_reachable c : reachable c → wf c.
Proof. intros (files & n & ops & ->). apply wf_run, wf_init. Qed.

(** ** Assignment *)

Lemma first_idle_Some (d : list (Z * TaskInfo)) (t : Task) :
  first_idle (od_values d) = Some t →
  ∃ k ti, (k, ti) ∈ d ∧ task ti = t ∧ status ti = IDLE.
Proof.
  unfold od_values. induction d as [|[k ti] d IH]; csimpl; [done|].
  destruct (decide (status ti = IDLE)) as [Hs|Hs].
  - intros [= <-]. exists k, ti. split; [|done]. apply elem_of_cons. by left.
  - intros (k' & ti' & Hin & ?)%IH. exists k', ti'. split; [|done].
    apply elem_of_cons. by right.
Qed.

(** The task [_get_available_task] picks is stored, idle, under its own id in
    the table of the current phase. *)
Lemma get_available_task_Some c t :
  wf c → _get_available_task c = Some t →
  ∃ ti, task ti = t ∧ status ti = IDLE ∧
    if map_phase_complete c
    then task_type t = REDUCE ∧ od_lookup (task_id t) (reduce_tasks c) = Some ti
    else task_type t = MAP ∧ od_lookup (task_id t) (map_tasks c) = Some ti.
Proof.
  intros [H1 H2 H3 H4 _]. unfold _get_available_task.
  destruct (map_phase_complete c); simpl;
    intros (k & ti & Hin & <- & Hs)%first_idle_Some; exists ti;
    (split; [done|]; split; [done|]).
  - eapply Forall_forall in H2 as [Hid Hty]; [|exact Hin]. simpl in *.
    split; [done|]. rewrite Hid. by apply od_lookup_NoDup.
  - eapply Forall_forall in H1 as [Hid Hty]; [|exact Hin]. simpl in *.
    split; [done|]. rewrite Hid. by apply od_lookup_NoDup.
Qed.

Lemma handle_task_request_keeps w now c tid ti :
  wf c → find_task tid c = Some ti → status ti ≠ IDLE →
  find_task tid (_handle_task_request w now c).1 = Some ti.
Proof.
  intros Hc%(wf_set_active_workers ({[w]} ∪ active_workers c)).
  change (find_task tid c)
    with (find_task tid (set_active_workers ({[w]} ∪ active_workers c) c)).
  unfold _handle_task_request.
  revert Hc. generalize (set_active_workers ({[w]} ∪ active_workers c) c).
  intros c1 Hc1 Hti Hs.
  destruct (_get_available_task c1) as [t|] eqn:Ht;
    [|by destruct (all_tasks_complete c1)].
  destruct (get_available_task_Some _ _ Hc1 Ht) as (ti0 & Htask & Hidle & Hphase).
  destruct (map_phase_complete c1).
  - destruct Hphase as [Hty Hlk]. rewrite decide_False by congruence.
    rewrite Hlk. simpl. unfold find_task in *. simpl.
    destruct (od_lookup tid (map_tasks c1)); [done|].
    rewrite od_lookup_alter. case_decide; [|done]. congruence.
  - destruct Hphase as [Hty Hlk]. rewrite decide_True by done.
    rewrite Hlk. simpl. unfold find_task in *. simpl.
    rewrite od_lookup_alter. case_decide as Heq; [|done].
    rewrite Heq in Hlk. rewrite Hlk in Hti. congruence.
Qed.

(** C4, as the code has it.  In every state the coordinator can reach in
    which [map_phase_complete] is false, [RequestTask] replies with a task
    of kind MAP or with the WAIT signal, never with a REDUCE task (nor with
    EXIT or an error). *)
Theorem request_task_in_map_phase (c : Coordinator) (w : string) (now : Q) :
  reachable c → map_phase_complete c = false →
  ∃ t, (_handle_task_request w now c).2 = Ok (Task_to_dict t)
       ∧ (task_type t = MAP ∨ task_type t = WAIT).
Proof.
  intros Hc%wf_reachable Hm.
  apply (wf_set_active_workers ({[w]} ∪ active_workers c)) in Hc.
  change (map_phase_complete c)
    with (map_phase_complete (set_active_workers ({[w]} ∪ active_workers c) c))
    in Hm.
  unfold _handle_task_request.
  revert Hc Hm. generalize (set_active_workers ({[w]} ∪ active_workers c) c).
  intros c1 Hc1 Hm.
  destruct (_get_available_task c1) as [t|] eqn:Ht.
  - destruct (get_available_task_Some _ _ Hc1 Ht) as (ti0 & _ & _ & Hphase).
    rewrite Hm in Hphase. destruct Hphase as [Hty Hlk].
    rewrite decide_True by done. rewrite Hlk. simpl. exists t. auto.
  - destruct (all_tasks_complete c1) eqn:Ha.
    + apply (wf_flags _ Hc1) in Ha. congruence.
    + simpl. exists (control_task WAIT c1). auto.
Qed.

(** ** COMPLETED is kept by everything but a failure report *)

Lemma status_expire_completed now ti :
  status ti ≠ IN_PROGRESS → expire now ti = ti.
Proof.
  intros Hs. unfold expire, timed_out.
  by rewrite bool_decide_eq_false_2.
Qed.

Lemma monitor_pass_keeps now c tid ti :
  find_task tid c = Some ti → status ti ≠ IN_PROGRESS →
  find_task tid (_monitor_tasks_pass now c).1 = Some ti.
Proof.
  intros Hti Hs. unfold _monitor_tasks_pass.
  destruct (all_tasks_complete c); [done|].
  unfold find_task in *.
  destruct (map_phase_complete c); simpl; rewrite od_lookup_fmap.
  - destruct (od_lookup tid (map_tasks c)); [done|].
    rewrite Hti. simpl. by rewrite status_expire_completed.
  - destruct (od_lookup tid (map_tasks c)) as [ti'|]; simpl.
    + simplify_eq. by rewrite status_expire_completed.
    + done.
Qed.

Lemma step_keeps_completed c o tid ti :
  wf c → failure_report o = false →
  find_task tid c = Some ti → status ti = COMPLETED →
  ∃ ti', find_task tid (step c o) = Some ti' ∧ status ti' = COMPLETED.
Proof.
  intros Hc Ho Hti Hs. destruct o as [w now|w tid' ok msg now|now]; simpl.
  - exists ti. split; [|done]. apply handle_task_request_keeps; [done..|].
    by rewrite Hs.
  - simpl in Ho. destruct ok; [|done]. unfold _handle_task_completion.
    destruct (find_task tid' c) eqn:Hti'; simpl; [|by exists ti].
    rewrite find_task_check_phase_completion, find_task_update_task.
    case_decide; simplify_eq; rewrite Hti; simpl; eauto.
  - exists ti. split; [|done]. apply monitor_pass_keeps; [done|].
    by rewrite Hs.
Qed.

Lemma run_keeps_completed c ops tid ti :
  wf c → Forall (λ o, failure_report o = false) ops →
  find_task tid c = Some ti → status ti = COMPLETED →
  ∃ ti', find_task tid (run c ops) = Some ti' ∧ status ti' = COMPLETED.
Proof.
  intros Hc Hops. revert c ti Hc.
  induction Hops as [|o ops Ho Hops IH]; intros c ti Hc Hti Hs; [by exists ti|].
  simpl. destruct (step_keeps_completed c o tid ti) as (ti' & Hti' & Hs'); [done..|].
  by apply (IH _ ti'); [apply wf_step|..].
Qed.

(** C2, as the code has it.  From any state the coordinator can reach, a
    task whose status is COMPLETED is still COMPLETED after any sequence of
    [RequestTask] calls, [CompleteTask] calls with [success=true] and
    monitor passes.  The one operation that takes it out of COMPLETED is a
    [CompleteTask] call with [success=false] for it, which resets it to
    IDLE and clears its worker and start time. *)
Theorem completed_stays_completed (c : Coordinator) (tid : Z) (ti : TaskInfo) :
  reachable c → find_task tid c = Some ti → status ti = COMPLETED →
  (∀ ops, Forall (λ o, failure_report o = false) ops →
     ∃ ti', find_task tid (run c ops) = Some ti' ∧ status ti' = COMPLETED)
  ∧ (∀ w msg now,
       find_task tid (step c (CompleteTask w tid false msg now))
       = Some (mkTaskInfo (task ti) IDLE None None (completion_time ti))).
Proof.
  intros Hc%wf_reachable Hti Hs. split.
  - intros ops Hops. by eapply run_keeps_completed.
  - intros w msg now. simpl. unfold _handle_task_completion. rewrite Hti. simpl.
    rewrite find_task_update_task, decide_True by done. by rewrite Hti.
Qed.

(** ** The phase flags only go up *)

Lemma check_phase_completion_flags c :
  (map_phase_complete c = true → map_phase_complete (_check_phase_completion c) = true)
  ∧ (all_tasks_complete c = true → all_tasks_complete (_check_phase_completion c) = true).
Proof.
  unfold _check_phase_completion.
  destruct (map_phase_complete c) eqn:Hm; simpl; rewrite ?Hm;
    repeat (destruct (all_completed _); simpl; rewrite ?Hm); auto.
Qed.

Lemma handle_task_request_flags w now c :
  map_phase_complete (_handle_task_request w now c).1 = map_phase_complete c
  ∧ all_tasks_complete (_handle_task_request w now c).1 = all_tasks_complete c.
Proof. unfold _handle_task_request. by repeat case_match. Qed.

Lemma update_task_flags f tid c :
  map_phase_complete (update_task f tid c) = map_phase_complete c
  ∧ all_tasks_complete (update_task f tid c) = all_tasks_complete c.
Proof. unfold update_task. by case_match. Qed.

Lemma monitor_pass_flags now c :
  map_phase_complete (_monitor_tasks_pass now c).1 = map_phase_complete c
  ∧ all_tasks_complete (_monitor_tasks_pass now c).1 = all_tasks_complete c.
Proof. unfold _monitor_tasks_pass. by repeat case_match. Qed.

Lemma step_flags c o :
  (map_phase_complete c = true → map_phase_complete (step c o) = true)
  ∧ (all_tasks_complete c = true → all_tasks_complete (step c o) = true).
Proof.
  destruct o as [w now|w tid ok msg now|now]; simpl.
  - by destruct (handle_task_request_flags w now c) as [-> ->].
  - unfold _handle_task_completion. destruct (find_task tid c); [|auto].
    destruct ok; simpl.
    + pose proof (check_phase_completion_flags
                    (update_task (mark_completed now) tid c)) as [H1 H2].
      destruct (update_task_flags (mark_completed now) tid c) as [E1 E2].
      rewrite E1 in H1. rewrite E2 in H2. auto.
    + by destruct (update_task_flags reset tid c) as [-> ->].
  - by destruct (monitor_pass_flags now c) as [-> ->].
Qed.

(** C5.  Along every sequence of coordinator operations, from any state,
    [map_phase_complete] stays true once it is true, and so does
    [all_tasks_complete], hence [done()]. *)
Theorem phase_flags_monotone (c : Coordinator) (ops : list op) :
  (map_phase_complete c = true → map_phase_complete (run c ops) = true)
  ∧ (all_tasks_complete c = true → all_tasks_complete (run c ops) = true)
  ∧ (done c = true → done (run c ops) = true).
Proof.
  assert ((map_phase_complete c = true → map_phase_complete (run c ops) = true)
  ∧ (all_tasks_complete c = true → all_tasks_complete (run c ops) = true)) as [??].
  { revert c. induction ops as [|o ops IH]; intros c; [done|].
    simpl. destruct (IH (step c o)) as [IH1 IH2].
    destruct (step_flags c o) as [H1 H2]. auto. }
  by unfold done.
Qed.

End CoordinatorProofs.

(** ** The theorems at work, and where the stated claims fail *)

Module CoordinatorExamples.
Import MapReduce Coordinator Invariant CoordinatorProofs.

Lemma complete_task_success_witness :
  let c := run (init ["a.txt"] 1) [RequestTask "w1" 0%Q] in
  let ti := mkTaskInfo (mkTask 0 MAP ["a.txt"] "" 1 0 (-1)) IN_PROGRESS
              (Some "w1") (Some 0%Q) None in
  find_task 0 c = Some ti
  ∧ find_task 0 (_handle_task_completion "w1" 0 true "" 1%Q c).1
    = Some (mkTaskInfo (task ti) COMPLETED (Some "w1") (Some 0%Q) (Some 1%Q)).
Proof.
  intros c ti. split; [reflexivity|].
  apply (complete_task_success "w1" 0 "" 1%Q c ti). reflexivity.
Defined.

(** C1 as stated fails.  Worker w1 is given map task 0 and stalls; the
    monitor revokes the lease and w2 is given the task.  The late success
    report of w1 marks the task COMPLETED although the lease is held by w2,
    and a further success report, on the now COMPLETED task, changes its
    completion time: neither call leaves the [TaskInfo] as it was. *)
Lemma late_success_report_completes_task :
  let t := mkTask 0 MAP ["a.txt"] "" 1 0 (-1) in
  let c := run (init ["a.txt"] 1)
             [RequestTask "w1" 0%Q; MonitorPass 11%Q; RequestTask "w2" 12%Q] in
  let c' := step c (CompleteTask "w1" 0 true "" 13%Q) in
  let c'' := step c' (CompleteTask "w2" 0 true "" 14%Q) in
  (find_task 0 c = Some (mkTaskInfo t IN_PROGRESS (Some "w2") (Some 12%Q) None)
   ∧ find_task 0 c' = Some (mkTaskInfo t COMPLETED (Some "w2") (Some 12%Q) (Some 13%Q))
   ∧ find_task 0 c'' = Some (mkTaskInfo t COMPLETED (Some "w2") (Some 12%Q) (Some 14%Q)))
  ∧ find_task 0 c' ≠ find_task 0 c
  ∧ find_task 0 c'' ≠ find_task 0 c'.
Proof. repeat split; (reflexivity || discriminate). Qed.

Lemma completed_stays_completed_witness :
  let c := run (init ["a.txt"] 1)
             [RequestTask "w1" 0%Q; CompleteTask "w1" 0 true "" 1%Q] in
  let ops := [RequestTask "w2" 2%Q; CompleteTask "w1" 0 true "" 3%Q;
              MonitorPass 20%Q] in
  (reachable c
   ∧ status <$> find_task 0 c = Some COMPLETED
   ∧ Forall (λ o, failure_report o = false) ops)
  ∧ ∃ ti', find_task 0 (run c ops) = Some ti' ∧ status ti' = COMPLETED.
Proof.
  intros c ops.
  assert (reachable c) as Hc.
  { exists ["a.txt"], 1,
      [RequestTask "w1" 0%Q; CompleteTask "w1" 0 true "" 1%Q]. reflexivity. }
  assert (Forall (λ o, failure_report o = false) ops) as Hops.
  { repeat constructor. }
  split; [repeat split; [exact Hc|exact Hops]|].
  apply (completed_stays_completed c 0
           (mkTaskInfo (mkTask 0 MAP ["a.txt"] "" 1 0 (-1)) COMPLETED
              (Some "w1") (Some 0%Q) (Some 1%Q)) Hc); [reflexivity..|exact Hops].
Defined.

(** C2 as stated fails.  Task 0 is completed by w2 after the lease of the
    stalled w1 was revoked; the failure report of w1 then arrives and resets
    the COMPLETED task to IDLE. *)
Lemma failure_report_resets_completed_task :
  let c := run (init ["a.txt"] 1)
             [RequestTask "w1" 0%Q; MonitorPass 11%Q; RequestTask "w2" 12%Q;
              CompleteTask "w2" 0 true "" 13%Q] in
  status <$> find_task 0 c = Some COMPLETED
  ∧ status <$> find_task 0 (step c (CompleteTask "w1" 0 false "" 14%Q))
    = Some IDLE.
Proof. split; reflexivity. Qed.

Lemma request_task_in_map_phase_witness :
  let c := run (init ["a.txt"; "b.txt"] 2)
             [RequestTask "w1" 0%Q; CompleteTask "w1" 0 true "" 1%Q] in
  (reachable c ∧ map_phase_complete c = false)
  ∧ ∃ t, (_handle_task_request "w2" 2%Q c).2 = Ok (Task_to_dict t)
         ∧ (task_type t = MAP ∨ task_type t = WAIT).
Proof.
  intros c.
  assert (reachable c) as Hc.
  { exists ["a.txt"; "b.txt"], 2,
      [RequestTask "w1" 0%Q; CompleteTask "w1" 0 true "" 1%Q]. reflexivity. }
  split; [split; [exact Hc|reflexivity]|].
  apply (request_task_in_map_phase c "w2" 2%Q Hc). reflexivity.
Defined.

(** C4 as stated fails.  After the failure report of the stalled w1 has
    reset the completed map task 0, a map task is IDLE, the map phase is
    over for the coordinator, and [RequestTask] hands out reduce task 1. *)
Lemma reduce_task_assigned_while_map_task_idle :
  let c := run (init ["a.txt"] 1)
             [RequestTask "w1" 0%Q; MonitorPass 11%Q; RequestTask "w2" 12%Q;
              CompleteTask "w2" 0 true "" 13%Q;
              CompleteTask "w1" 0 false "" 14%Q] in
  (od_lookup 0 (map_tasks c)
   = Some (mkTaskInfo (mkTask 0 MAP ["a.txt"] "" 1 0 (-1)) IDLE None None
             (Some 13%Q))
   ∧ map_phase_complete c = true)
  ∧ (_handle_task_request "w3" 15%Q c).2
    = Ok (Task_to_dict (mkTask 1 REDUCE ["mr-0-0"] "mr-out-0" 1 (-1) 0)).
Proof. repeat split; reflexivity. Qed.

Lemma phase_flags_monotone_witness :
  let c := run (init ["a.txt"] 1)
             [RequestTask "w1" 0%Q; CompleteTask "w1" 0 true "" 1%Q;
              RequestTask "w1" 2%Q; CompleteTask "w1" 1 true "" 3%Q] in
  let ops := [CompleteTask "w1" 0 false "" 4%Q; MonitorPass 5%Q;
              RequestTask "w2" 6%Q; CompleteTask "w1" 1 false "" 7%Q] in
  (map_phase_complete c = true ∧ all_tasks_complete c = true ∧ done c = true)
  ∧ (map_phase_complete (run c ops) = true
     ∧ all_tasks_complete (run c ops) = true
     ∧ done (run c ops) = true).
Proof.
  intros c ops. split; [repeat split; reflexivity|].
  destruct (phase_flags_monotone c ops) as (H1 & H2 & H3).
  split; [apply H1|split; [apply H2|apply H3]]; reflexivity.
Defined.

End CoordinatorExamples.

(* ===================================================================== *)
(** * Properties of worker.py *)
(* ===================================================================== *)

Module WorkerProofs.
Import MapReduce Worker FileProtocol.

(** ** Reasoning in the monad *)

Lemma bind_Ok {A B} (m : M A) (f : A → M B) w w' b :
  (m ≫= f) w = (w', Ok b) → ∃ w1 a, m w = (w1, Ok a) ∧ f a w1 = (w', Ok b).
Proof.
  unfold mbind, M_bind. destruct (m w) as [w1 [a|e]]; [eauto|done].
Qed.

Lemma bind_run {A B} (m : M A) (f : A → M B) w w1 a :
  m w = (w1, Ok a) → (m ≫= f) w = f a w1.
Proof. unfold mbind, M_bind. by intros ->. Qed.

Lemma bind_raise {A B} (m : M A) (f : A → M B) w w1 e :
  m w = (w1, Raise e) → (m ≫= f) w = (w1, Raise e).
Proof. unfold mbind, M_bind. by intros ->. Qed.

Lemma lift_Ok {A} (r : result A) w w' a :
  lift r w = (w', Ok a) → w' = w ∧ r = Ok a.
Proof. unfold lift. by intros [= -> ->]. Qed.

(** ** Strings *)

Lemma string_app_nil_r (s : string) : s +:+ "" = s.
Proof.
  induction s as [|c s IH]; [done|].
  change (String c (s +:+ "") = String c s). by f_equal.
Qed.

Lemma string_app_assoc (s1 s2 s3 : string) :
  (s1 +:+ s2) +:+ s3 = s1 +:+ (s2 +:+ s3).
Proof.
  induction s1 as [|c s1 IH]; [done|].
  change (String c ((s1 +:+ s2) +:+ s3) = String c (s1 +:+ (s2 +:+ s3))).
  by f_equal.
Qed.

(** ** File names *)

Lemma dotless_app s1 s2 : dotless (s1 +:+ s2) = dotless s1 && dotless s2.
Proof.
  induction s1 as [|c s1 IH]; simpl; [done|]. rewrite IH. by rewrite andb_assoc.
Qed.

Lemma dotless_pretty_N_go (x : N) (s : string) :
  dotless (pretty_N_go x s) = dotless s.
Proof.
  revert s. induction (N.lt_wf_0 x) as [x _ IH]; intros s.
  destruct (decide (x = 0)%N) as [->|Hx]; [done|].
  rewrite pretty_N_go_step by lia.
  rewrite IH by (apply N.div_lt; lia). simpl.
  unfold pretty_N_char. by repeat case_match.
Qed.

Lemma dotless_pretty_Z (z : Z) : dotless (pretty z) = true.
Proof.
  assert (∀ p : positive, dotless (pretty p) = true) as Hp.
  { intros p. unfold pretty, pretty_positive, pretty, pretty_N.
    case_decide; [done|]. by rewrite dotless_pretty_N_go. }
  destruct z as [|p|p]; [done|apply Hp|].
  unfold pretty, pretty_Z. rewrite dotless_app. by rewrite Hp.
Qed.

Lemma dotless_intermediate_filename m j :
  dotless (intermediate_filename m j) = true.
Proof.
  unfold intermediate_filename.
  by rewrite !dotless_app, !dotless_pretty_Z.
Qed.

Lemma intermediate_filename_not_temp m j j' :
  intermediate_filename m j ≠ temp_name (intermediate_filename m j').
Proof.
  intros H. apply (f_equal dotless) in H. unfold temp_name in H.
  rewrite dotless_app, !dotless_intermediate_filename in H. done.
Qed.

Lemma intermediate_filename_inj m j j' :
  intermediate_filename m j = intermediate_filename m j' → j = j'.
Proof.
  unfold intermediate_filename. intros H.
  do 3 apply String.app_inj in H. by apply pretty_Z_inj in H.
Qed.

(** ** Writing a file of pairs *)

Lemma alter_twice (f g : string → string) (path : string) (m : gmap string string) :
  alter f path (alter g path m) = alter (f ∘ g) path m.
Proof.
  apply map_eq. intros k. rewrite !lookup_alter.
  repeat case_decide; simplify_eq; try done. by destruct (m !! _).
Qed.

Section WithRuntime.
Context (rt : Runtime).

Lemma write_lines_run path kvs w :
  for_each kvs (λ kv,
    file_write path (json_dumps rt (KeyValue_to_dict kv));;
    file_write path nl) w
  = (mkWorld (alter (λ old, old +:+ ndjson rt kvs) path (fs w)) (denied w) (log w),
     Ok ()).
Proof.
  revert w. induction kvs as [|kv kvs IH]; intros [f d l]; simpl.
  - unfold mret, M_ret. do 2 f_equal. symmetry. apply alter_id.
    intros x _. apply string_app_nil_r.
  - unfold mbind, M_bind, file_write at 1 2. simpl. rewrite IH. simpl.
    do 2 f_equal. rewrite !alter_twice. apply alter_ext. intros x _. simpl.
    by rewrite !string_app_assoc.
Qed.

Lemma write_key_values_to_file_run path kvs w :
  path ∉ denied w →
  write_key_values_to_file rt path kvs w
  = (mkWorld (<[path := ndjson rt kvs]> (fs w)) (denied w) (log w ++ [OpenW path]),
     Ok ()).
Proof.
  intros Hp. unfold write_key_values_to_file.
  erewrite bind_run; [|unfold open_write; by rewrite decide_False].
  rewrite write_lines_run. simpl. by rewrite alter_insert_eq.
Qed.

Lemma write_key_values_to_file_denied path kvs w :
  path ∈ denied w →
  write_key_values_to_file rt path kvs w = (w, Raise (PermissionError path)).
Proof.
  intros Hp. unfold write_key_values_to_file.
  erewrite bind_raise; [done|]. unfold open_write. by rewrite decide_True.
Qed.

(** ** Partitioning *)

Lemma bucket_cons R j kv kvs :
  bucket rt R j (kv :: kvs)
  = if decide (ihash (hash rt) (key kv) `mod` R = j)
    then kv :: bucket rt R j kvs else bucket rt R j kvs.
Proof. unfold bucket. by rewrite filter_cons. Qed.

Lemma partition_run (task : Task) (kvs : list KeyValue)
    (b0 b : list (list KeyValue)) w w' :
  let R := n_reduce task in
  for_fold kvs b0 (partition_step rt task) w = (w', Ok b) →
  length b0 = Z.to_nat R →
  w' = w ∧ length b = Z.to_nat R
  ∧ ∀ j, 0 ≤ j < R →
      b !! Z.to_nat j = (λ x, x ++ bucket rt R j kvs) <$> b0 !! Z.to_nat j.
Proof.
  intros R. revert b0 w. induction kvs as [|kv kvs IH]; intros b0 w; simpl.
  - intros [= <- <-] Hlen. split; [done|]. split; [done|]. intros j Hj.
    destruct (b0 !! Z.to_nat j); simpl; [|done]. by rewrite app_nil_r.
  - intros (w1 & b1 & H1 & H2)%bind_Ok Hlen.
    apply bind_Ok in H1 as (w2 & rid & [-> Hmod]%lift_Ok & [-> Happ]%lift_Ok).
    fold R in Hmod. unfold py_mod in Hmod.
    case_decide as HR; [done|]. injection Hmod as <-.
    unfold py_append_at in Happ. rewrite Hlen in Happ.
    set (h := ihash (hash rt) (key kv) `mod` R) in *.
    assert (0 < R) as HRpos.
    { destruct (decide (0 < R)); [done|]. exfalso.
      replace (Z.to_nat R) with 0%nat in Happ by lia. simpl in Happ.
      repeat case_decide; (done || lia). }
    assert (0 ≤ h < R) as Hh by (apply Z.mod_pos_bound; lia).
    rewrite (decide_False (P := h < 0)) in Happ by lia.
    rewrite Z2Nat.id in Happ by lia.
    rewrite decide_True in Happ by lia. injection Happ as <-.
    apply IH in H2 as (-> & Hlen' & Hb); [|by rewrite length_alter].
    split; [done|]. split; [done|]. intros j Hj. rewrite (Hb j Hj).
    rewrite bucket_cons. fold h. rewrite list_lookup_alter.
    destruct (decide (h = j)) as [->|Hne].
    + rewrite decide_True by done.
      destruct (b0 !! Z.to_nat j); simpl; [|done]. by rewrite <-app_assoc.
    + rewrite decide_False by lia. done.
Qed.

(** ** Writing the bucket files *)

Lemma py_index_lookup {A} (xs : list A) (j : Z) (x : A) :
  0 ≤ j → xs !! Z.to_nat j = Some x → py_index xs j = Ok x.
Proof.
  intros Hj Hx. unfold py_index. cbv zeta.
  rewrite (decide_False (P := j < 0)) by lia.
  apply lookup_lt_Some in Hx as Hlt.
  rewrite decide_True by lia. by rewrite Hx.
Qed.

Lemma py_index_head {A} (xs : list A) (x : A) :
  py_index xs 0 = Ok x → head xs = Some x.
Proof.
  unfold py_index. cbv zeta. rewrite (decide_False (P := 0 < 0)) by lia.
  case_decide; [|done]. destruct xs; simpl; [done|]. by intros [= ->].
Qed.

Lemma write_intermediate_file_run task buckets j b w :
  0 ≤ j → buckets !! Z.to_nat j = Some b →
  let name := intermediate_filename (map_task_id task) j in
  write_intermediate_file rt task buckets j w
  = if decide (temp_name name ∈ denied w)
    then (w, Raise (PermissionError (temp_name name)))
    else (mkWorld (<[name := ndjson rt b]> (delete (temp_name name) (fs w)))
            (denied w) (log w ++ bucket_events (map_task_id task) j), Ok ()).
Proof.
  intros Hj Hb name. unfold write_intermediate_file.
  erewrite bind_run; [|unfold lift; by rewrite (py_index_lookup _ _ _ Hj Hb)].
  fold name. change (name +:+ ".tmp") with (temp_name name).
  case_decide as Hd.
  - erewrite bind_raise; [done|]. by apply write_key_values_to_file_denied.
  - erewrite bind_run; [|by apply write_key_values_to_file_run].
    unfold os_rename. simpl. rewrite lookup_insert_eq, delete_insert_eq.
    unfold bucket_events. fold name. by rewrite <-app_assoc.
Qed.

Lemma write_intermediate_files_run task buckets js w w' :
  let m := map_task_id task in
  for_each js (write_intermediate_file rt task buckets) w = (w', Ok ()) →
  Forall (λ j, 0 ≤ j ∧ is_Some (buckets !! Z.to_nat j)) js → NoDup js →
  log w' = log w ++ (js ≫= bucket_events m)
  ∧ denied w' = denied w
  ∧ (∀ j b, j ∈ js → buckets !! Z.to_nat j = Some b →
       fs w' !! intermediate_filename m j = Some (ndjson rt b))
  ∧ (∀ j, j ∈ js → fs w' !! temp_name (intermediate_filename m j) = None)
  ∧ (∀ p, (∀ j, j ∈ js → p ≠ intermediate_filename m j) →
       fs w !! p = None → fs w' !! p = None)
  ∧ (∀ p, (∀ j, j ∈ js → p ≠ intermediate_filename m j
                          ∧ p ≠ temp_name (intermediate_filename m j)) →
       fs w' !! p = fs w !! p).
Proof.
  intros m. revert w. induction js as [|j js IH]; intros w; simpl.
  - intros [= <-] _ _. rewrite app_nil_r. repeat split; try done.
    + intros j b Hj. by apply not_elem_of_nil in Hj.
    + intros j Hj. by apply not_elem_of_nil in Hj.
  - intros (w1 & [] & Hstep & Hrest)%bind_Ok
      [[Hj [b Hb]] Hjs]%Forall_cons [Hnotin Hnd]%NoDup_cons.
    rewrite (write_intermediate_file_run _ _ _ b) in Hstep by done.
    case_decide as Hd; [done|]. injection Hstep as <-.
    destruct (IH _ Hrest Hjs Hnd) as (Hlog & Hden & Hfiles & Htemp & Hnone & Hframe).
    clear IH Hrest. simpl in *. fold m in Hlog, Hfiles, Htemp, Hnone, Hframe.
    split; [by rewrite Hlog, <-app_assoc|]. split; [done|].
    split; [|split; [|split]].
    + intros j' b' [->|Hin]%elem_of_cons Hb'; [|by eapply Hfiles].
      rewrite Hframe; [rewrite lookup_insert_eq; congruence|].
      intros j'' Hin. split.
      * intros ->%intermediate_filename_inj. done.
      * apply intermediate_filename_not_temp.
    + intros j' [->|Hin]%elem_of_cons; [|by apply Htemp].
      apply Hnone.
      * intros j' _ Heq. symmetry in Heq.
        by apply intermediate_filename_not_temp in Heq.
      * rewrite lookup_insert_ne by apply intermediate_filename_not_temp.
        apply lookup_delete_eq.
    + intros p Hp Hw. apply Hnone.
      * intros j' Hin. apply Hp, elem_of_cons. by right.
      * assert (j ∈ j :: js) as Hjin by (apply elem_of_cons; by left).
        rewrite lookup_insert_ne; [|intros <-; by apply (Hp j Hjin)].
        destruct (decide (temp_name (intermediate_filename m j) = p)) as [<-|?].
        -- apply lookup_delete_eq.
        -- by rewrite lookup_delete_ne.
    + intros p Hp. rewrite Hframe.
      * destruct (Hp j) as [Hp1 Hp2]; [apply elem_of_cons; by left|].
        by rewrite lookup_insert_ne, lookup_delete_ne.
      * intros j' Hin. apply Hp, elem_of_cons. by right.
Qed.

(** C6.  Whenever [_execute_map_task] returns True for a task with map index
    [m] and partition count [R], the worker has read the task's input file,
    the application's map function has returned pairs for it, and, for
    [j = 0, ..., R-1] in turn, the worker has opened [mr-m-j.tmp] for
    writing and then renamed it to [mr-m-j] (nothing else was opened for
    writing or renamed).  Afterwards every [mr-m-j] holds bucket [j], the
    pairs whose key hashes to [j] modulo [R], one JSON object and a newline
    each, so a zero-byte file when the bucket is empty; no [mr-m-j.tmp] is
    left, and every other file is as before. *)
Theorem execute_map_task_writes_every_bucket (self : Worker) (task : Task)
    (w w' : World) :
  _execute_map_task rt self task w = (w', true) →
  let m := map_task_id task in
  let R := n_reduce task in
  ∃ input_file contents key_values,
    head (input_files task) = Some input_file
    ∧ fs w !! input_file = Some contents
    ∧ map_func (map_reduce_app self) input_file contents = Ok key_values
    ∧ log w' = log w ++ (seqZ 0 R ≫= bucket_events m)
    ∧ (∀ j, 0 ≤ j < R →
         fs w' !! intermediate_filename m j
           = Some (ndjson rt (bucket rt R j key_values))
         ∧ (bucket rt R j key_values = [] →
              fs w' !! intermediate_filename m j = Some "")
         ∧ fs w' !! temp_name (intermediate_filename m j) = None)
    ∧ (∀ p, (∀ j, 0 ≤ j < R →
                p ≠ intermediate_filename m j
                ∧ p ≠ temp_name (intermediate_filename m j)) →
         fs w' !! p = fs w !! p).
Proof.
  intros Hrun m R. unfold _execute_map_task, returns_true in Hrun.
  destruct (_execute_map_task_body rt self task w) as [w0 [[]|e]] eqn:Hbody;
    [|done]. injection Hrun as ->.
  unfold _execute_map_task_body in Hbody.
  apply bind_Ok in Hbody as (w1 & input_file & [-> Hin]%lift_Ok & Hbody).
  apply bind_Ok in Hbody as (w1 & contents & Hread & Hbody).
  apply bind_Ok in Hbody as (w2 & key_values & [-> Hmap]%lift_Ok & Hbody).
  apply bind_Ok in Hbody as (w2 & buckets & Hpart & Hwrite).
  unfold open_read in Hread.
  destruct (fs w !! input_file) as [contents'|] eqn:Hfile; [|done].
  injection Hread as <- ->.
  apply partition_run in Hpart as (-> & Hlen & Hbuckets);
    [|by rewrite length_fmap, length_seqZ].
  fold R in Hlen, Hbuckets, Hwrite.
  assert (∀ j, 0 ≤ j < R →
            buckets !! Z.to_nat j = Some (bucket rt R j key_values)) as Hb.
  { intros j Hj. rewrite (Hbuckets j Hj), list_lookup_fmap.
    rewrite lookup_seqZ_lt by lia. done. }
  apply write_intermediate_files_run in Hwrite
    as (Hlog & Hden & Hfiles & Htemp & Hnone & Hframe).
  2:{ apply Forall_forall. intros j Hj%elem_of_seqZ.
      split; [lia|]. rewrite Hb by lia. eauto. }
  2:{ apply NoDup_seqZ. }
  fold m in Hlog, Hfiles, Htemp, Hnone, Hframe.
  exists input_file, contents, key_values.
  split.
  { by apply py_index_head. }
  split; [done|]. split; [done|]. split; [done|]. split.
  - intros j Hj.
    assert (j ∈ seqZ 0 R) as Hjin by (apply elem_of_seqZ; lia).
    assert (fs w' !! intermediate_filename m j
            = Some (ndjson rt (bucket rt R j key_values))) as Hfile_j.
    { eapply Hfiles; [done|]. by apply Hb. }
    split; [done|]. split.
    + intros Hempty. by rewrite Hfile_j, Hempty.
    + by apply Htemp.
  - intros p Hp. apply Hframe. intros j Hj%elem_of_seqZ. apply Hp. lia.
Qed.

(** ** Reading never fails and changes nothing *)

Lemma for_fold_pure {A B} (xs : list A) (acc : B) (body : B → A → M B) w :
  (∀ acc x w, (body acc x w).1 = w) → (for_fold xs acc body w).1 = w.
Proof.
  intros Hbody. revert acc. induction xs as [|x xs IH]; intros acc; simpl; [done|].
  unfold mbind, M_bind. specialize (Hbody acc x w).
  destruct (body acc x w) as [w1 [acc'|e]]; simpl in *; subst; [apply IH|done].
Qed.

Lemma read_key_values_from_file_run filename w :
  ∃ kvs, read_key_values_from_file rt filename w = (w, Ok kvs).
Proof.
  unfold read_key_values_from_file, try_except, open_read, mbind, M_bind.
  destruct (fs w !! filename) as [contents|]; [|by eexists].
  match goal with |- context [for_fold ?xs ?acc ?body w] =>
    pose proof (for_fold_pure xs acc body w) as Hpure;
    destruct (for_fold xs acc body w) as [w1 [kvs|e]] end;
    simpl in Hpure; rewrite Hpure; try by eexists.
  all: intros acc x w2; destruct (decide (strip rt x = "")); [done|];
    unfold lift; by repeat case_match.
Qed.

Lemma read_all_key_values_run task w :
  ∃ kvs, read_all_key_values rt task w = (w, Ok kvs).
Proof.
  unfold read_all_key_values. generalize (@nil KeyValue).
  induction (input_files task) as [|f fs' IH]; intros acc; simpl; [by eexists|].
  unfold mbind, M_bind, os_path_exists at 1.
  destruct (bool_decide _); [|apply IH].
  destruct (read_key_values_from_file_run f w) as [kvs ->]. apply IH.
Qed.

(** C7, as the code has it.  When the pairs read from the existing input
    files are none and the output path can be opened for writing, the reduce
    task succeeds by opening the output path itself for writing and nothing
    else: no temporary file is created and nothing is renamed.  The output
    file it leaves is empty, which is also what creating [output.tmp] and
    renaming it onto the output path would leave there. *)
Theorem reduce_empty_input_creates_output (self : Worker) (task : Task)
    (w : World) :
  (read_all_key_values rt task w).2 = Ok [] →
  output_file task ∉ denied w →
  _execute_reduce_task rt self task w
  = (mkWorld (<[output_file task := ""]> (fs w)) (denied w)
       (log w ++ [OpenW (output_file task)]), true)
  ∧ (temp_name (output_file task) ∉ denied w →
     fs (create_and_rename (output_file task) w).1 !! output_file task = Some "").
Proof.
  intros Hread Hout. split.
  - unfold _execute_reduce_task, returns_true, _execute_reduce_task_body.
    destruct (read_all_key_values_run task w) as [kvs Hrun].
    rewrite Hrun in Hread. simpl in Hread. injection Hread as ->.
    erewrite bind_run; [|exact Hrun].
    unfold open_write. by rewrite decide_False.
  - intros Htmp. unfold create_and_rename.
    erewrite bind_run; [|unfold open_write; by rewrite decide_False].
    unfold os_rename. simpl. rewrite lookup_insert_eq. simpl.
    by rewrite lookup_insert_eq.
Qed.

(** ** Reporting *)

(** C8, as the code has it.  When the execution of a MAP or REDUCE task
    raises (an exception of the application's callback or of file I/O that
    reaches the task's [try] block), the worker reports the task with
    [success=false] and with the empty string as [error_message], whatever
    the exception was. *)
Theorem failed_attempt_reports_empty_message (self : Worker) (task : Task)
    (w w' : World) (e : exn) :
  is_Some (rpc_client self) →
  (task_type task = MAP
     ∧ _execute_map_task_body rt self task w = (w', Raise e))
  ∨ (task_type task = REDUCE
     ∧ _execute_reduce_task_body rt self task w = (w', Raise e)) →
  run_turn rt self (Some task) w
  = (w', Reported (Some (complete_task (worker_id self) (task_id task) false ""))).
Proof.
  intros [client Hclient] [[Hty Hbody]|[Hty Hbody]];
    unfold run_turn, _execute_task, _report_completion; rewrite Hty, Hclient.
  - unfold _execute_map_task, returns_true. by rewrite Hbody.
  - unfold _execute_reduce_task, returns_true. by rewrite Hbody.
Qed.

End WithRuntime.

End WorkerProofs.

(** ** The theorems at work, and where the stated claims fail *)

Module WorkerExamples.
Import MapReduce Worker FileProtocol WorkerProofs.

Lemma execute_map_task_writes_every_bucket_witness :
  let self := mkWorker "worker-1" word_count (Some ("localhost", 5000)) in
  let task := mkTask 0 MAP ["in.txt"] "" 2 0 (-1) in
  let w := mkWorld {["in.txt" := "to be or not to be"]} ∅ [] in
  let w' := (_execute_map_task example_rt self task w).1 in
  _execute_map_task example_rt self task w = (w', true)
  ∧ log w' = [OpenW "mr-0-0.tmp"; Rename "mr-0-0.tmp" "mr-0-0";
              OpenW "mr-0-1.tmp"; Rename "mr-0-1.tmp" "mr-0-1"]
  ∧ fs w' !! "mr-0-1"
    = Some (ndjson example_rt (bucket example_rt 2 1
              [mkKeyValue "to" "1"; mkKeyValue "be" "1"; mkKeyValue "or" "1";
               mkKeyValue "not" "1"; mkKeyValue "to" "1"; mkKeyValue "be" "1"])).
Proof.
  intros self task w w'.
  assert (_execute_map_task example_rt self task w = (w', true)) as Hrun
    by (vm_compute; reflexivity).
  split; [exact Hrun|].
  destruct (execute_map_task_writes_every_bucket example_rt self task w w' Hrun)
    as (input_file & contents & key_values & Hin & Hfile & Hmap & Hlog & Hfiles & _).
  injection Hin as <-. vm_compute in Hfile. injection Hfile as <-.
  injection Hmap as <-.
  split; [exact Hlog|]. apply (Hfiles 1). subst task. cbn. lia.
Defined.

Lemma reduce_empty_input_creates_output_witness :
  let self := mkWorker "worker-1" word_count (Some ("localhost", 5000)) in
  let task := mkTask 1 REDUCE ["mr-0-0"] "mr-out-0" 1 (-1) 0 in
  let w := mkWorld {["mr-0-0" := ""]} ∅ [] in
  ((read_all_key_values example_rt task w).2 = Ok []
   ∧ output_file task ∉ denied w)
  ∧ _execute_reduce_task example_rt self task w
    = (mkWorld (<["mr-out-0" := ""]> {["mr-0-0" := ""]}) ∅ [OpenW "mr-out-0"],
       true).
Proof.
  intros self task w.
  assert ((read_all_key_values example_rt task w).2 = Ok []) as Hread
    by (vm_compute; reflexivity).
  assert (output_file task ∉ denied w) as Hout by (simpl; set_solver).
  split; [by split|].
  apply (reduce_empty_input_creates_output example_rt self task w Hread Hout).
Defined.

(** C7 as stated fails.  A reduce task whose only input file is empty, run
    where an earlier attempt left a temporary file behind: the worker opens
    [mr-out-0] itself and renames nothing, where the sequence the claim
    names opens [mr-out-0.tmp] and renames it; the stale temporary file is
    still there afterwards, and would not be after that sequence. *)
Lemma reduce_empty_input_skips_temp_and_rename :
  let self := mkWorker "worker-1" word_count (Some ("localhost", 5000)) in
  let task := mkTask 1 REDUCE ["mr-0-0"] "mr-out-0" 1 (-1) 0 in
  let w := mkWorld (<["mr-0-0" := ""]> {["mr-out-0.tmp" := "stale"]}) ∅ [] in
  let done_by_code := _execute_reduce_task example_rt self task w in
  let done_by_claim := create_and_rename "mr-out-0" w in
  (read_all_key_values example_rt task w).2 = Ok []
  ∧ done_by_code.2 = true
  ∧ log done_by_code.1 = [OpenW "mr-out-0"]
  ∧ log done_by_claim.1 = [OpenW "mr-out-0.tmp"; Rename "mr-out-0.tmp" "mr-out-0"]
  ∧ fs done_by_code.1 !! "mr-out-0.tmp" = Some "stale"
  ∧ fs done_by_claim.1 !! "mr-out-0.tmp" = None.
Proof. repeat split; vm_compute; reflexivity. Qed.

Lemma failed_attempt_reports_empty_message_witness :
  let self := mkWorker "worker-1" failing_app (Some ("localhost", 5000)) in
  let task := mkTask 0 MAP ["in.txt"] "" 1 0 (-1) in
  let w := mkWorld {["in.txt" := "to be or not to be"]} ∅ [] in
  (is_Some (rpc_client self)
   ∧ task_type task = MAP
   ∧ _execute_map_task_body example_rt self task w = (w, Raise (AppError "boom")))
  ∧ run_turn example_rt self (Some task) w
    = (w, Reported (Some (complete_task "worker-1" 0 false ""))).
Proof.
  intros self task w.
  assert (is_Some (rpc_client self)) as Hclient by (simpl; eauto).
  assert (_execute_map_task_body example_rt self task w
          = (w, Raise (AppError "boom"))) as Hbody by (vm_compute; reflexivity).
  split; [by repeat split|].
  apply (failed_attempt_reports_empty_message example_rt self task w w
           (AppError "boom") Hclient).
  left. by split.
Defined.

(** C8 as stated fails.  The application's map function raises
    [Exception("boom")], whose string is "boom"; the input file of another
    task is missing, so that opening it raises; in both cases the report
    carries the empty string as [error_message]. *)
Lemma failure_report_carries_no_error_message :
  let self := mkWorker "worker-1" failing_app (Some ("localhost", 5000)) in
  let task := mkTask 0 MAP ["in.txt"] "" 1 0 (-1) in
  let task' := mkTask 1 MAP ["missing.txt"] "" 1 1 (-1) in
  let w := mkWorld {["in.txt" := "to be or not to be"]} ∅ [] in
  (_execute_map_task_body example_rt self task w = (w, Raise (AppError "boom"))
   ∧ exn_str (AppError "boom") = Some "boom"
   ∧ run_turn example_rt self (Some task) w
     = (w, Reported (Some (complete_task "worker-1" 0 false ""))))
  ∧ (_execute_map_task_body example_rt self task' w
     = (w, Raise (FileNotFoundError "missing.txt"))
     ∧ run_turn example_rt self (Some task') w
       = (w, Reported (Some (complete_task "worker-1" 1 false "")))).
Proof. repeat split; vm_compute; reflexivity. Qed.

End WorkerExamples.

(* ===================================================================== *)
(** * Further properties of mapreduce.py *)
(* ===================================================================== *)

Module MapReduceFacts.
Import MapReduce Order Coverage MapReduceProofs.

(** ** KeyValue and Task dictionaries *)

(** X1.  [KeyValue.from_dict] undoes [KeyValue.to_dict], and on any
    dictionary it returns a pair exactly when both members are there, other
    members being ignored; a missing ["key"] is reported before a missing
    ["value"]. *)
Theorem KeyValue_from_dict_spec (kv : KeyValue) (data : gmap string string) :
  KeyValue_from_dict (KeyValue_to_dict kv) = Ok kv
  ∧ (KeyValue_from_dict data = Ok kv
     ↔ data !! "key" = Some (key kv) ∧ data !! "value" = Some (value kv))
  ∧ (data !! "key" = None →
     KeyValue_from_dict data = Raise (KeyError (PyStr "key")))
  ∧ (is_Some (data !! "key") → data !! "value" = None →
     KeyValue_from_dict data = Raise (KeyError (PyStr "value"))).
Proof.
  destruct kv as [k v]. unfold KeyValue_from_dict, KeyValue_to_dict. simpl.
  split; [|split; [|split]].
  - rewrite lookup_insert_eq, lookup_insert_ne by done.
    by rewrite lookup_insert_eq.
  - destruct (data !! "key") as [k'|], (data !! "value") as [v'|];
      split; try done; try (intros [??]; done).
    + by intros [= -> ->].
    + by intros [[= ->] [= ->]].
  - by intros ->.
  - by intros [k' ->] ->.
Qed.

Lemma KeyValue_from_dict_spec_witness :
  let data : gmap string string :=
    <["key" := "the"]> (<["value" := "1"]> (<["note" := "ignored"]> ∅)) in
  KeyValue_from_dict data = Ok (mkKeyValue "the" "1")
  ∧ KeyValue_from_dict (delete "key" data) = Raise (KeyError (PyStr "key"))
  ∧ KeyValue_from_dict (delete "value" data) = Raise (KeyError (PyStr "value")).
Proof.
  intros data.
  destruct (KeyValue_from_dict_spec (mkKeyValue "the" "1") data)
    as (_ & H2 & _ & _).
  destruct (KeyValue_from_dict_spec (mkKeyValue "the" "1") (delete "key" data))
    as (_ & _ & H3 & _).
  destruct (KeyValue_from_dict_spec (mkKeyValue "the" "1") (delete "value" data))
    as (_ & _ & _ & H4).
  split; [apply H2; split; reflexivity|].
  split; [apply H3; reflexivity|].
  apply H4; [eexists|]; reflexivity.
Defined.

(** [TaskType(v)] succeeds on the four wire strings and on nothing else. *)
Lemma TaskType_of_value_Ok (v : pyval) (ty : TaskType) :
  TaskType_of_value v = Ok ty ↔ v = PyStr (TaskType_value ty).
Proof.
  split.
  - destruct v as [z|s|b|l]; simpl; try done.
    destruct (String.eqb_spec s "map") as [->|?]; [by intros [= <-]|].
    destruct (String.eqb_spec s "reduce") as [->|?]; [by intros [= <-]|].
    destruct (String.eqb_spec s "wait") as [->|?]; [by intros [= <-]|].
    destruct (String.eqb_spec s "exit") as [->|?]; [by intros [= <-]|].
    done.
  - intros ->. by destruct ty.
Qed.

(** X2.  What [Task.from_dict] does with an incomplete or foreign
    dictionary: [map_task_id] and [reduce_task_id] are optional and default
    to -1; a missing ["task_id"] raises [KeyError] for it; with a task id
    present, a ["task_type"] that is not one of "map", "reduce", "wait",
    "exit" raises [ValueError] for that value, whatever else the dictionary
    holds. *)
Theorem Task_from_dict_incomplete (t : Task) (data : gmap string pyval) :
  Task_from_dict (delete "map_task_id" (delete "reduce_task_id" (Task_to_dict t)))
  = Some (Ok (mkTask (task_id t) (task_type t) (input_files t) (output_file t)
                (n_reduce t) (-1) (-1)))
  ∧ (data !! "task_id" = None →
     Task_from_dict data = Some (Raise (KeyError (PyStr "task_id"))))
  ∧ (∀ v, is_Some (data !! "task_id") → data !! "task_type" = Some v →
     (∀ ty, v ≠ PyStr (TaskType_value ty)) →
     Task_from_dict data = Some (Raise (ValueError v))).
Proof.
  split; [|split].
  - destruct t as [i ty fs o n m r].
    unfold Task_from_dict, Task_to_dict, dict_getitem, dict_get; simpl.
    repeat (rewrite ?lookup_delete_eq; rewrite ?lookup_delete_ne by done;
            rewrite ?lookup_insert_eq; rewrite ?lookup_insert_ne by done).
    simpl. by destruct ty.
  - intros H. unfold Task_from_dict, dict_getitem. by rewrite H.
  - intros v [i Hi] Hv Hbad. unfold Task_from_dict, dict_getitem.
    rewrite Hi, Hv.
    destruct (TaskType_of_value v) as [ty|e] eqn:Hty.
    + apply TaskType_of_value_Ok in Hty. by destruct (Hbad ty).
    + destruct v as [z|s|b|l]; simpl in Hty; try by injection Hty as <-.
      repeat (destruct (String.eqb s _); [done|]). by injection Hty as <-.
Qed.

Lemma Task_from_dict_incomplete_witness :
  let data : gmap string pyval :=
    <["task_id" := PyInt 3]> (<["task_type" := PyStr "shuffle"]> ∅) in
  Task_from_dict (delete "task_id" data)
  = Some (Raise (KeyError (PyStr "task_id")))
  ∧ Task_from_dict data = Some (Raise (ValueError (PyStr "shuffle"))).
Proof.
  intros data.
  destruct (Task_from_dict_incomplete (mkTask 0 MAP [] "" 1 0 0) (delete "task_id" data))
    as (_ & H1 & _).
  destruct (Task_from_dict_incomplete (mkTask 0 MAP [] "" 1 0 0) data)
    as (_ & _ & H2).
  split; [apply H1; reflexivity|].
  apply H2; [eexists; reflexivity|reflexivity|].
  intros []; discriminate.
Defined.

(** ** File names *)

Lemma lacks_app c s1 s2 : lacks c (s1 +:+ s2) = lacks c s1 && lacks c s2.
Proof.
  induction s1 as [|c' s1 IH]; [done|].
  change (negb (Ascii.eqb c' c) && lacks c (s1 +:+ s2)
          = negb (Ascii.eqb c' c) && lacks c s1 && lacks c s2).
  by rewrite IH, andb_assoc.
Qed.

Lemma lacks_pretty_N_go (c : ascii) (x : N) (s : string) :
  (∀ n, pretty_N_char n ≠ c) → lacks c (pretty_N_go x s) = lacks c s.
Proof.
  intros Hc. revert s. induction (N.lt_wf_0 x) as [x _ IH]; intros s.
  destruct (decide (x = 0)%N) as [->|Hx]; [done|].
  rewrite pretty_N_go_step by lia.
  rewrite IH by (apply N.div_lt; lia). simpl.
  destruct (Ascii.eqb_spec (pretty_N_char (x `mod` 10)) c) as [Heq|?]; [|done].
  by destruct (Hc _ Heq).
Qed.

Lemma lacks_pretty_positive (c : ascii) (p : positive) :
  (∀ n, pretty_N_char n ≠ c) → lacks c (pretty p) = true.
Proof.
  intros Hc. unfold pretty, pretty_positive, pretty, pretty_N.
  case_decide; [done|]. by rewrite lacks_pretty_N_go.
Qed.

Lemma pretty_N_char_not_dash n : pretty_N_char n ≠ "-"%char.
Proof. unfold pretty_N_char. by repeat case_match. Qed.
Lemma pretty_N_char_not_dot n : pretty_N_char n ≠ "."%char.
Proof. unfold pretty_N_char. by repeat case_match. Qed.
Lemma pretty_N_char_not_o n : pretty_N_char n ≠ "o"%char.
Proof. unfold pretty_N_char. by repeat case_match. Qed.

Lemma lacks_pretty_Z (c : ascii) (z : Z) :
  (∀ n, pretty_N_char n ≠ c) → c ≠ "-"%char → lacks c (pretty z) = true.
Proof.
  intros Hc Hdash. destruct z as [|p|p].
  - change (negb (Ascii.eqb "0" c) && true = true).
    destruct (Ascii.eqb_spec "0" c) as [Heq|?]; [|done]. by destruct (Hc 0%N).
  - by apply lacks_pretty_positive.
  - unfold pretty, pretty_Z. rewrite lacks_app, lacks_pretty_positive by done.
    change (lacks c "-") with (negb (Ascii.eqb "-" c) && true).
    destruct (Ascii.eqb_spec "-" c) as [Heq|?]; [by destruct Hdash|done].
Qed.

Lemma pretty_N_go_length (x : N) (s : string) :
  (String.length s ≤ String.length (pretty_N_go x s))%nat.
Proof.
  revert s. induction (N.lt_wf_0 x) as [x _ IH]; intros s.
  destruct (decide (x = 0)%N) as [->|Hx]; [done|].
  rewrite pretty_N_go_step by lia.
  etrans; [|apply IH, N.div_lt; lia]. simpl. lia.
Qed.

Lemma pretty_positive_nonempty (p : positive) : pretty p ≠ "".
Proof.
  unfold pretty, pretty_positive, pretty, pretty_N.
  case_decide; [done|]. rewrite pretty_N_go_step by lia.
  intros Heq. apply (f_equal String.length) in Heq.
  pose proof (pretty_N_go_length (N.pos p `div` 10)
                (String (pretty_N_char (N.pos p `mod` 10)) "")) as Hlen.
  rewrite Heq in Hlen. simpl in Hlen. lia.
Qed.

(** Two strings cut at their first dash agree on both sides of it. *)
Lemma split_at_dash (s1 s2 t1 t2 : string) :
  lacks "-" s1 = true → lacks "-" s2 = true →
  s1 +:+ "-" +:+ t1 = s2 +:+ "-" +:+ t2 → s1 = s2 ∧ t1 = t2.
Proof.
  revert s2. induction s1 as [|c s1 IH]; intros [|c' s2]; cbn.
  - intros _ _ [= H]. split; [done|]. exact H.
  - intros _ Hc' [= <- _]. done.
  - intros Hc _ [= -> _]. done.
  - intros [_ H1]%andb_prop [_ H2]%andb_prop [= -> H].
    by destruct (IH s2 H1 H2 H) as [-> ->].
Qed.

Lemma pretty_Z_split (m m' : Z) (t t' : string) :
  pretty m +:+ "-" +:+ t = pretty m' +:+ "-" +:+ t' → m = m' ∧ t = t'.
Proof.
  assert (∀ p : positive, lacks "-" (pretty p) = true) as Hpos
    by (intros; apply lacks_pretty_positive, pretty_N_char_not_dash).
  assert (∀ (p : positive) (s u u' : string),
            lacks "-" s = true → s ≠ "" →
            s +:+ "-" +:+ u ≠ pretty (Z.neg p) +:+ "-" +:+ u') as Hmixed.
  { intros p s u u' Hs Hne H.
    change (pretty (Z.neg p)) with ("-" +:+ pretty p) in H.
    change (s +:+ "-" +:+ u = "" +:+ "-" +:+ (pretty p +:+ "-" +:+ u')) in H.
    by apply split_at_dash in H as [-> _]. }
  assert (∀ z, 0 ≤ z → lacks "-" (pretty z) = true ∧ pretty z ≠ "") as Hnn.
  { intros [|p|p] Hz; [done| |lia]. split; [apply Hpos|].
    apply pretty_positive_nonempty. }
  intros H.
  destruct (decide (0 ≤ m)) as [Hm|Hm], (decide (0 ≤ m')) as [Hm'|Hm'].
  - destruct (Hnn m Hm) as [H1 _], (Hnn m' Hm') as [H2 _].
    apply split_at_dash in H as [Heq ->]; [|done..].
    by apply pretty_Z_inj in Heq as ->.
  - destruct m' as [|p'|p']; try lia.
    destruct (Hnn m Hm) as [H1 H1']. by apply Hmixed in H.
  - destruct m as [|p|p]; try lia.
    destruct (Hnn m' Hm') as [H2 H2']. symmetry in H. by apply Hmixed in H.
  - destruct m as [|p|p], m' as [|p'|p']; try lia.
    change (pretty (Z.neg p)) with ("-" +:+ pretty p) in H.
    change (pretty (Z.neg p')) with ("-" +:+ pretty p') in H.
    injection H as H.
    apply split_at_dash in H as [Heq ->]; [|apply Hpos..].
    apply pretty_positive_inj in Heq. by subst.
Qed.

Lemma intermediate_filename_inj_both (m j m' j' : Z) :
  intermediate_filename m j = intermediate_filename m' j' → m = m' ∧ j = j'.
Proof.
  unfold intermediate_filename. intros H.
  apply String.app_inj in H. apply pretty_Z_split in H as [-> H].
  by apply pretty_Z_inj in H as ->.
Qed.

Lemma intermediate_filename_not_output (m j j' : Z) :
  intermediate_filename m j ≠ output_filename j'.
Proof.
  unfold intermediate_filename, output_filename. intros H.
  change ("mr-out-" +:+ pretty j') with ("mr-" +:+ "out-" +:+ pretty j') in H.
  apply String.app_inj in H.
  assert (lacks "o" (pretty m) = true) as Ho
    by (by apply lacks_pretty_Z; [apply pretty_N_char_not_o|]).
  apply (f_equal (λ s, match s with
                       | EmptyString => None
                       | String c _ => Some c
                       end)) in H.
  destruct (pretty m) as [|c s] eqn:Hm.
  - destruct m as [|p|p]; [done|by apply pretty_positive_nonempty in Hm|done].
  - simpl in H. injection H as ->. done.
Qed.

Lemma temp_not_a_task_file (path : string) (m j : Z) :
  path +:+ ".tmp" ≠ intermediate_filename m j
  ∧ path +:+ ".tmp" ≠ output_filename j.
Proof.
  assert (lacks "." (path +:+ ".tmp") = false) as Htmp.
  { rewrite lacks_app. simpl. apply andb_false_r. }
  split; intros H; rewrite H in Htmp;
    unfold intermediate_filename, output_filename in Htmp;
    rewrite !lacks_app, !lacks_pretty_Z in Htmp;
    done || apply pretty_N_char_not_dot.
Qed.

(** X3.  File names never collide: an intermediate file name determines its
    map and reduce indices, an output file name its reduce index; no
    intermediate name is an output name; and a name with [.tmp] appended is
    neither. *)
Theorem file_names_distinct :
  (∀ m j m' j',
     intermediate_filename m j = intermediate_filename m' j' → m = m' ∧ j = j')
  ∧ (∀ j j', output_filename j = output_filename j' → j = j')
  ∧ (∀ m j j', intermediate_filename m j ≠ output_filename j')
  ∧ (∀ (path : string) m j,
       path +:+ ".tmp" ≠ intermediate_filename m j
       ∧ path +:+ ".tmp" ≠ output_filename j).
Proof.
  split; [exact intermediate_filename_inj_both|].
  split; [|split; [exact intermediate_filename_not_output
                  |exact temp_not_a_task_file]].
  intros j j'. unfold output_filename. intros H.
  apply String.app_inj in H. by apply pretty_Z_inj in H as ->.
Qed.

Lemma file_names_distinct_witness :
  intermediate_filename 1 23 = "mr-1-23"
  ∧ intermediate_filename 12 3 = "mr-12-3"
  ∧ intermediate_filename 1 23 ≠ intermediate_filename 12 3.
Proof.
  split; [reflexivity|]. split; [reflexivity|].
  intros H. destruct file_names_distinct as (Hinj & _).
  destruct (Hinj 1 23 12 3 H) as [Hm _]. discriminate Hm.
Defined.

(** ** Grouping and sorting *)

Lemma expand_groups_cons k vs groups :
  expand_groups ((k, vs) :: groups) = (mkKeyValue k <$> vs) ++ expand_groups groups.
Proof. done. Qed.

Lemma run_of_rebuild k l : mkKeyValue k <$> (value <$> run_of k l) = run_of k l.
Proof.
  induction l as [|[k' v] l IH]; simpl; [done|].
  destruct (String.eqb_spec k' k) as [->|?]; [|done]. csimpl. by rewrite IH.
Qed.

(** X4.  [group_by_key] loses nothing, on any list, sorted or not: the
    values of the groups, each under its group's key, are the list it was
    given, in order; no group is empty; and two consecutive groups have
    different keys. *)
Theorem group_by_key_lossless (l : list KeyValue) :
  expand_groups (group_by_key l) = l
  ∧ Forall (λ g, g.2 ≠ []) (group_by_key l)
  ∧ ∀ i g g', group_by_key l !! i = Some g → group_by_key l !! S i = Some g' →
      g.1 ≠ g'.1.
Proof.
  remember (length l) as n eqn:Hn. revert l Hn.
  induction (lt_wf n) as [n _ IH]; intros l ->.
  destruct l as [|kv rest]; [by repeat split|].
  rewrite group_by_key_cons.
  destruct (IH (length (after_run (key kv) rest))) with (l := after_run (key kv) rest)
    as (IH1 & IH2 & IH3); [|done|].
  { simpl. pose proof (after_run_length (key kv) rest). lia. }
  split; [|split].
  - rewrite expand_groups_cons, IH1. csimpl. rewrite run_of_rebuild.
    destruct kv as [k v]. simpl. f_equal. symmetry. apply run_after_run.
  - by constructor.
  - intros [|i] g g'; simpl.
    + intros [= <-]. simpl.
      pose proof (after_run_head (key kv) rest) as Hhd.
      destruct (after_run (key kv) rest) as [|kv' rest']; [done|].
      rewrite group_by_key_cons. intros [= <-]. simpl. congruence.
    + apply IH3.
Qed.

Lemma group_by_key_lossless_witness :
  let l := [mkKeyValue "a" "1"; mkKeyValue "a" "2"; mkKeyValue "b" "3"] in
  group_by_key l = [("a", ["1"; "2"]); ("b", ["3"])]
  ∧ expand_groups (group_by_key l) = l
  ∧ "a" ≠ "b".
Proof.
  intros l. destruct (group_by_key_lossless l) as (Hexp & _ & Hadj).
  split; [reflexivity|]. split; [exact Hexp|].
  exact (Hadj 0%nat ("a", ["1"; "2"]) ("b", ["3"]) eq_refl eq_refl).
Defined.

(** X5.  [sort_key_values] returns a list already in key order unchanged;
    in particular sorting twice is sorting once. *)
Theorem sort_key_values_fixed_point (kvs : list KeyValue) :
  (StronglySorted kv_le kvs → sort_key_values kvs = kvs)
  ∧ sort_key_values (sort_key_values kvs) = sort_key_values kvs.
Proof.
  assert (∀ l, StronglySorted kv_le l → sort_key_values l = l) as Hfix.
  { intros l Hl. symmetry. by apply sort_key_values_unique. }
  split; [apply Hfix|]. apply Hfix, sort_key_values_sorted.
Qed.

Lemma sort_key_values_fixed_point_witness :
  let kvs := [mkKeyValue "a" "2"; mkKeyValue "a" "1"; mkKeyValue "b" "0"] in
  StronglySorted kv_le kvs ∧ sort_key_values kvs = kvs.
Proof.
  intros kvs.
  assert (StronglySorted kv_le kvs) as Hs.
  { repeat constructor. }
  split; [exact Hs|].
  by apply (sort_key_values_fixed_point kvs).
Defined.

End MapReduceFacts.

(* ===================================================================== *)
(** * Further properties of coordinator.py *)
(* ===================================================================== *)

Module CoordinatorFacts.
Import MapReduce Coordinator Invariant Coverage CoordinatorProofs.

(** ** Construction *)

Lemma create_map_tasks_fold (xs : list string) (a : Z) (c : Coordinator) :
  next_task_id c = a →
  Forall (λ k : Z, (k < a)%Z) (map_tasks c).*1 →
  foldl (λ c '(i, filename),
    let t := mkTask (next_task_id c) MAP [filename] "" (n_reduce c) i (-1) in
    set_next_task_id (next_task_id c + 1)
      (set_map_tasks (od_setitem (next_task_id c) (new_TaskInfo t) (map_tasks c)) c))
    c (zip (seqZ a (Z.of_nat (length xs))) xs)
  = mkCoordinator (files c) (n_reduce c)
      (map_tasks c ++
         ((λ e, (e.1, new_TaskInfo (mkTask e.1 MAP [e.2] "" (n_reduce c) e.1 (-1))))
            <$> zip (seqZ a (Z.of_nat (length xs))) xs))
      (reduce_tasks c) (a + Z.of_nat (length xs)) (active_workers c)
      (map_phase_complete c) (all_tasks_complete c).
Proof.
  revert a c. induction xs as [|x xs IH]; intros a c Ha Hkeys.
  - simpl. rewrite app_nil_r, Z.add_0_r, <-Ha. by destruct c.
  - rewrite seqZ_cons by (simpl; lia).
    replace (Z.pred (Z.of_nat (length (x :: xs)))) with (Z.of_nat (length xs))
      by (simpl; lia).
    simpl. rewrite IH; simpl.
    + rewrite (od_setitem_fresh a) by (done || lia). rewrite Ha.
      rewrite <-app_assoc. simpl. f_equal. lia.
    + lia.
    + rewrite (od_setitem_fresh a) by (done || lia). rewrite fmap_app.
      apply Forall_app. split.
      * eapply Forall_impl; [exact Hkeys|]. intros; simpl in *; lia.
      * repeat constructor. simpl. lia.
Qed.

Lemma create_reduce_tasks_fold (k : nat) (a M : Z) (c : Coordinator) :
  next_task_id c = M + a →
  Forall (λ k : Z, (k < M + a)%Z) (reduce_tasks c).*1 →
  foldl (λ c i,
    let input_files :=
      (λ map_id, "mr-" +:+ pretty map_id +:+ "-" +:+ pretty i)
        <$> seqZ 0 (Z.of_nat (length (files c))) in
    let t := mkTask (next_task_id c) REDUCE input_files
               ("mr-out-" +:+ pretty i) (n_reduce c) (-1) i in
    set_next_task_id (next_task_id c + 1)
      (set_reduce_tasks
         (od_setitem (next_task_id c) (new_TaskInfo t) (reduce_tasks c)) c))
    c (seqZ a (Z.of_nat k))
  = mkCoordinator (files c) (n_reduce c) (map_tasks c)
      (reduce_tasks c ++
         ((λ j, (M + j,
                 new_TaskInfo
                   (mkTask (M + j) REDUCE
                      ((λ i, intermediate_filename i j)
                         <$> seqZ 0 (Z.of_nat (length (files c))))
                      (output_filename j) (n_reduce c) (-1) j)))
            <$> seqZ a (Z.of_nat k)))
      (M + a + Z.of_nat k) (active_workers c)
      (map_phase_complete c) (all_tasks_complete c).
Proof.
  revert a c. induction k as [|k IH]; intros a c Ha Hkeys.
  - simpl. rewrite app_nil_r, Z.add_0_r, <-Ha. by destruct c.
  - rewrite seqZ_cons by lia.
    replace (Z.pred (Z.of_nat (S k))) with (Z.of_nat k) by lia.
    simpl. rewrite IH; simpl.
    + rewrite (od_setitem_fresh (M + a)) by (done || lia). rewrite Ha.
      rewrite <-app_assoc. simpl. f_equal. lia.
    + lia.
    + rewrite (od_setitem_fresh (M + a)) by (done || lia). rewrite fmap_app.
      apply Forall_app. split.
      * eapply Forall_impl; [exact Hkeys|]. intros; simpl in *; lia.
      * repeat constructor. simpl. lia.
Qed.

Lemma init_unfold (files : list string) (n : Z) :
  init files n
  = mkCoordinator files n (initial_map_tasks files n)
      (initial_reduce_tasks files n)
      (Z.of_nat (length files) + Z.max 0 n) ∅ false false.
Proof.
  unfold init, _create_map_tasks, _create_reduce_tasks, enumerate.
  simpl. rewrite (create_map_tasks_fold files 0) by (done || constructor).
  simpl.
  assert (seqZ 0 (Z.of_nat (Z.to_nat n)) = seqZ 0 n) as Hseq.
  { destruct (decide (0 ≤ n)); [by rewrite Z2Nat.id|].
    rewrite !seqZ_nil by lia. done. }
  rewrite <-Hseq at 1.
  rewrite (create_reduce_tasks_fold _ 0 (Z.of_nat (length files)));
    simpl; [|lia|constructor].
  unfold initial_map_tasks, initial_reduce_tasks, enumerate. rewrite Hseq.
  f_equal. lia.
Qed.

Lemma init_map_tasks files n : map_tasks (init files n) = initial_map_tasks files n.
Proof. by rewrite init_unfold. Qed.
Lemma init_reduce_tasks files n :
  reduce_tasks (init files n) = initial_reduce_tasks files n.
Proof. by rewrite init_unfold. Qed.

(** X6.  [Coordinator(files, n_reduce)] holds one idle MAP task per input
    file, with ids and map indices 0, 1, ... in the order of the files, and
    one idle REDUCE task per partition [j], with id [len(files) + j], whose
    input files are [mr-i-j] for every map index [i] and whose output file is
    [mr-out-j]; neither phase flag is set and no worker is known.  With
    [n_reduce <= 0] there is no REDUCE task. *)
Theorem init_inventory (files : list string) (n : Z) :
  init files n
  = mkCoordinator files n (initial_map_tasks files n)
      (initial_reduce_tasks files n)
      (Z.of_nat (length files) + Z.max 0 n) ∅ false false
  ∧ length (map_tasks (init files n)) = length files
  ∧ length (reduce_tasks (init files n)) = Z.to_nat n.
Proof.
  rewrite init_unfold. simpl. split; [done|].
  unfold initial_map_tasks, initial_reduce_tasks, enumerate.
  rewrite !length_fmap, length_zip, !length_seqZ. lia.
Qed.

(** ** The inventory never changes *)

Lemma inventory_od_alter (f : TaskInfo → TaskInfo) k d :
  (∀ ti, task (f ti) = task ti) → inventory (od_alter f k d) = inventory d.
Proof.
  intros Hf. unfold inventory.
  induction d as [|[k' ti] d IH]; csimpl; [done|].
  destruct (decide (k' = k)); csimpl; [|by rewrite IH].
  unfold prod_map. simpl. by rewrite Hf.
Qed.

Lemma inventory_fmap (g : TaskInfo → TaskInfo) d :
  (∀ ti, task (g ti) = task ti) → inventory (prod_map id g <$> d) = inventory d.
Proof.
  intros Hg. unfold inventory. rewrite <-list_fmap_compose.
  apply list_fmap_ext. intros _ [k ti] _. unfold prod_map. simpl. by rewrite Hg.
Qed.

Lemma inventory_update_task f tid c :
  (∀ ti, task (f ti) = task ti) →
  inventory (map_tasks (update_task f tid c)) = inventory (map_tasks c)
  ∧ inventory (reduce_tasks (update_task f tid c)) = inventory (reduce_tasks c).
Proof.
  intros Hf. unfold update_task.
  destruct (od_lookup tid (map_tasks c)); simpl; by rewrite inventory_od_alter.
Qed.

Lemma step_inventory c o :
  inventory (map_tasks (step c o)) = inventory (map_tasks c)
  ∧ inventory (reduce_tasks (step c o)) = inventory (reduce_tasks c).
Proof.
  destruct o as [w now|w tid ok msg now|now]; simpl.
  - unfold _handle_task_request.
    repeat case_match; simpl; rewrite ?inventory_od_alter; done.
  - unfold _handle_task_completion. destruct (find_task tid c); [|done].
    destruct ok; simpl.
    + destruct (check_phase_completion_tables
                  (update_task (mark_completed now) tid c)) as [-> ->].
      by apply inventory_update_task.
    + by apply inventory_update_task.
  - unfold _monitor_tasks_pass.
    repeat case_match; simpl; rewrite ?inventory_fmap; auto using task_expire.
Qed.

Lemma run_inventory c ops :
  inventory (map_tasks (run c ops)) = inventory (map_tasks c)
  ∧ inventory (reduce_tasks (run c ops)) = inventory (reduce_tasks c).
Proof.
  revert c. induction ops as [|o ops IH]; intros c; [done|]. simpl.
  destruct (IH (step c o)) as [-> ->]. apply step_inventory.
Qed.

Lemma inventory_keys d : (inventory d).*1 = d.*1.
Proof.
  unfold inventory. rewrite <-list_fmap_compose. by apply list_fmap_ext.
Qed.

Lemma initial_map_keys files n :
  (initial_map_tasks files n).*1 = seqZ 0 (Z.of_nat (length files)).
Proof.
  unfold initial_map_tasks, enumerate. rewrite <-list_fmap_compose.
  rewrite <-(fst_zip (seqZ 0 (Z.of_nat (length files))) files) at 2
    by (rewrite length_seqZ; lia).
  by apply list_fmap_ext.
Qed.

Lemma initial_reduce_keys files n :
  (initial_reduce_tasks files n).*1 = seqZ (Z.of_nat (length files)) n.
Proof.
  unfold initial_reduce_tasks. simpl. rewrite <-list_fmap_compose.
  replace (seqZ (Z.of_nat (length files)) n)
    with (seqZ (Z.of_nat (length files) + 0) n) by (f_equal; lia).
  rewrite <-fmap_add_seqZ. by apply list_fmap_ext.
Qed.

Lemma run_keys files n ops :
  (map_tasks (run (init files n) ops)).*1 = seqZ 0 (Z.of_nat (length files))
  ∧ (reduce_tasks (run (init files n) ops)).*1 = seqZ (Z.of_nat (length files)) n.
Proof.
  destruct (run_inventory (init files n) ops) as [Hm Hr].
  apply (f_equal (fmap fst)) in Hm, Hr. rewrite !inventory_keys in Hm, Hr.
  rewrite Hm, Hr, init_map_tasks, init_reduce_tasks.
  by rewrite initial_map_keys, initial_reduce_keys.
Qed.

Lemma od_lookup_is_Some {V} k (d : list (Z * V)) :
  is_Some (od_lookup k d) ↔ k ∈ d.*1.
Proof.
  split.
  - intros [v Hv%od_lookup_elem_of]. apply list_elem_of_fmap. by exists (k, v).
  - intros Hk. destruct (od_lookup k d) eqn:H; [by eexists|].
    induction d as [|[k' v] d IH]; [by apply not_elem_of_nil in Hk|].
    simpl in H. csimpl in Hk. case_decide; [done|].
    apply elem_of_cons in Hk as [->|Hk]; [done|]. by apply IH.
Qed.

Lemma find_task_is_Some files n ops tid :
  is_Some (find_task tid (run (init files n) ops))
  ↔ 0 ≤ tid < Z.of_nat (length files) + Z.max 0 n.
Proof.
  destruct (run_keys files n ops) as [Hm Hr].
  assert (is_Some (find_task tid (run (init files n) ops))
          ↔ is_Some (od_lookup tid (map_tasks (run (init files n) ops)))
            ∨ is_Some (od_lookup tid (reduce_tasks (run (init files n) ops))))
    as ->.
  { unfold find_task. destruct (od_lookup tid (map_tasks _)).
    - split; eauto.
    - split; [by right|]. by intros [[? [=]]|?]. }
  rewrite !od_lookup_is_Some, Hm, Hr, !elem_of_seqZ. lia.
Qed.

(** X7.  Tasks are never created, dropped or altered after construction:
    in every state of a run, both tables hold the ids and tasks [__init__]
    put there, in the same order, so that task ids are unique across the two
    tables and a task id is known exactly when it lies between 0 and the
    number of tasks. *)
Theorem inventory_is_fixed (files : list string) (n : Z) (ops : list op) :
  let c := run (init files n) ops in
  inventory (map_tasks c) = inventory (initial_map_tasks files n)
  ∧ inventory (reduce_tasks c) = inventory (initial_reduce_tasks files n)
  ∧ NoDup ((map_tasks c).*1 ++ (reduce_tasks c).*1)
  ∧ ∀ tid, is_Some (find_task tid c)
           ↔ 0 ≤ tid < Z.of_nat (length files) + Z.max 0 n.
Proof.
  intros c. destruct (run_inventory (init files n) ops) as [Hm Hr].
  rewrite init_map_tasks in Hm. rewrite init_reduce_tasks in Hr.
  split; [exact Hm|]. split; [exact Hr|]. split.
  - subst c. destruct (run_keys files n ops) as [-> ->].
    apply NoDup_app. split; [apply NoDup_seqZ|]. split; [|apply NoDup_seqZ].
    intros k H1%elem_of_seqZ H2%elem_of_seqZ. lia.
  - intros tid. apply find_task_is_Some.
Qed.

(** X8.  A [CompleteTask] call for a task id the job does not have, with
    either value of [success], is answered with [acknowledged=false] and the
    error "Task not found", and changes nothing. *)
Theorem complete_task_unknown_id (files : list string) (n : Z) (ops : list op)
    (w : string) (tid : Z) (ok : bool) (msg : string) (now : Q) :
  ¬ (0 ≤ tid < Z.of_nat (length files) + Z.max 0 n) →
  let c := run (init files n) ops in
  _handle_task_completion w tid ok msg now c
  = (c, <["error" := PyStr "Task not found"]> (<["acknowledged" := PyBool false]> ∅)).
Proof.
  intros Htid c. unfold _handle_task_completion.
  destruct (find_task tid c) eqn:H; [|done].
  destruct Htid. apply (find_task_is_Some files n ops). by eexists.
Qed.

Lemma complete_task_unknown_id_witness :
  let c := run (init ["a.txt"; "b.txt"] 3) [RequestTask "w1" 0%Q] in
  ¬ (0 ≤ 5 < Z.of_nat (length ["a.txt"; "b.txt"]) + Z.max 0 3)
  ∧ _handle_task_completion "w1" 5 true "" 1%Q c
    = (c, <["error" := PyStr "Task not found"]> (<["acknowledged" := PyBool false]> ∅)).
Proof.
  intros c. assert (¬ (0 ≤ 5 < Z.of_nat (length ["a.txt"; "b.txt"]) + Z.max 0 3))
    as H by (simpl; lia).
  split; [exact H|].
  exact (complete_task_unknown_id ["a.txt"; "b.txt"] 3 [RequestTask "w1" 0%Q]
           "w1" 5 true "" 1%Q H).
Defined.

(** ** Workers seen *)

Lemma step_active_workers c o :
  active_workers (step c o)
  = match o with
    | RequestTask w _ => {[w]} ∪ active_workers c
    | _ => active_workers c
    end.
Proof.
  destruct o as [w now|w tid ok msg now|now]; simpl.
  - unfold _handle_task_request. by repeat case_match.
  - unfold _handle_task_completion, _check_phase_completion, update_task.
    by repeat case_match.
  - unfold _monitor_tasks_pass. by repeat case_match.
Qed.

(** X9.  The set of active workers only grows, and only by [RequestTask]:
    after a run it holds the workers it held before and those that placed a
    [RequestTask] call; completion reports and the monitor never add or
    remove a worker. *)
Theorem active_workers_after_run (c : Coordinator) (ops : list op) :
  active_workers (run c ops)
  = active_workers c ∪ list_to_set (requesters ops).
Proof.
  revert c. induction ops as [|o ops IH]; intros c; simpl.
  - unfold requesters. simpl. by rewrite (right_id_L ∅ (∪)).
  - rewrite IH, step_active_workers. unfold requesters.
    destruct o as [w now|w tid ok msg now|now]; simpl; [|done..].
    rewrite (comm_L (∪) {[w]} (active_workers c)).
    by rewrite (assoc_L (∪)).
Qed.

(** ** Leases *)

Lemma lease_ok_assign w now ti : lease_ok (assign w now ti).
Proof. unfold lease_ok. simpl. eauto. Qed.
Lemma lease_ok_mark_completed now ti : lease_ok (mark_completed now ti).
Proof. done. Qed.
Lemma lease_ok_reset ti : lease_ok (reset ti).
Proof. done. Qed.
Lemma lease_ok_expire now ti : lease_ok ti → lease_ok (expire now ti).
Proof. unfold expire. by destruct (timed_out now ti). Qed.

Lemma leases_ok_update_task f tid c :
  (∀ ti, lease_ok (f ti)) → leases_ok c → leases_ok (update_task f tid c).
Proof.
  intros Hf [Hm Hr]. unfold update_task.
  destruct (od_lookup tid (map_tasks c)); split; simpl; try done;
    (apply od_alter_Forall; [intros ???; apply Hf|done]).
Qed.

Lemma leases_ok_step c o : leases_ok c → leases_ok (step c o).
Proof.
  intros [Hm Hr]. destruct o as [w now|w tid ok msg now|now]; simpl.
  - unfold _handle_task_request.
    repeat case_match; simpl; split; simpl; try done;
      (apply od_alter_Forall; [intros ???; apply lease_ok_assign|done]).
  - unfold _handle_task_completion. destruct (find_task tid c); [|done].
    destruct ok; simpl.
    + destruct (check_phase_completion_tables
                  (update_task (mark_completed now) tid c)) as [E1 E2].
      unfold leases_ok. rewrite E1, E2.
      by apply leases_ok_update_task.
    + by apply leases_ok_update_task.
  - unfold _monitor_tasks_pass.
    repeat case_match; simpl; split; simpl; try done;
      apply Forall_fmap; (eapply Forall_impl; [eassumption|]);
      intros [k ti]; simpl; apply lease_ok_expire.
Qed.

Lemma leases_ok_init files n : leases_ok (init files n).
Proof.
  rewrite init_unfold. split; simpl.
  - unfold initial_map_tasks. apply Forall_fmap, Forall_true. by intros [].
  - unfold initial_reduce_tasks. apply Forall_fmap, Forall_true. by intros.
Qed.

(** X10.  In every state of a run, a task that is IDLE has no worker and no
    start time recorded, and a task that is IN_PROGRESS has both.  (A
    COMPLETED task keeps whatever was recorded when it was completed.) *)
Theorem lease_recorded_while_in_progress (files : list string) (n : Z)
    (ops : list op) (tid : Z) (ti : TaskInfo) :
  find_task tid (run (init files n) ops) = Some ti →
  (status ti = IDLE → worker_id ti = None ∧ start_time ti = None)
  ∧ (status ti = IN_PROGRESS →
     is_Some (worker_id ti) ∧ is_Some (start_time ti)).
Proof.
  assert (leases_ok (run (init files n) ops)) as [Hm Hr].
  { generalize (leases_ok_init files n). generalize (init files n).
    induction ops as [|o ops IH]; intros c Hc; [done|].
    simpl. by apply IH, leases_ok_step. }
  intros Hti. assert (lease_ok ti) as Hok.
  { unfold find_task in Hti.
    destruct (od_lookup tid (map_tasks _)) as [ti'|] eqn:Hlk.
    - injection Hti as ->. apply od_lookup_elem_of in Hlk.
      by eapply Forall_forall in Hm; [|exact Hlk].
    - apply od_lookup_elem_of in Hti.
      by eapply Forall_forall in Hr; [|exact Hti]. }
  unfold lease_ok in Hok. split; intros Hs; by rewrite Hs in Hok.
Qed.

Lemma lease_recorded_while_in_progress_witness :
  let ops := [RequestTask "w1" 0%Q; RequestTask "w2" 1%Q;
              CompleteTask "w1" 0 false "" 2%Q] in
  find_task 1 (run (init ["a.txt"; "b.txt"] 1) ops)
  = Some (mkTaskInfo (mkTask 1 MAP ["b.txt"] "" 1 1 (-1)) IN_PROGRESS
            (Some "w2") (Some 1%Q) None)
  ∧ find_task 0 (run (init ["a.txt"; "b.txt"] 1) ops)
    = Some (mkTaskInfo (mkTask 0 MAP ["a.txt"] "" 1 0 (-1)) IDLE None None None).
Proof.
  intros ops. split; [|reflexivity].
  assert (find_task 1 (run (init ["a.txt"; "b.txt"] 1) ops)
          = Some (mkTaskInfo (mkTask 1 MAP ["b.txt"] "" 1 1 (-1)) IN_PROGRESS
                    (Some "w2") (Some 1%Q) None)) as H by reflexivity.
  pose proof (lease_recorded_while_in_progress _ _ _ _ _ H) as [_ _].
  exact H.
Defined.

(** ** The monitor *)




(** ** When the phase flags are set *)

Lemma all_completed_Forall (d : list (Z * TaskInfo)) :
  all_completed (od_values d) = true ↔ Forall (λ e, status e.2 = COMPLETED) d.
Proof.
  unfold all_completed, od_values. rewrite forallb_forall, Forall_forall.
  split.
  - intros H [k ti] Hin. simpl. eapply bool_decide_eq_true_1, H.
    apply list_elem_of_In, list_elem_of_fmap. by exists (k, ti).
  - intros H ti [[k ti'] [-> Hin]]%list_elem_of_In%list_elem_of_fmap.
    apply bool_decide_eq_true_2. by apply (H (k, ti')).
Qed.

(** X12.  The phase flags are set by successful completion reports and by
    nothing else: if an operation turns [map_phase_complete] from false to
    true, it is a [CompleteTask] call with [success=true] for a known task,
    and every map task is COMPLETED once it is handled; likewise for
    [all_tasks_complete] and the reduce tasks, with [map_phase_complete] set
    as well. *)
Theorem phase_flag_set_by_success_report (c : Coordinator) (o : op) :
  (map_phase_complete c = false → map_phase_complete (step c o) = true →
   (∃ w tid msg now, o = CompleteTask w tid true msg now
                     ∧ is_Some (find_task tid c))
   ∧ Forall (λ e, status e.2 = COMPLETED) (map_tasks (step c o)))
  ∧ (all_tasks_complete c = false → all_tasks_complete (step c o) = true →
     (∃ w tid msg now, o = CompleteTask w tid true msg now
                       ∧ is_Some (find_task tid c))
     ∧ map_phase_complete (step c o) = true
     ∧ Forall (λ e, status e.2 = COMPLETED) (reduce_tasks (step c o))).
Proof.
  assert (∀ c0, let c1 := _check_phase_completion c0 in
    (map_phase_complete c0 = false → map_phase_complete c1 = true →
     Forall (λ e, status e.2 = COMPLETED) (map_tasks c1))
    ∧ (all_tasks_complete c0 = false → all_tasks_complete c1 = true →
       map_phase_complete c1 = true
       ∧ Forall (λ e, status e.2 = COMPLETED) (reduce_tasks c1))) as Hcheck.
  { intros c0. unfold _check_phase_completion.
    destruct (map_phase_complete c0) eqn:Hm; simpl; rewrite ?Hm.
    - destruct (all_completed (od_values (reduce_tasks c0))) eqn:Hr; simpl;
        rewrite ?Hm; (split; [done|]); [|congruence].
      intros _ _. split; [done|]. by apply all_completed_Forall.
    - destruct (all_completed (od_values (map_tasks c0))) eqn:Hmap; simpl;
        [|rewrite Hm; split; congruence].
      destruct (all_completed (od_values (reduce_tasks c0))) eqn:Hr; simpl.
      + split; intros _ _; [by apply all_completed_Forall|].
        split; [done|]. by apply all_completed_Forall.
      + split; [intros _ _; by apply all_completed_Forall|congruence]. }
  destruct o as [w now|w tid ok msg now|now].
  - simpl. destruct (handle_task_request_flags w now c) as [-> ->].
    split; congruence.
  - simpl. unfold _handle_task_completion.
    destruct (find_task tid c) as [ti|] eqn:Hti; simpl; [|split; congruence].
    destruct ok; simpl.
    + destruct (Hcheck (update_task (mark_completed now) tid c)) as [H1 H2].
      destruct (update_task_flags (mark_completed now) tid c) as [E1 E2].
      rewrite E1 in H1. rewrite E2 in H2.
      split; intros Hbefore Hafter.
      * split; [by eauto 10|]. by apply H1.
      * split; [by eauto 10|]. by apply H2.
    + destruct (update_task_flags reset tid c) as [-> ->]. split; congruence.
  - simpl. destruct (monitor_pass_flags now c) as [-> ->]. split; congruence.
Qed.

Lemma phase_flag_set_by_success_report_witness :
  let c := run (init ["a.txt"] 1) [RequestTask "w1" 0%Q] in
  let o := CompleteTask "w1" 0 true "" 1%Q in
  (map_phase_complete c = false ∧ map_phase_complete (step c o) = true)
  ∧ Forall (λ e, status e.2 = COMPLETED) (map_tasks (step c o)).
Proof.
  intros c o. split; [split; reflexivity|].
  destruct (phase_flag_set_by_success_report c o) as [H _].
  exact (proj2 (H eq_refl eq_refl)).
Defined.

(** ** A job without input files *)

Lemma step_n_reduce c o : n_reduce (step c o) = n_reduce c.
Proof.
  destruct o as [w now|w tid ok msg now|now]; simpl.
  - unfold _handle_task_request. by repeat case_match.
  - unfold _handle_task_completion, _check_phase_completion, update_task.
    by repeat case_match.
  - unfold _monitor_tasks_pass. by repeat case_match.
Qed.

(** X13.  With an empty list of input files the job never starts: whatever
    [n_reduce] is, as long as no [CompleteTask] call arrives (and no worker
    has a task to report on), the map phase is never declared complete,
    [done()] stays false, and every [RequestTask] is answered with WAIT. *)
Theorem no_input_files_only_wait (n : Z) (ops : list op) (w : string) (now : Q) :
  Forall (λ o, is_report o = false) ops →
  let c := run (init [] n) ops in
  map_phase_complete c = false
  ∧ done c = false
  ∧ (_handle_task_request w now c).2
    = Ok (Task_to_dict (mkTask (-1) WAIT [] "" n (-1) (-1))).
Proof.
  intros Hops c.
  assert (map_tasks c = [] ∧ map_phase_complete c = false
          ∧ all_tasks_complete c = false ∧ n_reduce c = n) as (Hm & Hp & Ha & Hn).
  { subst c.
    assert (map_tasks (init [] n) = [] ∧ map_phase_complete (init [] n) = false
            ∧ all_tasks_complete (init [] n) = false ∧ n_reduce (init [] n) = n)
      as Hinit by (by rewrite init_unfold).
    revert Hinit. generalize (init [] n).
    induction Hops as [|o ops Ho Hops IH]; intros c Hc; [done|].
    simpl. apply IH. destruct Hc as (Hm & Hp & Ha & Hn).
    rewrite step_n_reduce.
    destruct o as [w' now'|w' tid ok msg now'|now']; [|done|]; simpl.
    - unfold _handle_task_request, _get_available_task. simpl.
      rewrite Hp, Hm, Ha. by simpl.
    - unfold _monitor_tasks_pass. rewrite Ha, Hp, Hm. by simpl. }
  split; [done|]. split; [done|].
  unfold _handle_task_request, _get_available_task. simpl.
  rewrite Hp, Hm, Ha. simpl. unfold control_task. simpl. by rewrite Hn.
Qed.

Lemma no_input_files_only_wait_witness :
  let ops := [RequestTask "w1" 0%Q; MonitorPass 1%Q; RequestTask "w2" 2%Q] in
  Forall (λ o, is_report o = false) ops
  ∧ done (run (init [] 3) ops) = false
  ∧ (_handle_task_request "w1" 3%Q (run (init [] 3) ops)).2
    = Ok (Task_to_dict (mkTask (-1) WAIT [] "" 3 (-1) (-1))).
Proof.
  intros ops.
  assert (Forall (λ o, is_report o = false) ops) as H by (repeat constructor).
  split; [exact H|].
  exact (proj2 (no_input_files_only_wait 3 ops "w1" 3%Q H)).
Defined.

(** ** Completion without failure reports *)

Lemma first_idle_all_completed d :
  all_completed (od_values d) = true → first_idle (od_values d) = None.
Proof.
  intros H%all_completed_Forall. unfold od_values.
  induction H as [|[k ti] d Hti Hd IH]; csimpl; [done|].
  simpl in Hti. rewrite decide_False by congruence. done.
Qed.

Lemma all_completed_alter f k d :
  (∀ ti, status ti = COMPLETED → status (f ti) = COMPLETED) →
  all_completed (od_values d) = true →
  all_completed (od_values (od_alter f k d)) = true.
Proof.
  intros Hf H%all_completed_Forall. apply all_completed_Forall.
  apply od_alter_Forall; [|done]. intros k' ti. simpl. apply Hf.
Qed.

(** What [_handle_task_request] does, by cases on the task it finds. *)
Lemma handle_task_request_cases w now c :
  wf c →
  let c' := (_handle_task_request w now c).1 in
  let reply := (_handle_task_request w now c).2 in
  map_phase_complete c' = map_phase_complete c
  ∧ all_tasks_complete c' = all_tasks_complete c
  ∧ ((_get_available_task c = None
      ∧ map_tasks c' = map_tasks c ∧ reduce_tasks c' = reduce_tasks c
      ∧ reply = Ok (Task_to_dict
                      (mkTask (-1) (if all_tasks_complete c then EXIT else WAIT)
                         [] "" (n_reduce c) (-1) (-1))))
     ∨ (∃ ti, _get_available_task c = Some (task ti) ∧ status ti = IDLE
        ∧ reply = Ok (Task_to_dict (task ti))
        ∧ if map_phase_complete c
          then od_lookup (task_id (task ti)) (reduce_tasks c) = Some ti
               ∧ map_tasks c' = map_tasks c
               ∧ reduce_tasks c'
                 = od_alter (assign w now) (task_id (task ti)) (reduce_tasks c)
          else od_lookup (task_id (task ti)) (map_tasks c) = Some ti
               ∧ reduce_tasks c' = reduce_tasks c
               ∧ map_tasks c'
                 = od_alter (assign w now) (task_id (task ti)) (map_tasks c))).
Proof.
  intros Hwf c' reply. subst c' reply.
  destruct (handle_task_request_flags w now c) as [-> ->].
  split; [done|]. split; [done|].
  unfold _handle_task_request.
  change (_get_available_task (set_active_workers _ c))
    with (_get_available_task c).
  destruct (_get_available_task c) as [t|] eqn:Ht.
  - right. destruct (get_available_task_Some _ _ Hwf Ht) as (ti & <- & Hidle & Hphase).
    exists ti. split; [done|]. split; [done|].
    destruct (map_phase_complete c); destruct Hphase as [Hty Hlk]; simpl.
    + rewrite decide_False by congruence. rewrite Hlk. by simpl.
    + rewrite decide_True by done. rewrite Hlk. by simpl.
  - left. simpl. by destruct (all_tasks_complete c).
Qed.

Lemma completed_flags_check c :
  completed_flags c → completed_flags (_check_phase_completion c).
Proof.
  intros [K1 K2]. unfold _check_phase_completion.
  destruct (map_phase_complete c) eqn:Hp; simpl; rewrite ?Hp.
  - destruct (all_completed (od_values (reduce_tasks c))) eqn:Hr;
      split; simpl; rewrite ?Hp; intros; naive_solver.
  - destruct (all_completed (od_values (map_tasks c))) eqn:Hm; simpl.
    + destruct (all_completed (od_values (reduce_tasks c))) eqn:Hr;
        split; simpl; intros; naive_solver.
    + rewrite Hp. split; simpl; rewrite ?Hp; intros; naive_solver.
Qed.

Lemma completed_flags_step c o :
  wf c → failure_report o = false → completed_flags c →
  completed_flags (step c o).
Proof.
  intros Hwf Ho [J1 J2]. destruct o as [w now|w tid ok msg now|now]; simpl.
  - destruct (handle_task_request_cases w now c Hwf)
      as (Ep & Ea & [(_ & Em & Er & _)|(ti & Ht & Hidle & _ & Hphase)]);
      unfold completed_flags; rewrite Ep, Ea.
    { by rewrite Em, Er. }
    unfold _get_available_task in Ht.
    destruct (map_phase_complete c) eqn:Hp; simpl in Ht.
    + destruct Hphase as (_ & -> & _). split; [done|]. intros Ha.
      rewrite first_idle_all_completed in Ht by auto. done.
    + destruct Hphase as (_ & -> & _). split; [done|]. intros Ha.
      apply (wf_flags _ Hwf) in Ha. congruence.
  - simpl in Ho. destruct ok; [|done]. unfold _handle_task_completion.
    destruct (find_task tid c); [|done]. simpl.
    assert (completed_flags (update_task (mark_completed now) tid c)) as K.
    { unfold update_task. destruct (od_lookup tid (map_tasks c)); split; simpl;
        auto using all_completed_alter. }
    by apply completed_flags_check.
  - destruct (monitor_pass_flags now c) as [Ep Ea].
    unfold completed_flags. rewrite Ep, Ea. unfold _monitor_tasks_pass.
    destruct (all_tasks_complete c) eqn:Ha; [by split|].
    destruct (map_phase_complete c) eqn:Hp; simpl; by split.
Qed.

(** X14.  In a run without failure reports the flags tell the truth: when
    [map_phase_complete] is set every map task is COMPLETED, and when
    [done()] is true every task of the job is COMPLETED. *)
Theorem done_means_all_completed (files : list string) (n : Z) (ops : list op) :
  Forall (λ o, failure_report o = false) ops →
  let c := run (init files n) ops in
  (map_phase_complete c = true →
   Forall (λ e, status e.2 = COMPLETED) (map_tasks c))
  ∧ (done c = true →
     ∀ tid ti, find_task tid c = Some ti → status ti = COMPLETED).
Proof.
  intros Hops c.
  assert (wf c ∧ completed_flags c) as [Hwf [J1 J2]].
  { subst c. assert (wf (init files n) ∧ completed_flags (init files n)) as Hinit.
    { split; [apply wf_init|]. rewrite init_unfold. by split. }
    revert Hinit. generalize (init files n).
    induction Hops as [|o ops Ho Hops IH]; intros c Hc; [done|].
    simpl. apply IH. destruct Hc as [Hwf HJ].
    split; [by apply wf_step|by apply completed_flags_step]. }
  split.
  - intros Hp. by apply all_completed_Forall, J1.
  - unfold done. intros Ha tid ti Hti.
    pose proof (wf_flags _ Hwf Ha) as Hp.
    apply J1, all_completed_Forall in Hp. apply J2, all_completed_Forall in Ha.
    unfold find_task in Hti.
    destruct (od_lookup tid (map_tasks c)) as [ti'|] eqn:Hlk.
    + injection Hti as ->. apply od_lookup_elem_of in Hlk.
      by eapply Forall_forall in Hp; [|exact Hlk].
    + apply od_lookup_elem_of in Hti.
      by eapply Forall_forall in Ha; [|exact Hti].
Qed.

Lemma done_means_all_completed_witness :
  let ops := [RequestTask "w1" 0%Q; CompleteTask "w1" 0 true "" 1%Q;
              RequestTask "w1" 2%Q; CompleteTask "w1" 1 true "" 3%Q] in
  let c := run (init ["a.txt"] 1) ops in
  (Forall (λ o, failure_report o = false) ops ∧ done c = true)
  ∧ ∀ tid ti, find_task tid c = Some ti → status ti = COMPLETED.
Proof.
  intros ops c.
  assert (Forall (λ o, failure_report o = false) ops) as H by (repeat constructor).
  split; [split; [exact H|reflexivity]|].
  exact (proj2 (done_means_all_completed ["a.txt"] 1 ops H) eq_refl).
Defined.

(** ** Which task a request gets *)

Lemma seqZ_split (a m : Z) (l1 l2 : list Z) (k : Z) :
  seqZ a m = l1 ++ k :: l2 →
  Forall (λ x : Z, (x < k)%Z) l1 ∧ Forall (λ x : Z, (k < x)%Z) l2.
Proof.
  intros H.
  assert (k = a + Z.of_nat (length l1)) as ->.
  { assert (seqZ a m !! length l1 = Some k) as Hk
      by (by rewrite H, list_lookup_middle).
    by apply lookup_seqZ in Hk as [-> _]. }
  split; apply Forall_lookup; intros i x Hi.
  - assert (seqZ a m !! i = Some x) as Hx
      by (by rewrite H, lookup_app_l by by eapply lookup_lt_Some).
    apply lookup_seqZ in Hx as [-> _]. apply lookup_lt_Some in Hi. lia.
  - assert (seqZ a m !! (length l1 + S i)%nat = Some x) as Hx.
    { rewrite H, lookup_app_r by lia.
      replace (length l1 + S i - length l1)%nat with (S i) by lia. done. }
    apply lookup_seqZ in Hx as [-> _]. lia.
Qed.

Lemma first_idle_split (d : list (Z * TaskInfo)) :
  match first_idle (od_values d) with
  | Some t =>
      ∃ l1 k ti l2, d = l1 ++ (k, ti) :: l2
        ∧ Forall (λ e, status e.2 ≠ IDLE) l1 ∧ status ti = IDLE ∧ task ti = t
  | None => Forall (λ e, status e.2 ≠ IDLE) d
  end.
Proof.
  unfold od_values. induction d as [|[k ti] d IH]; csimpl; [constructor|].
  destruct (decide (status ti = IDLE)) as [Hs|Hs].
  - exists [], k, ti, d. by repeat split.
  - destruct (first_idle d.*2) as [t|].
    + destruct IH as (l1 & k' & ti' & l2 & -> & Hl1 & Hs' & Ht).
      exists ((k, ti) :: l1), k', ti', l2. split; [done|].
      split; [by constructor|done].
    + by constructor.
Qed.

(** The idle task found first is the idle task with the lowest id. *)
Lemma first_idle_lowest (a m : Z) (d : list (Z * TaskInfo)) (t : Task) :
  d.*1 = seqZ a m → Forall (λ e, task_id (task e.2) = e.1) d →
  first_idle (od_values d) = Some t →
  ∀ tid' ti', tid' < task_id t → od_lookup tid' d = Some ti' → status ti' ≠ IDLE.
Proof.
  intros Hkeys Hids Ht tid' ti' Hlt Hlk.
  pose proof (first_idle_split d) as Hsplit. rewrite Ht in Hsplit.
  destruct Hsplit as (l1 & k & ti & l2 & -> & Hl1 & Hs & <-).
  assert (task_id (task ti) = k) as Hk.
  { apply Forall_app in Hids as [_ Hids]. by apply Forall_cons in Hids as [? _]. }
  rewrite fmap_app, fmap_cons in Hkeys. symmetry in Hkeys.
  apply seqZ_split in Hkeys as [_ Habove]. simpl in Habove.
  apply od_lookup_elem_of, elem_of_app in Hlk as [Hin|Hin].
  - by eapply Forall_forall in Hl1; [|exact Hin].
  - apply elem_of_cons in Hin as [[= -> ->]|Hin]; [lia|].
    eapply Forall_forall in Habove; [|apply list_elem_of_fmap; by exists (tid', ti')].
    simpl in Habove. lia.
Qed.

Lemma run_n_reduce c ops : n_reduce (run c ops) = n_reduce c.
Proof.
  revert c. induction ops as [|o ops IH]; intros c; [done|].
  simpl. by rewrite IH, step_n_reduce.
Qed.

(** What a request gets in a state of a run: the lowest idle task of the
    current phase, or a control task. *)
Lemma request_task_cases (files : list string) (n : Z) (ops : list op)
    (w : string) (now : Q) :
  let c := run (init files n) ops in
  let c' := (_handle_task_request w now c).1 in
  let reply := (_handle_task_request w now c).2 in
  (∃ tid ti,
     od_lookup tid (phase_table c) = Some ti ∧ status ti = IDLE
     ∧ (∀ tid' ti', tid' < tid → od_lookup tid' (phase_table c) = Some ti' →
          status ti' ≠ IDLE)
     ∧ reply = Ok (Task_to_dict (task ti))
     ∧ find_task tid c'
       = Some (mkTaskInfo (task ti) IN_PROGRESS (Some w) (Some now)
                 (completion_time ti))
     ∧ ∀ tid', tid' ≠ tid → find_task tid' c' = find_task tid' c)
  ∨ (Forall (λ e, status e.2 ≠ IDLE) (phase_table c)
     ∧ reply = Ok (Task_to_dict
                     (mkTask (-1) (if all_tasks_complete c then EXIT else WAIT)
                        [] "" n (-1) (-1)))
     ∧ map_tasks c' = map_tasks c ∧ reduce_tasks c' = reduce_tasks c).
Proof.
  intros c c' reply.
  assert (wf c) as Hwf by apply wf_run, wf_init.
  destruct (run_keys files n ops) as [Hmk Hrk]. fold c in Hmk, Hrk.
  assert (n_reduce c = n) as Hn.
  { subst c. rewrite run_n_reduce. by rewrite init_unfold. }
  destruct (handle_task_request_cases w now c Hwf)
    as (_ & _ & [(Ht & Em & Er & Hreply)|(ti & Ht & Hidle & Hreply & Hphase)]);
    fold c' in Em, Er || fold c' in Hphase; fold reply in Hreply.
  - right. split; [|by rewrite Hreply, Hn].
    unfold _get_available_task in Ht. unfold phase_table.
    destruct (map_phase_complete c); simpl in Ht.
    + pose proof (first_idle_split (reduce_tasks c)) as H. by rewrite Ht in H.
    + pose proof (first_idle_split (map_tasks c)) as H. by rewrite Ht in H.
  - left. exists (task_id (task ti)), ti.
    unfold _get_available_task in Ht. unfold phase_table, find_task.
    destruct (map_phase_complete c); simpl in Ht;
      destruct Hphase as (Hlk & Esame & Ealt); rewrite Esame, Ealt.
    + split; [done|]. split; [done|]. split.
      { eapply first_idle_lowest; [exact Hrk| |exact Ht].
        eapply Forall_impl; [apply (wf_reduce_entries _ Hwf)|]. by intros ? []. }
      split; [done|].
      assert (od_lookup (task_id (task ti)) (map_tasks c) = None) as Hnone.
      { apply od_lookup_fresh. rewrite Hmk. intros H1%elem_of_seqZ.
        assert (task_id (task ti) ∈ (reduce_tasks c).*1) as H2
          by (apply od_lookup_is_Some; by eexists).
        rewrite Hrk in H2. apply elem_of_seqZ in H2. lia. }
      split.
      * rewrite Hnone, od_lookup_alter, decide_True by done. by rewrite Hlk.
      * intros tid' Hne. by rewrite od_lookup_alter, decide_False by done.
    + split; [done|]. split; [done|]. split.
      { eapply first_idle_lowest; [exact Hmk| |exact Ht].
        eapply Forall_impl; [apply (wf_map_entries _ Hwf)|]. by intros ? []. }
      split; [done|]. split.
      * rewrite od_lookup_alter, decide_True by done. by rewrite Hlk.
      * intros tid' Hne. by rewrite od_lookup_alter, decide_False by done.
Qed.

(** X15.  What a [RequestTask] call gets, in any state of a run.  If the
    table of the current phase has an IDLE task, the reply is the task with
    the lowest id among the IDLE ones; that task becomes IN_PROGRESS, leased
    to the caller from the time of the call, and no other task changes.
    Otherwise no task changes and the reply is the control task EXIT if
    [all_tasks_complete] is set and WAIT if not.  (So an IDLE task of the
    current phase is handed out even when [all_tasks_complete] is set.) *)
Theorem request_task_outcome (files : list string) (n : Z) (ops : list op)
    (w : string) (now : Q) :
  let c := run (init files n) ops in
  let c' := (_handle_task_request w now c).1 in
  let reply := (_handle_task_request w now c).2 in
  (∃ tid ti,
     od_lookup tid (phase_table c) = Some ti ∧ status ti = IDLE
     ∧ (∀ tid' ti', tid' < tid → od_lookup tid' (phase_table c) = Some ti' →
          status ti' ≠ IDLE)
     ∧ reply = Ok (Task_to_dict (task ti))
     ∧ find_task tid c'
       = Some (mkTaskInfo (task ti) IN_PROGRESS (Some w) (Some now)
                 (completion_time ti))
     ∧ ∀ tid', tid' ≠ tid → find_task tid' c' = find_task tid' c)
  ∨ (Forall (λ e, status e.2 ≠ IDLE) (phase_table c)
     ∧ reply = Ok (Task_to_dict
                     (mkTask (-1) (if all_tasks_complete c then EXIT else WAIT)
                        [] "" n (-1) (-1)))
     ∧ map_tasks c' = map_tasks c ∧ reduce_tasks c' = reduce_tasks c).
Proof. apply request_task_cases. Qed.

End CoordinatorFacts.

(* ===================================================================== *)
(** * More of worker.py and of the file helpers of mapreduce.py *)
(* ===================================================================== *)

Module WorkerFacts.
Import MapReduce Worker FileProtocol WorkerCoverage WorkerProofs.

Lemma temp_name_ne (path : string) : temp_name path ≠ path.
Proof.
  unfold temp_name. intros H. apply (f_equal String.length) in H.
  assert (∀ s t, String.length (s +:+ t) = (String.length s + String.length t)%nat)
    as Hlen by (intros s t; induction s as [|c s IH]; [done|];
                change (S (String.length (s +:+ t)) = S (String.length s + String.length t));
                by rewrite IH).
  rewrite Hlen in H. simpl in H. lia.
Qed.

Lemma world_eta (w : World) : mkWorld (fs w) (denied w) (log w) = w.
Proof. by destruct w. Qed.

Lemma bind_eq {A B} (m : M A) (f : A → M B) w w1 r :
  m w = (w1, r) →
  (m ≫= f) w = match r with Ok a => f a w1 | Raise e => (w1, Raise e) end.
Proof. unfold mbind, M_bind. by intros ->. Qed.

Section WithRuntime.
Context (rt : Runtime).

(** ** Reading a file of pairs *)

Lemma read_key_values_from_file_missing filename w :
  fs w !! filename = None →
  read_key_values_from_file rt filename w = (w, Ok []).
Proof.
  intros H. unfold read_key_values_from_file, try_except, open_read, mbind, M_bind.
  by rewrite H.
Qed.


Lemma read_step (acc : list KeyValue) (l : string) w :
  read_body rt acc l w
  = (w, if decide (strip rt l = "") then Ok acc
        else match decode_line rt (strip rt l) with
             | Ok kv => Ok (acc ++ [kv])
             | Raise e => Raise e
             end).
Proof.
  cbv zeta. repeat case_decide; try done.
  unfold mbind, M_bind, lift, decode_line.
  destruct (json_loads rt (strip rt l)) as [data|e]; [|reflexivity].
  destruct (KeyValue_from_dict data); reflexivity.
Qed.

Lemma read_loop_ok (lines : list string) (acc kvs : list KeyValue) w :
  Forall2 (λ line kv, decode_line rt line = Ok kv)
    (filter (λ line, line ≠ "") (strip rt <$> lines)) kvs →
  for_fold lines acc (read_body rt) w = (w, Ok (acc ++ kvs)).
Proof.
  revert acc kvs. induction lines as [|l lines IH]; intros acc kvs.
  - intros ->%Forall2_nil_inv_l. simpl. by rewrite app_nil_r.
  - rewrite fmap_cons, filter_cons.
    change (for_fold (l :: lines) acc (read_body rt))
      with (read_body rt acc l ≫= λ acc', for_fold lines acc' (read_body rt)).
    rewrite (bind_eq _ _ _ _ _ (read_step acc l w)).
    destruct (decide (strip rt l = "")) as [He|Hne].
    + rewrite decide_False by naive_solver. apply IH.
    + rewrite decide_True by done.
      intros (kv & kvs' & Hkv & Hrest & ->)%Forall2_cons_inv_l.
      rewrite Hkv, (IH (acc ++ [kv]) kvs' Hrest). by rewrite <-app_assoc.
Qed.

Lemma read_loop_bad (lines : list string) (acc : list KeyValue) w :
  Exists (λ line, ∀ kv, decode_line rt line ≠ Ok kv)
    (filter (λ line, line ≠ "") (strip rt <$> lines)) →
  ∃ e, for_fold lines acc (read_body rt) w = (w, Raise e).
Proof.
  revert acc. induction lines as [|l lines IH]; intros acc.
  - by intros ?%Exists_nil.
  - rewrite fmap_cons, filter_cons.
    change (for_fold (l :: lines) acc (read_body rt))
      with (read_body rt acc l ≫= λ acc', for_fold lines acc' (read_body rt)).
    rewrite (bind_eq _ _ _ _ _ (read_step acc l w)).
    destruct (decide (strip rt l = "")) as [He|Hne].
    + rewrite decide_False by naive_solver. apply IH.
    + rewrite decide_True by done. intros [Hbad|Hrest]%Exists_cons.
      * destruct (decode_line rt (strip rt l)) as [kv|e]; [|by eexists].
        by destruct (Hbad kv).
      * destruct (decode_line rt (strip rt l)) as [kv|e]; [|by eexists].
        by apply IH.
Qed.

(** X16.  [read_key_values_from_file] never raises and changes nothing.  It
    returns the empty list for a path that does not exist.  For a file that
    exists it returns the decoded pairs of the non-empty stripped lines, in
    line order, when every such line decodes; and the empty list as soon as
    one of them does not (the JSON parser raises, or a member [key] or
    [value] is missing): the pairs of the lines before it are dropped with
    it. *)
Theorem read_key_values_from_file_outcome (filename : string) (w : World) :
  (∃ kvs, read_key_values_from_file rt filename w = (w, Ok kvs))
  ∧ (fs w !! filename = None →
       read_key_values_from_file rt filename w = (w, Ok []))
  ∧ ∀ contents, fs w !! filename = Some contents →
      (∀ kvs,
         Forall2 (λ line kv, decode_line rt line = Ok kv)
           (nonblank_lines rt contents) kvs →
         read_key_values_from_file rt filename w = (w, Ok kvs))
      ∧ (Exists (λ line, ∀ kv, decode_line rt line ≠ Ok kv)
           (nonblank_lines rt contents) →
         read_key_values_from_file rt filename w = (w, Ok [])).
Proof.
  split; [apply read_key_values_from_file_run|].
  split; [apply read_key_values_from_file_missing|].
  intros contents Hfile.
  unfold read_key_values_from_file, try_except, nonblank_lines.
  erewrite bind_run; [|unfold open_read; by rewrite Hfile]. split.
  - intros kvs H. by rewrite (read_loop_ok _ [] kvs w H).
  - intros H. by destruct (read_loop_bad _ [] w H) as [e ->].
Qed.


Lemma read_all_step (acc : list KeyValue) (f : string) w :
  read_all_body rt acc f w = (w, Ok (acc ++ file_pairs rt w f)).
Proof.
  unfold mbind at 1, M_bind at 1, os_path_exists. cbv beta.
  unfold file_pairs. destruct (bool_decide _) eqn:Hex.
  - destruct (read_key_values_from_file_run rt f w) as [kvs Hr].
    rewrite (bind_eq _ _ _ _ _ Hr), Hr. reflexivity.
  - rewrite read_key_values_from_file_missing.
    + simpl. by rewrite app_nil_r.
    + apply bool_decide_eq_false in Hex. by apply eq_None_not_Some.
Qed.

Lemma read_all_key_values_eq (task : Task) (w : World) :
  read_all_key_values rt task w
  = (w, Ok (input_files task ≫= file_pairs rt w)).
Proof.
  unfold read_all_key_values.
  change (input_files task ≫= file_pairs rt w)
    with ([] ++ (input_files task ≫= file_pairs rt w)).
  generalize (@nil KeyValue).
  induction (input_files task) as [|f fs' IH]; intros acc.
  - simpl. by rewrite app_nil_r.
  - rewrite bind_cons.
    change (for_fold (f :: fs') acc (read_all_body rt))
      with (read_all_body rt acc f ≫= λ acc', for_fold fs' acc' (read_all_body rt)).
    rewrite (bind_eq _ _ _ _ _ (read_all_step acc f w)), IH.
    by rewrite <-app_assoc.
Qed.

(** X17.  The pairs a reduce task works on are those of its input files,
    file after file in the order of [input_files]; a file that does not
    exist, or that does not decode, adds nothing.  Reading them never raises
    and changes nothing. *)
Theorem read_all_key_values_concat (task : Task) (w : World) :
  read_all_key_values rt task w
  = (w, Ok (input_files task ≫= file_pairs rt w)).
Proof. apply read_all_key_values_eq. Qed.

(** ** Reduce *)


Lemma reduce_loop_run (self : Worker) (temp : string)
    (grouped : list (string * list string)) w :
  for_each grouped (reduce_body self temp) w
  = (mkWorld
       (alter (λ old, old +:+ (written_lines (map_reduce_app self) grouped).1)
          temp (fs w))
       (denied w) (log w),
     (written_lines (map_reduce_app self) grouped).2).
Proof.
  revert w. induction grouped as [|[k vs] grouped IH]; intros w.
  - simpl. unfold mret, M_ret. f_equal. rewrite <-(world_eta w) at 1. f_equal.
    symmetry. apply alter_id. intros x _. apply string_app_nil_r.
  - change (for_each ((k, vs) :: grouped) (reduce_body self temp))
      with (reduce_body self temp (k, vs);; for_each grouped (reduce_body self temp)).
    simpl written_lines. unfold reduce_line. simpl fst. simpl snd.
    destruct (reduce_func (map_reduce_app self) k vs) as [r|e].
    + erewrite bind_run; [|reflexivity]. rewrite IH. simpl. f_equal. f_equal.
      rewrite alter_twice. apply alter_ext. intros x _. simpl.
      by rewrite !string_app_assoc.
    + erewrite bind_raise; [|reflexivity]. simpl. f_equal.
      rewrite <-(world_eta w) at 1. f_equal.
      symmetry. apply alter_id. intros x _. apply string_app_nil_r.
Qed.

(** What a reduce attempt does, case by case. *)
Lemma execute_reduce_task_run (self : Worker) (task : Task) (w : World) :
  let out := output_file task in
  let kvs := input_files task ≫= file_pairs rt w in
  let r := written_lines (map_reduce_app self) (group_by_key (sort_key_values kvs)) in
  _execute_reduce_task rt self task w
  = match kvs with
    | [] =>
        if decide (out ∈ denied w) then (w, false)
        else (mkWorld (<[out := ""]> (fs w)) (denied w) (log w ++ [OpenW out]),
              true)
    | _ :: _ =>
        if decide (temp_name out ∈ denied w) then (w, false)
        else
          match r.2 with
          | Ok _ =>
              (mkWorld (<[out := r.1]> (delete (temp_name out) (fs w)))
                 (denied w)
                 (log w ++ [OpenW (temp_name out); Rename (temp_name out) out]),
               true)
          | Raise _ =>
              (mkWorld (<[temp_name out := r.1]> (fs w)) (denied w)
                 (log w ++ [OpenW (temp_name out)]),
               false)
          end
    end.
Proof.
  intros out kvs r.
  unfold _execute_reduce_task, returns_true, _execute_reduce_task_body.
  rewrite (bind_eq _ _ _ _ _ (read_all_key_values_eq task w)).
  fold kvs out. destruct kvs as [|kv kvs'] eqn:Hkvs.
  - unfold open_write. by case_decide.
  - change (out +:+ ".tmp") with (temp_name out).
    set (g := group_by_key (sort_key_values (kv :: kvs'))) in *. clearbody g.
    case_decide as Hd.
    + erewrite bind_raise; [done|].
      unfold open_write. by rewrite decide_True.
    + erewrite bind_run; [|unfold open_write; by rewrite decide_False].
      rewrite (bind_eq _ _ _ _ _ (reduce_loop_run self _ _ _)).
      fold r. simpl. rewrite alter_insert_eq. simpl.
      destruct (r.2) as [[]|e].
      * unfold os_rename. simpl. rewrite lookup_insert_eq, delete_insert_eq.
        by rewrite <-app_assoc.
      * done.
Qed.

Lemma written_lines_ok (app : MapReduceApp) (groups : list (string * list string))
    (lines : list string) :
  Forall2 (λ g line, reduce_line app g = Ok line) groups lines →
  written_lines app groups = (text lines, Ok ()).
Proof.
  induction 1 as [|g line groups lines Hg _ IH]; [done|].
  simpl. by rewrite Hg, IH.
Qed.

Lemma written_lines_Ok (app : MapReduceApp) (groups : list (string * list string)) :
  (∃ u, (written_lines app groups).2 = Ok u)
  ↔ Forall (λ g, ∃ line, reduce_line app g = Ok line) groups.
Proof.
  induction groups as [|g groups IH]; simpl.
  - split; [constructor|by eexists].
  - destruct (reduce_line app g) as [line|e] eqn:Hg; simpl.
    + rewrite IH. split.
      * intros H. constructor; [by eexists|done].
      * by intros [_ H]%Forall_cons.
    + split; [by intros [? [=]]|]. intros [[? Hl] _]%Forall_cons. congruence.
Qed.

(** X18.  A reduce task that read at least one pair, can open
    [output.tmp] for writing, and whose reductions all return: it succeeds;
    it has opened [output.tmp] and then renamed it onto the output path, and
    done nothing else to the directory; the output file holds one line
    [key result] per group of the sorted pairs, in the order of the groups,
    and nothing else; no [output.tmp] is left. *)
Theorem execute_reduce_task_writes_groups (self : Worker) (task : Task)
    (w : World) (lines : list string) :
  let out := output_file task in
  let kvs := input_files task ≫= file_pairs rt w in
  kvs ≠ [] →
  temp_name out ∉ denied w →
  Forall2 (λ g line, reduce_line (map_reduce_app self) g = Ok line)
    (group_by_key (sort_key_values kvs)) lines →
  _execute_reduce_task rt self task w
  = (mkWorld (<[out := text lines]> (delete (temp_name out) (fs w))) (denied w)
       (log w ++ [OpenW (temp_name out); Rename (temp_name out) out]),
     true).
Proof.
  intros out kvs Hne Hd Hlines. rewrite execute_reduce_task_run.
  fold out kvs. destruct kvs as [|kv kvs']; [done|].
  rewrite decide_False by done.
  by rewrite (written_lines_ok _ _ _ Hlines).
Qed.

(** X19.  When a reduce task returns True: exactly when either it read no
    pair and the output path can be opened for writing, or it read some,
    [output.tmp] can be opened for writing and the application's reduce
    function returns for every group. *)
Theorem execute_reduce_task_succeeds_iff (self : Worker) (task : Task)
    (w : World) :
  let out := output_file task in
  let kvs := input_files task ≫= file_pairs rt w in
  (_execute_reduce_task rt self task w).2 = true
  ↔ (kvs = [] ∧ out ∉ denied w)
    ∨ (kvs ≠ [] ∧ (temp_name out ∉ denied w)
       ∧ Forall (λ g, ∃ line, reduce_line (map_reduce_app self) g = Ok line)
           (group_by_key (sort_key_values kvs))).
Proof.
  intros out kvs. rewrite execute_reduce_task_run. fold out kvs.
  rewrite <-written_lines_Ok.
  set (r := written_lines _ _). clearbody r.
  destruct kvs as [|kv kvs']; case_decide as Hd; simpl.
  - split; [done|]. by intros [[_ ?]|[? _]].
  - split; [|done]. intros _. by left.
  - split; [done|]. by intros [[? _]|(_ & ? & _)].
  - destruct (r.2) as [[]|e]; simpl.
    + split; [|done]. intros _. right. split; [done|]. split; [done|by eexists].
    + split; [done|]. by intros [[? _]|(_ & _ & [u ?])].
Qed.

(** X20.  What a reduce attempt can change.  Whatever its outcome, only
    the output path and [output.tmp] can differ afterwards.  An attempt
    that returns False has not touched the output file; if it had pairs to
    reduce and could open [output.tmp], it has left that file behind.  An
    attempt that returns True leaves the output file in place, and no
    [output.tmp] if it had pairs to reduce. *)
Theorem execute_reduce_task_footprint (self : Worker) (task : Task) (w : World) :
  let out := output_file task in
  let kvs := input_files task ≫= file_pairs rt w in
  let w' := (_execute_reduce_task rt self task w).1 in
  let ok := (_execute_reduce_task rt self task w).2 in
  denied w' = denied w
  ∧ (∀ p, p ≠ out → p ≠ temp_name out → fs w' !! p = fs w !! p)
  ∧ (ok = false → fs w' !! out = fs w !! out)
  ∧ (ok = false → kvs ≠ [] → temp_name out ∉ denied w →
       is_Some (fs w' !! temp_name out))
  ∧ (ok = true → is_Some (fs w' !! out))
  ∧ (ok = true → kvs ≠ [] → fs w' !! temp_name out = None).
Proof.
  intros out kvs w' ok. subst w' ok. rewrite execute_reduce_task_run.
  fold out kvs. set (r := written_lines _ _). clearbody r.
  pose proof (temp_name_ne out) as Hne.
  destruct kvs as [|kv kvs']; case_decide as Hd; simpl.
  - repeat split; done.
  - split; [done|]. split; [intros p Hp _; by rewrite lookup_insert_ne|].
    split; [done|]. split; [done|].
    split; [intros _; rewrite lookup_insert_eq; eauto|done].
  - repeat split; done.
  - destruct (r.2) as [[]|e]; simpl.
    + split; [done|].
      split; [intros p Hp Hp'; by rewrite lookup_insert_ne, lookup_delete_ne|].
      split; [done|]. split; [done|].
      split; [intros _; rewrite lookup_insert_eq; eauto|].
      intros _ _. rewrite lookup_insert_ne by done. apply lookup_delete_eq.
    + split; [done|].
      split; [intros p Hp Hp'; by rewrite lookup_insert_ne|].
      split; [intros _; by rewrite lookup_insert_ne|].
      split; [intros _ _ _; rewrite lookup_insert_eq; eauto|done].
Qed.

(** ** Map *)

Lemma for_each_app {A} (xs ys : list A) (body : A → M unit) w :
  for_each (xs ++ ys) body w = (for_each xs body ≫= λ _, for_each ys body) w.
Proof.
  revert w. induction xs as [|x xs IH]; intros w; [done|].
  simpl. unfold mbind, M_bind. destruct (body x w) as [w1 [[]|e]]; [|done].
  apply IH.
Qed.

Lemma partition_step_run (task : Task) (b0 : list (list KeyValue))
    (kv : KeyValue) w :
  0 < n_reduce task → length b0 = Z.to_nat (n_reduce task) →
  partition_step rt task b0 kv w
  = (w, Ok (alter (λ xs, xs ++ [kv])
              (Z.to_nat (ihash (hash rt) (key kv) `mod` n_reduce task)) b0)).
Proof.
  intros HR Hlen. unfold partition_step.
  erewrite bind_run; [|unfold lift, py_mod; by rewrite decide_False by lia].
  unfold lift, py_append_at. cbv zeta. rewrite Hlen.
  assert (0 ≤ ihash (hash rt) (key kv) `mod` n_reduce task < n_reduce task)
    as Hh by (apply Z.mod_pos_bound; lia).
  rewrite (decide_False (P := _ < 0)) by lia.
  by rewrite decide_True by lia.
Qed.

Lemma partition_succeeds (task : Task) (kvs : list KeyValue)
    (b0 : list (list KeyValue)) w :
  0 < n_reduce task → length b0 = Z.to_nat (n_reduce task) →
  ∃ b, for_fold kvs b0 (partition_step rt task) w = (w, Ok b).
Proof.
  intros HR. revert b0. induction kvs as [|kv kvs IH]; intros b0 Hlen;
    [by eexists|].
  simpl. erewrite bind_run; [|by apply partition_step_run].
  apply IH. by rewrite length_alter.
Qed.

Lemma buckets_lookup (R j : Z) (kvs : list KeyValue) :
  0 ≤ j < R → buckets rt R kvs !! Z.to_nat j = Some (bucket rt R j kvs).
Proof.
  intros Hj. unfold buckets. rewrite list_lookup_fmap, lookup_seqZ_lt by lia.
  simpl. by rewrite Z2Nat.id by lia.
Qed.

Lemma partition_total (task : Task) (kvs : list KeyValue) w :
  0 < n_reduce task →
  for_fold kvs ((λ _, []) <$> seqZ 0 (n_reduce task)) (partition_step rt task) w
  = (w, Ok (buckets rt (n_reduce task) kvs)).
Proof.
  intros HR.
  assert (length ((λ _ : Z, @nil KeyValue) <$> seqZ 0 (n_reduce task))
          = Z.to_nat (n_reduce task)) as Hlen
    by (by rewrite length_fmap, length_seqZ).
  destruct (partition_succeeds task kvs _ w HR Hlen) as [b Hb].
  rewrite Hb. do 2 f_equal.
  destruct (partition_run rt task kvs _ b w w Hb Hlen) as (_ & Hlenb & Hlk).
  apply list_eq. intros i.
  destruct (decide (Z.of_nat i < n_reduce task)) as [Hi|Hi].
  - specialize (Hlk (Z.of_nat i)). rewrite Nat2Z.id in Hlk.
    rewrite Hlk by lia. rewrite list_lookup_fmap, lookup_seqZ_lt by lia. simpl.
    rewrite <-(Nat2Z.id i) at 2. by rewrite buckets_lookup by lia.
  - rewrite lookup_ge_None_2 by lia.
    unfold buckets. rewrite list_lookup_fmap, lookup_seqZ_ge by lia. done.
Qed.

Lemma partition_fails (task : Task) (kv : KeyValue) (kvs : list KeyValue) w :
  n_reduce task ≤ 0 →
  for_fold (kv :: kvs) ((λ _, []) <$> seqZ 0 (n_reduce task))
    (partition_step rt task) w
  = (w, Raise (if decide (n_reduce task = 0) then ZeroDivisionError
               else IndexError)).
Proof.
  intros HR. rewrite seqZ_nil by done. simpl.
  erewrite bind_raise; [done|]. unfold partition_step, lift, py_mod.
  case_decide as H0.
  - by erewrite bind_raise.
  - erewrite bind_run; [|done]. unfold py_append_at. cbv zeta. simpl length.
    rewrite (decide_False (P := 0 ≤ _ < _)); [done|].
    case_decide; lia.
Qed.

Lemma concat_nils {A B} (l : list A) : concat ((λ _, @nil B) <$> l) = [].
Proof. induction l; [done|]. done. Qed.

Lemma concat_insert_one {A} (f : Z → list A) (h : Z) (x : A) (js : list Z) :
  NoDup js → h ∈ js →
  concat ((λ j, if decide (h = j) then x :: f j else f j) <$> js)
  ≡ₚ x :: concat (f <$> js).
Proof.
  induction js as [|j js IH]; [by intros _ ?%elem_of_nil|].
  intros [Hnotin Hnd]%NoDup_cons Hin. csimpl.
  destruct (decide (h = j)) as [->|Hne].
  - assert ((λ j0, if decide (j = j0) then x :: f j0 else f j0) <$> js
            = f <$> js) as Heq.
    { apply list_fmap_ext. intros i j' Hj'.
      rewrite decide_False; [done|]. intros <-.
      apply Hnotin. by eapply list_elem_of_lookup_2. }
    by rewrite Heq.
  - apply elem_of_cons in Hin as [?|Hin]; [done|].
    rewrite IH by done. by rewrite Permutation_middle.
Qed.

Lemma buckets_partition (R : Z) (kvs : list KeyValue) :
  0 < R → concat (buckets rt R kvs) ≡ₚ kvs.
Proof.
  intros HR. unfold buckets. induction kvs as [|kv kvs IH].
  - change (concat ((λ _, @nil KeyValue) <$> seqZ 0 R) ≡ₚ []).
    by rewrite (concat_nils (B := KeyValue) (seqZ 0 R)).
  - set (h := ihash (hash rt) (key kv) `mod` R).
    assert ((λ j, bucket rt R j (kv :: kvs)) <$> seqZ 0 R
            = (λ j, if decide (h = j) then kv :: bucket rt R j kvs
                    else bucket rt R j kvs) <$> seqZ 0 R) as ->.
    { apply list_fmap_ext. intros i j _. by rewrite bucket_cons. }
    rewrite (concat_insert_one (λ j, bucket rt R j kvs) h kv (seqZ 0 R)).
    + by constructor.
    + apply NoDup_seqZ.
    + apply elem_of_seqZ. pose proof (Z.mod_pos_bound (ihash (hash rt) (key kv)) R).
      lia.
Qed.

(** X21.  The partitioning loop of [_execute_map_task] changes nothing in
    the directory.  With a positive partition count [R] it ends with the [R]
    buckets, bucket [j] holding the pairs whose key hashes to [j] modulo [R]
    in the order the map function emitted them, and every emitted pair is in
    exactly one bucket.  With no pair at all it ends with the initial
    buckets whatever [R] is.  With at least one pair it raises
    [ZeroDivisionError] if [R = 0] and [IndexError] if [R < 0]. *)
Theorem partition_loop_outcome (task : Task) (kvs : list KeyValue) (w : World) :
  let R := n_reduce task in
  let init := (λ _, []) <$> seqZ 0 R in
  let r := for_fold kvs init (partition_step rt task) w in
  r.1 = w
  ∧ (kvs = [] → r.2 = Ok init)
  ∧ (kvs ≠ [] → R = 0 → r.2 = Raise ZeroDivisionError)
  ∧ (kvs ≠ [] → R < 0 → r.2 = Raise IndexError)
  ∧ (0 < R →
       r.2 = Ok (buckets rt R kvs)
       ∧ (∀ j, 0 ≤ j < R →
            buckets rt R kvs !! Z.to_nat j
            = Some (filter (λ kv, ihash (hash rt) (key kv) `mod` R = j) kvs))
       ∧ concat (buckets rt R kvs) ≡ₚ kvs).
Proof.
  intros R init r. subst r init R.
  destruct (decide (0 < n_reduce task)) as [HR|HR].
  - rewrite partition_total by done. simpl.
    split; [done|]. split; [by intros ->|].
    split; [intros _ ?; lia|]. split; [intros _ ?; lia|]. intros _.
    split; [done|].
    split; [intros j Hj; by apply buckets_lookup|by apply buckets_partition].
  - destruct kvs as [|kv kvs].
    + simpl. split; [done|]. split; [done|]. split; [done|]. split; [done|].
      intros ?. lia.
    + rewrite partition_fails by lia. simpl.
      split; [done|]. split; [done|].
      split; [intros _ ?; by rewrite decide_True|].
      split; [intros _ ?; by rewrite decide_False by lia|]. intros ?. lia.
Qed.

(** What the [try] block of [_execute_map_task] does before it writes. *)
Lemma execute_map_task_body_cases (self : Worker) (task : Task) (w : World) :
  let R := n_reduce task in
  _execute_map_task_body rt self task w
  = match head (input_files task) with
    | None => (w, Raise IndexError)
    | Some input_file =>
        match fs w !! input_file with
        | None => (w, Raise (FileNotFoundError input_file))
        | Some contents =>
            match map_func (map_reduce_app self) input_file contents with
            | Raise e => (w, Raise e)
            | Ok kvs =>
                if decide (kvs = [] ∨ 0 < R) then
                  for_each (seqZ 0 R)
                    (write_intermediate_file rt task (buckets rt R kvs)) w
                else
                  (w, Raise (if decide (R = 0) then ZeroDivisionError
                             else IndexError))
            end
        end
    end.
Proof.
  intros R. unfold _execute_map_task_body.
  destruct (input_files task) as [|f fs'] eqn:Hin.
  { by erewrite bind_raise. }
  change (head (f :: fs')) with (Some f). cbv iota beta.
  erewrite bind_run; [|reflexivity].
  destruct (fs w !! f) as [contents|] eqn:Hfile.
  2:{ erewrite bind_raise; [done|]. unfold open_read. by rewrite Hfile. }
  erewrite bind_run; [|unfold open_read; by rewrite Hfile].
  destruct (map_func (map_reduce_app self) f contents) as [kvs|e] eqn:Hmap.
  2:{ by erewrite bind_raise. }
  erewrite bind_run; [|reflexivity].
  cbv zeta. fold R. case_decide as Hc.
  - destruct (decide (0 < R)) as [HR|HR].
    + by rewrite (bind_eq _ _ _ _ _ (partition_total task kvs w HR)).
    + destruct Hc as [->|?]; [|lia]. by erewrite bind_run.
  - destruct kvs as [|kv kvs]; [by destruct Hc; left|].
    by rewrite (bind_eq _ _ _ _ _ (partition_fails task kv kvs w ltac:(lia))).
Qed.

Lemma write_files_prefix (task : Task) (bs : list (list KeyValue))
    (js : list Z) w :
  let temp j := temp_name (intermediate_filename (map_task_id task) j) in
  Forall (λ j, 0 ≤ j ∧ is_Some (bs !! Z.to_nat j)) js →
  ∃ w' written rest,
    js = written ++ rest
    ∧ for_each written (write_intermediate_file rt task bs) w = (w', Ok ())
    ∧ Forall (λ j, temp j ∉ denied w) written
    ∧ (rest = []
         ∧ for_each js (write_intermediate_file rt task bs) w = (w', Ok ())
       ∨ ∃ j rest', rest = j :: rest' ∧ temp j ∈ denied w
           ∧ for_each js (write_intermediate_file rt task bs) w
             = (w', Raise (PermissionError (temp j)))).
Proof.
  intros temp Hjs. revert w.
  induction Hjs as [|j js [Hj [b Hb]] _ IH]; intros w.
  - exists w, [], []. split; [done|]. split; [done|]. split; [constructor|].
    by left.
  - pose proof (write_intermediate_file_run rt task bs j b w Hj Hb) as Hstep.
    cbv zeta in Hstep. fold (temp j) in Hstep.
    destruct (decide (temp j ∈ denied w)) as [Hd|Hd].
    + exists w, [], (j :: js). split; [done|]. split; [done|].
      split; [constructor|]. right. exists j, js. split; [done|]. split; [done|].
      simpl. by erewrite bind_raise.
    + match type of Hstep with _ = (?w1, _) => destruct (IH w1)
        as (w' & written & rest & -> & Hwritten & Hok & Hend) end.
      exists w', (j :: written), rest. split; [done|].
      split; [simpl; by erewrite bind_run|].
      split; [by constructor|].
      destruct Hend as [[-> Hall]|(j' & rest' & -> & Hd' & Hall)].
      * left. split; [done|]. simpl. by erewrite bind_run.
      * right. exists j', rest'. split; [done|]. split; [done|].
        simpl. by erewrite bind_run.
Qed.

Lemma seqZ_prefix (R : Z) (written rest : list Z) :
  seqZ 0 R = written ++ rest →
  let k := Z.of_nat (length written) in
  written = seqZ 0 k ∧ 0 ≤ k ≤ Z.max 0 R
  ∧ (rest = [] → k = Z.max 0 R)
  ∧ ∀ j rest', rest = j :: rest' → j = k ∧ k < R.
Proof.
  intros H k. subst k.
  assert (Z.to_nat R = (length written + length rest)%nat) as Hlen
    by (by rewrite <-length_seqZ with (m := 0), H, length_app).
  split; [|split; [lia|split]].
  - apply list_eq. intros i.
    destruct (decide (i < length written)%nat) as [Hi|Hi].
    + rewrite <-(lookup_app_l written rest), <-H by done.
      by rewrite !lookup_seqZ_lt by lia.
    + rewrite lookup_ge_None_2 by lia. by rewrite lookup_seqZ_ge by lia.
  - intros ->. simpl in Hlen. lia.
  - intros j rest' ->.
    assert (seqZ 0 R !! length written = Some j) as Hj
      by (by rewrite H, list_lookup_middle).
    apply lookup_seqZ in Hj. lia.
Qed.

Lemma Forall_buckets (R : Z) (kvs : list KeyValue) :
  Forall (λ j, 0 ≤ j ∧ is_Some (buckets rt R kvs !! Z.to_nat j)) (seqZ 0 R).
Proof.
  apply Forall_forall. intros j Hj%elem_of_seqZ.
  split; [lia|]. rewrite buckets_lookup by lia. eauto.
Qed.

(** The loop that writes the bucket files stops at the first temporary
    file it cannot open, having written the files before it. *)
Lemma write_files_outcome (task : Task) (R : Z) (kvs : list KeyValue) w :
  let temp j := temp_name (intermediate_filename (map_task_id task) j) in
  let write := write_intermediate_file rt task (buckets rt R kvs) in
  ∃ k w',
    0 ≤ k ≤ Z.max 0 R
    ∧ for_each (seqZ 0 k) write w = (w', Ok ())
    ∧ (∀ j, 0 ≤ j < k → temp j ∉ denied w)
    ∧ (k = Z.max 0 R ∧ for_each (seqZ 0 R) write w = (w', Ok ())
       ∨ k < R ∧ temp k ∈ denied w
         ∧ for_each (seqZ 0 R) write w = (w', Raise (PermissionError (temp k)))).
Proof.
  intros temp write.
  destruct (write_files_prefix task (buckets rt R kvs) (seqZ 0 R) w
              (Forall_buckets R kvs))
    as (w' & written & rest & Hsplit & Hwritten & Hok & Hend).
  destruct (seqZ_prefix R written rest Hsplit) as (Hpre & Hk & Hnil & Hcons).
  exists (Z.of_nat (length written)), w'. split; [done|].
  split; [by rewrite <-Hpre|]. split.
  - intros j Hj. rewrite Hpre in Hok.
    eapply Forall_forall in Hok; [exact Hok|]. apply elem_of_seqZ. lia.
  - destruct Hend as [[-> Hall]|(j & rest' & -> & Hd & Hall)].
    + left. split; [by apply Hnil|done].
    + right. destruct (Hcons j rest' eq_refl) as [-> Hlt]. by split.
Qed.

(** X22.  When a map task returns True: exactly when its first input file
    exists, the application's map function returns for it, the partition
    count is positive or no pair was emitted, and each of the temporary
    files [mr-m-j.tmp], [0 <= j < R], can be opened for writing. *)
Theorem execute_map_task_succeeds_iff (self : Worker) (task : Task) (w : World) :
  let m := map_task_id task in
  let R := n_reduce task in
  (_execute_map_task rt self task w).2 = true
  ↔ ∃ input_file contents kvs,
      head (input_files task) = Some input_file
      ∧ fs w !! input_file = Some contents
      ∧ map_func (map_reduce_app self) input_file contents = Ok kvs
      ∧ (kvs = [] ∨ 0 < R)
      ∧ ∀ j, 0 ≤ j < R → temp_name (intermediate_filename m j) ∉ denied w.
Proof.
  intros m R. unfold _execute_map_task, returns_true.
  rewrite execute_map_task_body_cases. fold R.
  destruct (head (input_files task)) as [f|];
    [|split; [done|by intros (? & ? & ? & [=] & _)]].
  destruct (fs w !! f) as [contents|] eqn:Hfile.
  2:{ split; [done|]. intros (? & ? & ? & [= <-] & ? & _). congruence. }
  destruct (map_func (map_reduce_app self) f contents) as [kvs|e] eqn:Hmap.
  2:{ split; [done|]. intros (? & ? & ? & [= <-] & ? & ? & _). congruence. }
  case_decide as Hc.
  2:{ split; [done|]. intros (? & c' & kvs' & [= <-] & Hf' & Hm' & ? & _).
      assert (c' = contents) as -> by congruence.
      assert (kvs' = kvs) as -> by congruence. done. }
  destruct (write_files_outcome task R kvs w)
    as (k & w' & Hk & _ & Hok & [[-> ->]|(Hlt & Hd & ->)]).
  - split; [|done]. intros _. exists f, contents, kvs.
    do 4 (split; [done|]). intros j Hj. apply Hok. lia.
  - split; [done|]. intros (? & ? & ? & _ & _ & _ & _ & Hall).
    destruct (Hall k); [lia|done].
Qed.

(** X23.  What a map attempt can change, whatever its outcome.  For some
    [k] from 0 to [R], it has opened and renamed [mr-m-j.tmp] for
    [j = 0, ..., k-1] in turn and nothing else; [k = R] if it returns True.
    Those [k] bucket files exist afterwards and their temporary files do
    not; every other file is as before.  In particular an attempt that
    fails before it writes changes nothing, and one that fails while
    writing leaves the bucket files it has already renamed in place. *)
Theorem execute_map_task_footprint (self : Worker) (task : Task) (w : World) :
  let m := map_task_id task in
  let R := n_reduce task in
  let w' := (_execute_map_task rt self task w).1 in
  let ok := (_execute_map_task rt self task w).2 in
  ∃ k, 0 ≤ k ≤ Z.max 0 R
    ∧ (ok = true → k = Z.max 0 R)
    ∧ log w' = log w ++ (seqZ 0 k ≫= bucket_events m)
    ∧ denied w' = denied w
    ∧ (∀ j, 0 ≤ j < k →
         is_Some (fs w' !! intermediate_filename m j)
         ∧ fs w' !! temp_name (intermediate_filename m j) = None)
    ∧ (∀ p, (∀ j, 0 ≤ j < k →
               p ≠ intermediate_filename m j
               ∧ p ≠ temp_name (intermediate_filename m j)) →
         fs w' !! p = fs w !! p).
Proof.
  intros m R w' ok. subst w' ok. unfold _execute_map_task, returns_true.
  rewrite execute_map_task_body_cases. fold R.
  assert (∃ k, 0 ≤ k ≤ Z.max 0 R
    ∧ ((w, false).2 = true → k = Z.max 0 R)
    ∧ log (w, false).1 = log w ++ (seqZ 0 k ≫= bucket_events m)
    ∧ denied (w, false).1 = denied w
    ∧ (∀ j, 0 ≤ j < k →
         is_Some (fs (w, false).1 !! intermediate_filename m j)
         ∧ fs (w, false).1 !! temp_name (intermediate_filename m j) = None)
    ∧ (∀ p, (∀ j, 0 ≤ j < k →
               p ≠ intermediate_filename m j
               ∧ p ≠ temp_name (intermediate_filename m j)) →
         fs (w, false).1 !! p = fs w !! p)) as Hearly.
  { exists 0. simpl. split; [lia|]. split; [done|].
    split; [by rewrite app_nil_r|]. split; [done|]. split; [intros; lia|done]. }
  destruct (head (input_files task)) as [f|]; [|by apply Hearly].
  destruct (fs w !! f) as [contents|]; [|by apply Hearly].
  destruct (map_func (map_reduce_app self) f contents) as [kvs|e];
    [|by apply Hearly].
  case_decide as Hc; [|by apply Hearly].
  destruct (write_files_outcome task R kvs w)
    as (k & w' & Hk & Hrun & _ & Hend).
  apply write_intermediate_files_run in Hrun
    as (Hlog & Hden & Hfiles & Htemp & _ & Hframe).
  2:{ apply Forall_forall. intros j Hj%elem_of_seqZ.
      split; [lia|]. rewrite buckets_lookup by lia. eauto. }
  2:{ apply NoDup_seqZ. }
  fold m in Hlog, Hfiles, Htemp, Hframe.
  assert (∀ okb : bool, (okb = true → k = Z.max 0 R) →
    ∃ k, 0 ≤ k ≤ Z.max 0 R
    ∧ ((w', okb).2 = true → k = Z.max 0 R)
    ∧ log (w', okb).1 = log w ++ (seqZ 0 k ≫= bucket_events m)
    ∧ denied (w', okb).1 = denied w
    ∧ (∀ j, 0 ≤ j < k →
         is_Some (fs (w', okb).1 !! intermediate_filename m j)
         ∧ fs (w', okb).1 !! temp_name (intermediate_filename m j) = None)
    ∧ (∀ p, (∀ j, 0 ≤ j < k →
               p ≠ intermediate_filename m j
               ∧ p ≠ temp_name (intermediate_filename m j)) →
         fs (w', okb).1 !! p = fs w !! p)) as Hlate.
  { intros okb Hokb. exists k. simpl. split; [done|]. split; [done|].
    split; [done|]. split; [done|]. split.
    - intros j Hj. assert (j ∈ seqZ 0 k) as Hin by (apply elem_of_seqZ; lia).
      split; [|by apply Htemp].
      rewrite (Hfiles j (bucket rt R j kvs) Hin); [eauto|].
      apply buckets_lookup. lia.
    - intros p Hp. apply Hframe. intros j Hj%elem_of_seqZ. apply Hp. lia. }
  destruct Hend as [[-> ->]|(Hlt & Hd & ->)].
  - by apply Hlate.
  - by apply Hlate.
Qed.

(** X24.  Running a map task again.  When a map attempt has returned True
    and the task's input file is none of the files the task writes, a second
    attempt on the directory the first one left returns True as well, goes
    through the same opens and renames, and leaves every file as the first
    attempt left it: re-executing a completed map task changes no file. *)
Theorem execute_map_task_again (self : Worker) (task : Task) (w w1 : World)
    (input_file : string) :
  let m := map_task_id task in
  let R := n_reduce task in
  _execute_map_task rt self task w = (w1, true) →
  head (input_files task) = Some input_file →
  (∀ j, 0 ≤ j < R →
     input_file ≠ intermediate_filename m j
     ∧ input_file ≠ temp_name (intermediate_filename m j)) →
  _execute_map_task rt self task w1
  = (mkWorld (fs w1) (denied w1) (log w1 ++ (seqZ 0 R ≫= bucket_events m)),
     true).
Proof.
  intros m R Hrun Hhead Hinput. revert Hrun.
  unfold _execute_map_task, returns_true.
  rewrite !execute_map_task_body_cases. fold R. rewrite Hhead.
  destruct (fs w !! input_file) as [contents|] eqn:Hfile; [|done].
  destruct (map_func (map_reduce_app self) input_file contents)
    as [kvs|e] eqn:Hmap; [|done].
  case_decide as Hc; [|done].
  destruct (write_files_outcome task R kvs w)
    as (k & w1' & Hk & _ & Hok & [[-> Hall]|(_ & _ & Hall)]);
    rewrite Hall; [|done]. intros [= ->].
  apply write_intermediate_files_run in Hall
    as (Hlog1 & Hden1 & Hfiles1 & Htemp1 & _ & Hframe1);
    [|apply Forall_buckets|apply NoDup_seqZ].
  fold m in Hlog1, Hfiles1, Htemp1, Hframe1.
  rewrite Hframe1, Hfile, Hmap by (intros j Hj%elem_of_seqZ; apply Hinput; lia).
  destruct (write_files_outcome task R kvs w1)
    as (k & w2 & Hk2 & _ & _ & [[-> Hall]|(Hlt & Hd & _)]).
  2:{ rewrite Hden1 in Hd. destruct (Hok k); [lia|done]. }
  rewrite Hall.
  apply write_intermediate_files_run in Hall
    as (Hlog2 & Hden2 & Hfiles2 & Htemp2 & _ & Hframe2);
    [|apply Forall_buckets|apply NoDup_seqZ].
  fold m in Hlog2, Hfiles2, Htemp2, Hframe2.
  rewrite decide_True by done. f_equal.
  rewrite <-(world_eta w2), Hlog2, Hden2. f_equal.
  apply map_eq. intros p.
  destruct (decide (p ∈ intermediate_filename m <$> seqZ 0 R)) as [Hin|Hn].
  { apply list_elem_of_fmap in Hin as (j & -> & Hj).
    pose proof Hj as Hj'%elem_of_seqZ.
    rewrite (Hfiles1 j (bucket rt R j kvs)), (Hfiles2 j (bucket rt R j kvs));
      (done || apply buckets_lookup; lia). }
  destruct (decide (p ∈ (λ j, temp_name (intermediate_filename m j)) <$> seqZ 0 R))
    as [Hin|Hnt].
  { apply list_elem_of_fmap in Hin as (j & -> & Hj).
    by rewrite Htemp1, Htemp2. }
  apply Hframe2. intros j Hj. split; intros ->.
  - apply Hn, list_elem_of_fmap. by exists j.
  - apply Hnt, list_elem_of_fmap. by exists j.
Qed.

(** ** Writing a file of pairs and reading it back *)

Lemma read_back (path : string) (kvs : list KeyValue) (w : World) :
  let line kv := json_dumps rt (KeyValue_to_dict kv) +:+ nl in
  fs w !! path = Some (ndjson rt kvs) →
  readlines rt (ndjson rt kvs) = line <$> kvs →
  Forall (λ kv, strip rt (line kv) ≠ ""
                ∧ json_loads rt (strip rt (line kv)) = Ok (KeyValue_to_dict kv))
    kvs →
  read_key_values_from_file rt path w = (w, Ok kvs).
Proof.
  intros line Hfile Hlines Hdec.
  unfold read_key_values_from_file, try_except.
  erewrite bind_run; [|unfold open_read; by rewrite Hfile].
  rewrite (read_loop_ok _ [] kvs); [done|].
  rewrite Hlines. clear Hlines Hfile.
  induction Hdec as [|kv kvs [Hne Hload] _ IH]; [constructor|].
  rewrite !fmap_cons, filter_cons, decide_True by done.
  constructor; [|done].
  unfold decode_line. rewrite Hload.
  destruct kv as [k v]. unfold KeyValue_from_dict, KeyValue_to_dict. simpl.
  by rewrite lookup_insert_eq, lookup_insert_ne, lookup_insert_eq.
Qed.

(** X25.  What [write_key_values_to_file] writes, [read_key_values_from_file]
    reads back: on a path that can be opened for writing, and with a JSON
    library and a line reader that behave on the written text as Python's do
    (the file splits into the written lines, and each of them, stripped, is
    not empty and parses back to the dictionary it encodes), reading the file
    just written returns the pairs written, in order.  The file holds
    nothing from before the write. *)
Theorem write_then_read_key_values (path : string) (kvs : list KeyValue)
    (w : World) :
  let line kv := json_dumps rt (KeyValue_to_dict kv) +:+ nl in
  path ∉ denied w →
  readlines rt (ndjson rt kvs) = line <$> kvs →
  Forall (λ kv, strip rt (line kv) ≠ ""
                ∧ json_loads rt (strip rt (line kv)) = Ok (KeyValue_to_dict kv))
    kvs →
  let w' := (write_key_values_to_file rt path kvs w).1 in
  write_key_values_to_file rt path kvs w = (w', Ok ())
  ∧ fs w' = <[path := ndjson rt kvs]> (fs w)
  ∧ read_key_values_from_file rt path w' = (w', Ok kvs).
Proof.
  intros line Hd Hlines Hdec w'. subst w'.
  rewrite write_key_values_to_file_run by done. simpl.
  split; [done|]. split; [done|].
  apply read_back; [simpl; by rewrite lookup_insert_eq|done..].
Qed.

(** ** From map to reduce *)

Lemma execute_map_task_frame (self : Worker) (task : Task) (w : World)
    (p : string) :
  (∀ j, 0 ≤ j < n_reduce task →
     p ≠ intermediate_filename (map_task_id task) j
     ∧ p ≠ temp_name (intermediate_filename (map_task_id task) j)) →
  fs (_execute_map_task rt self task w).1 !! p = fs w !! p.
Proof.
  intros Hp. unfold _execute_map_task, returns_true.
  rewrite execute_map_task_body_cases.
  destruct (head (input_files task)) as [f|]; [|done].
  destruct (fs w !! f) as [contents|]; [|done].
  destruct (map_func (map_reduce_app self) f contents) as [kvs|e]; [|done].
  case_decide as Hc; [|done].
  destruct (write_files_outcome task (n_reduce task) kvs w)
    as (k & w' & Hk & Hrun & _ & Hend).
  apply write_intermediate_files_run in Hrun as (_ & _ & _ & _ & _ & Hframe);
    [|apply Forall_forall; intros j Hj%elem_of_seqZ;
      split; [lia|rewrite buckets_lookup by lia; eauto]
     |apply NoDup_seqZ].
  assert (fs w' !! p = fs w !! p) as Hw'
    by (apply Hframe; intros j Hj%elem_of_seqZ; apply Hp; lia).
  by destruct Hend as [[_ ->]|(_ & _ & ->)].
Qed.

Lemma execute_reduce_task_frame (self : Worker) (task : Task) (w : World)
    (p : string) :
  p ≠ output_file task → p ≠ temp_name (output_file task) →
  fs (_execute_reduce_task rt self task w).1 !! p = fs w !! p.
Proof.
  intros Hp Hp'. rewrite execute_reduce_task_run.
  destruct (input_files task ≫= file_pairs rt w); case_decide; simpl;
    try done.
  - by rewrite lookup_insert_ne.
  - destruct (written_lines _ _).2; simpl.
    + by rewrite lookup_insert_ne, lookup_delete_ne.
    + by rewrite lookup_insert_ne.
Qed.

(** X26.  Attempts do not disturb each other's files.  A map attempt,
    whatever its outcome, leaves the bucket files of every other map task
    and every output file as they are.  A reduce attempt for the output path
    [mr-out-j], whatever its outcome, leaves every bucket file and the
    output file of every other partition as they are. *)
Theorem attempts_do_not_interfere (self : Worker) (task : Task) (w : World) :
  let after_map := (_execute_map_task rt self task w).1 in
  let after_reduce := (_execute_reduce_task rt self task w).1 in
  (∀ m' j', m' ≠ map_task_id task →
     fs after_map !! intermediate_filename m' j'
     = fs w !! intermediate_filename m' j')
  ∧ (∀ j', fs after_map !! output_filename j' = fs w !! output_filename j')
  ∧ ∀ j, output_file task = output_filename j →
      (∀ m' j', fs after_reduce !! intermediate_filename m' j'
                = fs w !! intermediate_filename m' j')
      ∧ (∀ j', j' ≠ j →
           fs after_reduce !! output_filename j' = fs w !! output_filename j').
Proof.
  intros after_map after_reduce. subst after_map after_reduce.
  split; [|split].
  - intros m' j' Hm. apply execute_map_task_frame. intros j Hj. split.
    + by intros [? _]%MapReduceFacts.intermediate_filename_inj_both.
    + intros H. symmetry in H.
      by apply (MapReduceFacts.temp_not_a_task_file _ m' j') in H.
  - intros j'. apply execute_map_task_frame. intros j Hj. split.
    + intros H. symmetry in H.
      by apply MapReduceFacts.intermediate_filename_not_output in H.
    + intros H. symmetry in H.
      by apply (MapReduceFacts.temp_not_a_task_file _ 0 j') in H.
  - intros j Hout.
    pose proof (execute_reduce_task_frame self task w) as Hframe.
    rewrite Hout in Hframe. split.
    + intros m' j'. apply Hframe.
      * apply MapReduceFacts.intermediate_filename_not_output.
      * intros H. symmetry in H.
        by apply (MapReduceFacts.temp_not_a_task_file _ m' j') in H.
    + intros j' Hne. apply Hframe.
      * unfold output_filename. intros H.
        apply String.app_inj in H. by apply pretty_Z_inj in H.
      * intros H. symmetry in H.
        by apply (MapReduceFacts.temp_not_a_task_file _ 0 j') in H.
Qed.

(** X27.  The hand-over from map to reduce.  After a map
    attempt of map index [m] that returned True, let workers (with any
    application) execute any sequence of further tasks, whatever their
    outcomes, among which no map task has index [m] and every reduce task
    writes to an output path [mr-out-j']: the bucket file [mr-m-j] still
    holds bucket [j] of the pairs the map function emitted; and reading it
    the way a reduce task does returns that bucket, in emission order,
    provided the JSON library and the line reader behave on the bucket's
    text as Python's do (the text splits into the written lines, and each of
    them, stripped, is not empty and parses back to the dictionary it
    encodes). *)
Theorem map_output_outlives_later_tasks (self : Worker) (task : Task)
    (w w' : World) (input_file contents : string) (kvs : list KeyValue) (j : Z)
    (later : list (Worker * Task)) :
  let m := map_task_id task in
  let R := n_reduce task in
  let line kv := json_dumps rt (KeyValue_to_dict kv) +:+ nl in
  let w'' := foldl (λ w a, (_execute_task rt a.1 a.2 w).1) w' later in
  _execute_map_task rt self task w = (w', true) →
  head (input_files task) = Some input_file →
  fs w !! input_file = Some contents →
  map_func (map_reduce_app self) input_file contents = Ok kvs →
  0 ≤ j < R →
  Forall (λ a, (task_type a.2 = MAP → map_task_id a.2 ≠ m)
               ∧ (task_type a.2 = REDUCE →
                    ∃ j', output_file a.2 = output_filename j')) later →
  fs w'' !! intermediate_filename m j = Some (ndjson rt (bucket rt R j kvs))
  ∧ (readlines rt (ndjson rt (bucket rt R j kvs)) = line <$> bucket rt R j kvs →
     Forall (λ kv, strip rt (line kv) ≠ ""
                   ∧ json_loads rt (strip rt (line kv))
                     = Ok (KeyValue_to_dict kv))
       (bucket rt R j kvs) →
     read_key_values_from_file rt (intermediate_filename m j) w''
     = (w'', Ok (bucket rt R j kvs))).
Proof.
  intros m R line w'' Hrun Hhead Hfile Hmap Hj Hlater.
  assert (fs w' !! intermediate_filename m j
          = Some (ndjson rt (bucket rt R j kvs))) as Hw'.
  { revert Hrun. unfold _execute_map_task, returns_true.
    rewrite execute_map_task_body_cases. fold R. rewrite Hhead, Hfile, Hmap.
    case_decide as Hc; [|done].
    destruct (write_files_outcome task R kvs w)
      as (k & w1 & Hk & _ & _ & [[-> Hall]|(_ & _ & Hall)]);
      rewrite Hall; [|done]. intros [= ->].
    apply write_intermediate_files_run in Hall as (_ & _ & Hfiles & _);
      [|apply Forall_buckets|apply NoDup_seqZ].
    apply Hfiles; [apply elem_of_seqZ; lia|by apply buckets_lookup]. }
  assert (fs w'' !! intermediate_filename m j
          = Some (ndjson rt (bucket rt R j kvs))) as Hw''.
  { subst w''. clear Hrun. revert w' Hw'.
    induction Hlater as [|[self' t] later [Hmap' Hred'] _ IH]; intros w' Hw';
      [done|].
    simpl. apply IH. rewrite <-Hw'. simpl in Hmap', Hred'.
    unfold _execute_task. destruct (task_type t); [| |done..].
    - apply execute_map_task_frame. intros j' Hj'. split.
      + intros [? _]%MapReduceFacts.intermediate_filename_inj_both.
        by apply Hmap'.
      + intros H. symmetry in H.
        by apply (MapReduceFacts.temp_not_a_task_file _ m j) in H.
    - destruct Hred' as [j' Hout]; [done|].
      apply execute_reduce_task_frame; rewrite Hout.
      + apply MapReduceFacts.intermediate_filename_not_output.
      + intros H. symmetry in H.
        by apply (MapReduceFacts.temp_not_a_task_file _ m j) in H. }
  split; [done|]. intros Hlines Hdec. by apply read_back.
Qed.

End WithRuntime.

End WorkerFacts.

(** ** The theorems at work *)

Module WorkerFactsExamples.
Import MapReduce Worker FileProtocol WorkerCoverage WorkerProofs WorkerFacts.

(** One undecodable line makes a whole intermediate file read as empty. *)
Lemma read_key_values_from_file_outcome_witness :
  let contents := ndjson line_rt [mkKeyValue "a" "1"] +:+ "not json" +:+ nl in
  let w := mkWorld {["mr-0-0" := contents]} ∅ [] in
  read_key_values_from_file line_rt "mr-0-0" w = (w, Ok [])
  ∧ read_key_values_from_file line_rt "mr-1-0" w = (w, Ok []).
Proof.
  intros contents w.
  destruct (read_key_values_from_file_outcome line_rt "mr-0-0" w)
    as (_ & _ & Hfile).
  destruct (read_key_values_from_file_outcome line_rt "mr-1-0" w)
    as (_ & Hmissing & _).
  split; [|apply Hmissing; reflexivity].
  destruct (Hfile contents) as [_ Hbad]; [reflexivity|]. apply Hbad.
  replace (nonblank_lines line_rt contents)
    with [json_dumps line_rt (KeyValue_to_dict (mkKeyValue "a" "1")); "not json"]
    by (vm_compute; reflexivity).
  apply Exists_cons. right. apply Exists_cons. left.
  intros kv H. vm_compute in H. discriminate H.
Defined.

Lemma execute_reduce_task_writes_groups_witness :
  let self := mkWorker "worker-1" word_count (Some ("localhost", 5000)) in
  let task := mkTask 2 REDUCE ["mr-0-0"; "mr-1-0"] "mr-out-0" 1 (-1) 0 in
  let files : gmap string string :=
    <["mr-0-0" := ndjson line_rt [mkKeyValue "b" "1"; mkKeyValue "a" "1"]]>
      {["mr-1-0" := ndjson line_rt [mkKeyValue "b" "1"]]} in
  let w := mkWorld files ∅ [] in
  input_files task ≫= file_pairs line_rt w
    = [mkKeyValue "b" "1"; mkKeyValue "a" "1"; mkKeyValue "b" "1"]
  ∧ _execute_reduce_task line_rt self task w
    = (mkWorld (<["mr-out-0" := "a 1" +:+ nl +:+ "b 2" +:+ nl]>
                  (delete "mr-out-0.tmp" files)) ∅
         [OpenW "mr-out-0.tmp"; Rename "mr-out-0.tmp" "mr-out-0"],
       true).
Proof.
  intros self task files w.
  assert (input_files task ≫= file_pairs line_rt w
          = [mkKeyValue "b" "1"; mkKeyValue "a" "1"; mkKeyValue "b" "1"])
    as Hkvs by (vm_compute; reflexivity).
  split; [exact Hkvs|].
  apply (execute_reduce_task_writes_groups line_rt self task w
           ["a 1" +:+ nl; "b 2" +:+ nl]).
  - rewrite Hkvs. discriminate.
  - apply not_elem_of_empty.
  - rewrite Hkvs.
    replace (group_by_key (sort_key_values
               [mkKeyValue "b" "1"; mkKeyValue "a" "1"; mkKeyValue "b" "1"]))
      with [("a", ["1"]); ("b", ["1"; "1"])] by (vm_compute; reflexivity).
    repeat constructor.
Defined.

(** With a partition count of zero the first emitted pair stops the map
    task; with none emitted the loop ends normally. *)
Lemma partition_loop_outcome_witness :
  let task := mkTask 0 MAP ["in.txt"] "" 0 0 (-1) in
  let w := mkWorld ∅ ∅ [] in
  (for_fold [mkKeyValue "a" "1"] [] (partition_step example_rt task) w).2
    = Raise ZeroDivisionError
  ∧ (for_fold [] [] (partition_step example_rt task) w).2 = Ok [].
Proof.
  intros task w.
  destruct (partition_loop_outcome example_rt task [mkKeyValue "a" "1"] w)
    as (_ & _ & Hzero & _).
  destruct (partition_loop_outcome example_rt task [] w) as (_ & Hnil & _).
  split; [by apply Hzero|by apply Hnil].
Defined.

Lemma execute_map_task_again_witness :
  let self := mkWorker "worker-1" word_count (Some ("localhost", 5000)) in
  let task := mkTask 0 MAP ["in.txt"] "" 2 0 (-1) in
  let w := mkWorld {["in.txt" := "to be or not to be"]} ∅ [] in
  let w1 := (_execute_map_task example_rt self task w).1 in
  _execute_map_task example_rt self task w = (w1, true)
  ∧ _execute_map_task example_rt self task w1
    = (mkWorld (fs w1) (denied w1)
         (log w1 ++ [OpenW "mr-0-0.tmp"; Rename "mr-0-0.tmp" "mr-0-0";
                     OpenW "mr-0-1.tmp"; Rename "mr-0-1.tmp" "mr-0-1"]),
       true).
Proof.
  intros self task w w1.
  assert (_execute_map_task example_rt self task w = (w1, true)) as Hrun
    by (vm_compute; reflexivity).
  split; [exact Hrun|].
  apply (execute_map_task_again example_rt self task w w1 "in.txt" Hrun);
    [reflexivity|].
  intros j Hj. assert (j = 0 ∨ j = 1) as [-> | ->] by (subst task; cbn in Hj; lia);
    split; intros H; vm_compute in H; discriminate H.
Defined.

Lemma write_then_read_key_values_witness :
  let kvs := [mkKeyValue "b" "1"; mkKeyValue "a" "1"] in
  let w := mkWorld {["mr-0-0" := "stale"]} ∅ [] in
  let w' := (write_key_values_to_file line_rt "mr-0-0" kvs w).1 in
  fs w' = {["mr-0-0" := ndjson line_rt kvs]}
  ∧ read_key_values_from_file line_rt "mr-0-0" w' = (w', Ok kvs).
Proof.
  intros kvs w w'.
  destruct (write_then_read_key_values line_rt "mr-0-0" kvs w)
    as (_ & Hfs & Hread).
  - apply not_elem_of_empty.
  - vm_compute. reflexivity.
  - repeat constructor; (vm_compute; reflexivity) || (intros H; vm_compute in H; discriminate H).
  - split; [|exact Hread]. subst w'. rewrite Hfs. vm_compute. reflexivity.
Defined.

(** The bucket a map task wrote is what a reduce task reads, also after a
    reduce task and another map task have run. *)
Lemma map_output_outlives_later_tasks_witness :
  let self := mkWorker "worker-1" word_count (Some ("localhost", 5000)) in
  let task := mkTask 0 MAP ["in.txt"] "" 2 0 (-1) in
  let other := mkTask 1 MAP ["more.txt"] "" 2 1 (-1) in
  let reduce := mkTask 2 REDUCE ["mr-0-1"; "mr-1-1"] "mr-out-1" 2 (-1) 1 in
  let w := mkWorld (<["in.txt" := "to be or not to be"]>
                      {["more.txt" := "not so"]}) ∅ [] in
  let w' := (_execute_map_task line_rt self task w).1 in
  let w'' := foldl (λ w a, (_execute_task line_rt a.1 a.2 w).1) w'
               [(self, reduce); (self, other)] in
  _execute_map_task line_rt self task w = (w', true)
  ∧ read_key_values_from_file line_rt "mr-0-1" w''
    = (w'', Ok [mkKeyValue "not" "1"]).
Proof.
  intros self task other reduce w w' w''.
  assert (_execute_map_task line_rt self task w = (w', true)) as Hrun
    by (vm_compute; reflexivity).
  split; [exact Hrun|].
  destruct (map_output_outlives_later_tasks line_rt self task w w' "in.txt"
              "to be or not to be"
              ((λ word, mkKeyValue word "1")
                 <$> ["to"; "be"; "or"; "not"; "to"; "be"]) 1
              [(self, reduce); (self, other)] Hrun)
    as [_ Hread].
  - reflexivity.
  - reflexivity.
  - vm_compute. reflexivity.
  - subst task. cbn. lia.
  - repeat constructor; simpl; try done.
    by exists 1.
  - apply Hread.
    + vm_compute. reflexivity.
    + repeat constructor;
        (vm_compute; reflexivity) || (intros H; vm_compute in H; discriminate H).
Defined.

End WorkerFactsExamples.

(* ===================================================================== *)
(** * A worker's turn against the coordinator *)
(* ===================================================================== *)

Module RoundFacts.
Import MapReduce Worker FileProtocol.
Import Coordinator Invariant Coverage CoordinatorProofs CoordinatorFacts.

Section WithRuntime.
Context (rt : Runtime).

(** X28.  One turn of a worker's loop against the coordinator, the calls
    carried to the handlers unchanged.  In any state of a run, the reply of
    [_handle_task_request] is a task's dictionary, which [Task.from_dict]
    decodes to that task.  If it is the control task EXIT (sent only when
    [all_tasks_complete] is set) the worker leaves its loop; if it is WAIT it
    sleeps and asks again.  Otherwise the worker executes the task and
    reports [complete_task] for the task's id, with the outcome of the
    execution and an empty error message; the handler acknowledges that
    report, and afterwards the task is COMPLETED if the execution returned
    True and IDLE, to be handed out again, if it returned False. *)
Theorem worker_turn_with_coordinator (files : list string) (n : Z)
    (ops : list op) (self : Worker) (now now' : Q) (world : World) :
  is_Some (rpc_client self) →
  let me := Worker.worker_id self in
  let c := run (init files n) ops in
  let c1 := (_handle_task_request me now c).1 in
  ∃ t,
    (_handle_task_request me now c).2 = Ok (Task_to_dict t)
    ∧ Task_from_dict (Task_to_dict t) = Some (Ok t)
    ∧ match task_type t with
      | EXIT =>
          all_tasks_complete c = true
          ∧ run_turn rt self (Some t) world = (world, Break)
      | WAIT =>
          all_tasks_complete c = false
          ∧ run_turn rt self (Some t) world = (world, SleepAndContinue)
      | _ =>
          let ok := (_execute_task rt self t world).2 in
          let r := _handle_task_completion me (task_id t) ok "" now' c1 in
          run_turn rt self (Some t) world
          = ((_execute_task rt self t world).1,
             Reported (Some (complete_task me (task_id t) ok "")))
          ∧ r.2 = ack true
          ∧ ∃ ti, find_task (task_id t) r.1 = Some ti ∧ task ti = t
               ∧ status ti = if ok then COMPLETED else IDLE
      end.
Proof.
  intros [client Hclient] me c c1.
  assert (∀ t, Task_from_dict (Task_to_dict t) = Some (Ok t)) as Hwire.
  { intros [i ty fs o k m r].
    unfold Task_from_dict, Task_to_dict, dict_getitem, dict_get; simpl.
    repeat (rewrite ?lookup_insert_eq; rewrite ?lookup_insert_ne by done).
    simpl. by destruct ty. }
  assert (wf c) as Hwf by apply wf_run, wf_init.
  destruct (request_task_cases files n ops me now)
    as [(tid & ti & Hlk & Hidle & _ & Hreply & Hfound & _)
       |(_ & Hreply & _ & _)];
    fold c in Hlk, Hreply, Hfound || fold c in Hreply; fold c1 in Hfound || idtac.
  - exists (task ti). split; [done|]. split; [done|].
    assert (task_id (task ti) = tid
            ∧ (task_type (task ti) = MAP ∨ task_type (task ti) = REDUCE))
      as [Htid Hty].
    { apply od_lookup_elem_of in Hlk. unfold phase_table in Hlk.
      destruct (map_phase_complete c).
      - pose proof (wf_reduce_entries _ Hwf) as Hall.
        eapply Forall_forall in Hall as [? ?]; [|exact Hlk]. by split; [|right].
      - pose proof (wf_map_entries _ Hwf) as Hall.
        eapply Forall_forall in Hall as [? ?]; [|exact Hlk]. by split; [|left]. }
    assert (let ok := (_execute_task rt self (task ti) world).2 in
            let r := _handle_task_completion me (task_id (task ti)) ok "" now' c1 in
            r.2 = ack true
            ∧ ∃ ti', find_task (task_id (task ti)) r.1 = Some ti'
                ∧ task ti' = task ti
                ∧ status ti' = if ok then COMPLETED else IDLE) as Hdone.
    { intros ok r. subst r. unfold _handle_task_completion.
      rewrite Htid, Hfound. destruct ok; simpl; (split; [done|]).
      - rewrite find_task_check_phase_completion, find_task_update_task.
        rewrite decide_True by done. rewrite Hfound. simpl. by eexists.
      - rewrite find_task_update_task.
        rewrite decide_True by done. rewrite Hfound. simpl. by eexists. }
    assert (run_turn rt self (Some (task ti)) world
            = ((_execute_task rt self (task ti) world).1,
               Reported (Some (complete_task me (task_id (task ti))
                                 (_execute_task rt self (task ti) world).2 ""))))
      as Hturn.
    { unfold run_turn, _report_completion. rewrite Hclient.
      destruct Hty as [-> | ->];
        by destruct (_execute_task rt self (task ti) world). }
    destruct Hty as [Hty|Hty]; rewrite Hty; by split.
  - eexists. split; [exact Hreply|]. split; [apply Hwire|].
    by destruct (all_tasks_complete c).
Qed.

End WithRuntime.

Lemma worker_turn_with_coordinator_witness :
  let self := mkWorker "worker-1" word_count (Some ("localhost", 5000)) in
  let world := mkWorld {["in.txt" := "to be or not to be"]} ∅ [] in
  let t := mkTask 0 MAP ["in.txt"] "" 1 0 (-1) in
  let c1 := (_handle_task_request "worker-1" 0 (init ["in.txt"] 1)).1 in
  let r := _handle_task_completion "worker-1" 0 true "" 1 c1 in
  is_Some (rpc_client self)
  ∧ (∃ t', (_handle_task_request "worker-1" 0 (init ["in.txt"] 1)).2
           = Ok (Task_to_dict t')
         ∧ Task_from_dict (Task_to_dict t') = Some (Ok t'))
  ∧ (_handle_task_request "worker-1" 0 (init ["in.txt"] 1)).2
    = Ok (Task_to_dict t)
  ∧ (_execute_task example_rt self t world).2 = true
  ∧ status <$> find_task 0 r.1 = Some COMPLETED
  ∧ Coordinator.done r.1 = false.
Proof.
  intros self world t c1 r.
  assert (is_Some (rpc_client self)) as Hclient by (by eexists).
  split; [exact Hclient|]. split.
  - destruct (worker_turn_with_coordinator example_rt ["in.txt"] 1 [] self 0 1
                world Hclient) as (t' & Hreply & Hwire & _).
    exists t'. by split.
  - split; [vm_compute; reflexivity|]. split; [vm_compute; reflexivity|].
    split; vm_compute; reflexivity.
Defined.

End RoundFacts.
